(** * Ride-pooling batch assignment: the feasibility oracle, the RV graph
    and the vehicle-trip assignment

    The file has three parts.

    - A shallow embedding of
        [optimizer/network/road_network.py]   (the oracle [travel]),
        [optimizer/graphs/rv_graph.py]        ([generate_rv_graph]),
        [optimizer/solver/problem_formulation.py]
                                  ([greedy_assignment], [assignment_ilp]),
        [optimizer/agents/generator.py]       (the generators of vehicles
                                  and requests, the reachability filter),
        [optimizer/network/network_generator.py]
                                  ([clean_adjacency_list],
                                  [extract_maxspeed], the speed limit of an
                                  edge),
      one module per source file, each definition with the lines it embeds.
    - The vocabulary of the specification (arrival times, load, the
      constraints of the oracle, incident edges, the greedy procedure, the
      value of a linear expression) and the scenarios used as examples.
    - The properties, with the statements of the specification last in each
      chapter.

    Numbers.  Clocks, deadlines and travel times are Python integers; they
    are embedded as mathematical integers [Z] (seconds).  The relative cost
    of the greedy seeder is the true division of two integers, a double: it
    is embedded as the rational value of the double nearest to the
    quotient, with the exceptions of the division.  The values of the
    variables of the integer program are in [Q].  [float("inf")] is the
    constructor [Inf] of [cost].

    The road network is only ever consulted through
    [nx.shortest_path_length(graph, source, target, weight="travel_time")];
    a [graph] is therefore embedded as that oracle, [None] standing for the
    exception [nx.NetworkXNoPath].  Debug printing is left out.

    Randomness.  The generators draw from the module [random]; its state is
    embedded as the list of the draws still to come, threaded through the
    calls by a small monad.  A [while True] loop runs on fuel, and the fuel
    given is shown never to run out.

    Text.  Speed limits are read from strings; a string is a sequence of
    code points below 256, and [str(n)] is the decimal numeral [pretty n].
    The plotting functions, the reading of the map file and the arithmetic
    on floats of [generate_sliced_static_network] are left out. *)

From Stdlib Require Import ZArith QArith Lia Lqa Ascii.
From stdpp Require Import base option list strings sets gmap sorting pretty.

Local Open Scope Z_scope.

Set Warnings "-clear-no-such-hyp".

(** ** Records shared by the three modules *)

Definition node := Z.

(** The request dictionary.  [r_id], [o_r], [d_r], [t_r_pl] and [t_r_star]
    are the keys ["id"], ["o_r"], ["d_r"], ["t_r^pl"] and ["t_r^*"]; the keys
    ["t_r^r"], ["t_r^p"] and ["t_r^d"] are never read by the embedded
    functions. *)
Record request := Request {
  r_id : string;
  o_r : node;
  d_r : node;
  t_r_pl : Z;
  t_r_star : Z
}.

(** The vehicle dictionary, keys ["id"], ["q_v"], ["t_v"], ["passengers"]
    and ["trip_set"]. *)
Record vehicle := Vehicle {
  v_id : string;
  q_v : node;
  t_v : Z;
  passengers : Z;
  trip_set : list request
}.

Inductive stop_type := pickup | dropoff.

(** The stop dictionary [{"type": .., "node": .., "request": ..}]. *)
Record stop := Stop {
  s_type : stop_type;
  s_node : node;
  s_request : request
}.

Definition graph := node -> node -> option Z.

Inductive cost := Fin (c : Z) | Inf.

(** What [travel] hands back as its first component: a tuple of stops that
    it planned, or the vehicle's own ["trip_set"] (a list of requests). *)
Inductive trip := Stops (l : list stop) | Onboard (l : list request).

#[global] Instance stop_type_eq_dec : EqDecision stop_type.
Proof. solve_decision. Defined.
#[global] Instance request_eq_dec : EqDecision request.
Proof. solve_decision. Defined.
#[global] Instance stop_eq_dec : EqDecision stop.
Proof. solve_decision. Defined.
#[global] Instance cost_eq_dec : EqDecision cost.
Proof. solve_decision. Defined.
#[global] Instance trip_eq_dec : EqDecision trip.
Proof. solve_decision. Defined.

Definition is_pickup (s : stop) : bool :=
  match s_type s with pickup => true | dropoff => false end.
Definition is_dropoff (s : stop) : bool :=
  match s_type s with pickup => false | dropoff => true end.

Definition len {A} (l : list A) : Z := Z.of_nat (length l).

(** ** [optimizer/network/road_network.py] *)

Module RoadNetwork.

(** [itertools.permutations]: tuples are emitted in lexicographic order of
    the positions of the pool, that is, the element at position 0 followed by
    every permutation of the rest, then the element at position 1, ... *)
Fixpoint selections {A} (pool : list A) : list (A * list A) :=
  match pool with
  | [] => []
  | x :: xs => (x, xs) :: map (fun p => (p.1, x :: p.2)) (selections xs)
  end.

Fixpoint permutations_n {A} (n : nat) (pool : list A) : list (list A) :=
  match n with
  | O => [[]]
  | S n' =>
      flat_map (fun p => map (cons p.1) (permutations_n n' p.2))
               (selections pool)
  end.

Definition permutations {A} (pool : list A) : list (list A) :=
  permutations_n (length pool) pool.

Section Travel.

Variable vehicle : vehicle.
Variable new_requests : list request.
Variable graph : graph.
Variable max_capacity : Z.
Variable max_delay : Z.

(** Lines 30-32. *)
Definition stops : list stop :=
  map (fun r => Stop dropoff (d_r r) r) (trip_set vehicle) ++
  map (fun r => Stop pickup (o_r r) r) new_requests ++
  map (fun r => Stop dropoff (d_r r) r) new_requests.

(** Lines 58-76, the loop taken when the vehicle is empty.  The three
    arguments after the permutation are the loop's variables. *)
Fixpoint valid_empty (permutation : list stop) (pickup_seen : gset string)
    (dropoffs_made pickups_made : Z) : bool :=
  match permutation with
  | [] => true
  | stop :: rest =>
      match s_type stop with
      | dropoff =>
          if negb (bool_decide (r_id (s_request stop) ∈ pickup_seen))
          then false
          else valid_empty rest pickup_seen (dropoffs_made + 1) pickups_made
      | pickup =>
          let pickup_seen := pickup_seen ∪ {[ r_id (s_request stop) ]} in
          let pickups_made := pickups_made + 1 in
          if pickups_made >? dropoffs_made + max_capacity
          then false
          else valid_empty rest pickup_seen dropoffs_made pickups_made
      end
  end.

Definition min_dropoffs_before_new_pickups : Z :=
  Z.max 0 (len new_requests - max_capacity + len (trip_set vehicle)).

(** Lines 85-109, the loop taken when the vehicle carries passengers. *)
Fixpoint valid_onboard (permutation : list stop) (pickup_seen : gset string)
    (dropoffs_made pickups_made : Z) : bool :=
  match permutation with
  | [] => true
  | stop :: rest =>
      match s_type stop with
      | dropoff =>
          let dropoffs_made := dropoffs_made + 1 in
          if negb (bool_decide (r_id (s_request stop) ∈ pickup_seen))
          then false
          else valid_onboard rest pickup_seen dropoffs_made pickups_made
      | pickup =>
          if dropoffs_made <? min_dropoffs_before_new_pickups
          then false
          else
            let pickup_seen := pickup_seen ∪ {[ r_id (s_request stop) ]} in
            let pickups_made := pickups_made + 1 in
            if pickups_made >? dropoffs_made + len (trip_set vehicle)
            then false
            else valid_onboard rest pickup_seen dropoffs_made pickups_made
      end
  end.

(** Lines 38-111. *)
Definition is_valid_permutation (permutation : list stop) : bool :=
  match trip_set vehicle with
  | [] => valid_empty permutation ∅ 0 0
  | _ :: _ =>
      valid_onboard permutation
        (list_to_set (map r_id (trip_set vehicle)))
        0 (len (trip_set vehicle))
  end.

(** Lines 118-151: the walk along one stop order.  [None] is [valid = False]
    (the [break]s), [Some c] is [valid = True] with [total_cost = c]. *)
Fixpoint walk (stop_order : list stop) (current_time : Z)
    (current_position : node) (total_cost : Z) : option Z :=
  match stop_order with
  | [] => Some total_cost
  | stop :: rest =>
      match graph current_position (s_node stop) with
      | None => None
      | Some travel_time =>
          let current_time := current_time + travel_time in
          let total_cost := total_cost + travel_time in
          if is_pickup stop && (current_time >? t_r_pl (s_request stop))
          then None
          else if is_dropoff stop &&
                  (current_time >? t_r_star (s_request stop) + max_delay)
          then None
          else walk rest current_time (s_node stop) total_cost
      end
  end.

Definition cost_ltb (c : Z) (best : cost) : bool :=
  match best with Fin b => c <? b | Inf => true end.

(** Lines 113-155: one turn of the outer loop, on the pair
    [(shortest_trip, shortest_trip_cost)]. *)
Definition consider (best : option (list stop) * cost)
    (stop_order : list stop) : option (list stop) * cost :=
  match walk stop_order (t_v vehicle) (q_v vehicle) 0 with
  | Some total_cost =>
      if cost_ltb total_cost best.2 then (Some stop_order, Fin total_cost)
      else best
  | None => best
  end.

Definition search : option (list stop) * cost :=
  fold_left consider (filter (fun p => is_valid_permutation p = true)
                             (permutations stops))
            (None, Inf).

(** Lines 4-160.  A Python tuple is true when it is not empty. *)
Definition travel : option trip * cost :=
  match new_requests, trip_set vehicle with
  | [], [] => (None, Inf)
  | [], _ :: _ => (Some (Onboard (trip_set vehicle)), Fin 0)
  | _ :: _, _ =>
      match search with
      | (Some (s :: l), shortest_trip_cost) =>
          (Some (Stops (s :: l)), shortest_trip_cost)
      | _ => (None, Inf)
      end
  end.

End Travel.

End RoadNetwork.

(** ** [optimizer/graphs/rv_graph.py] *)

Module RvGraph.

(** *** The part of [networkx.Graph] that the builder uses

    An undirected graph whose nodes and adjacency dictionaries keep
    insertion order.  It is embedded as the list of its nodes and the list of
    its edges, both in insertion order: the adjacency of a node, as iterated
    by [G.edges(node, data=True)], is the sub-list of the edges that touch
    it, each reported from that node's side. *)

Inductive edge_kind := rv | rr.

#[global] Instance edge_kind_eq_dec : EqDecision edge_kind.
Proof. solve_decision. Defined.

(** The attribute dictionary of an edge: ["travel_time"], ["stops"] (only
    given for vehicle-request edges) and ["edge_type"]. *)
Record attrs := Attrs {
  travel_time : cost;
  stops : option trip;
  edge_type : edge_kind
}.

Record edge := Edge { e_u : string; e_v : string; e_data : attrs }.

Record rv_graph := Graph { nodes : list string; edges : list edge }.

#[global] Instance attrs_eq_dec : EqDecision attrs.
Proof. solve_decision. Defined.
#[global] Instance edge_eq_dec : EqDecision edge.
Proof. solve_decision. Defined.

Definition joins (u v : string) (e : edge) : bool :=
  bool_decide (e_u e = u /\ e_v e = v) ||
  bool_decide (e_u e = v /\ e_v e = u).

Definition add_node (n : string) (ns : list string) : list string :=
  if bool_decide (n ∈ ns) then ns else ns ++ [n].

(** [datadict.update(attr)] *)
Definition update (old new : attrs) : attrs :=
  Attrs (travel_time new)
        (match stops new with Some t => Some t | None => stops old end)
        (edge_type new).

Fixpoint put_edge (u v : string) (d : attrs) (es : list edge) : list edge :=
  match es with
  | [] => [Edge u v d]
  | e :: es' =>
      if joins u v e then Edge (e_u e) (e_v e) (update (e_data e) d) :: es'
      else e :: put_edge u v d es'
  end.

Definition add_edge (u v : string) (d : attrs) (g : rv_graph) : rv_graph :=
  Graph (add_node v (add_node u (nodes g))) (put_edge u v d (edges g)).

(** [G.remove_edge(u, v)].  It is only ever called on an edge that was just
    read off the graph, so the [NetworkXError] of a missing edge does not
    arise. *)
Definition remove_edge (u v : string) (g : rv_graph) : rv_graph :=
  Graph (nodes g) (filter (fun e => joins u v e = false) (edges g)).

Definition touches (n : string) (e : edge) : bool :=
  bool_decide (e_u e = n) || bool_decide (e_v e = n).

(** An edge as reported from the side of its end [n]. *)
Definition seen_from (n : string) (e : edge) : edge :=
  if bool_decide (e_u e = n) then Edge n (e_v e) (e_data e)
  else Edge n (e_u e) (e_data e).

(** [G.edges(node, data=True)] *)
Definition edges_at (g : rv_graph) (n : string) : list edge :=
  map (seen_from n) (filter (fun e => touches n e = true) (edges g)).

(** [G.copy()]: the nodes are added first, then the edges, read adjacency by
    adjacency in node order (so every edge is presented from both ends). *)
Definition copy (g : rv_graph) : rv_graph :=
  fold_left (fun acc e => add_edge (e_u e) (e_v e) (e_data e) acc)
            (flat_map (edges_at g) (nodes g))
            (Graph (nodes g) []).

(** *** [sorted(edges, key=...)], a stable sort, and the slice [l[k:]] *)

Definition cost_leb (a b : cost) : bool :=
  match a, b with
  | Fin x, Fin y => x <=? y
  | _, Inf => true
  | Inf, Fin _ => false
  end.

Fixpoint insert_by {A} (key : A -> cost) (x : A) (l : list A) : list A :=
  match l with
  | [] => [x]
  | y :: ys =>
      if cost_leb (key x) (key y) then x :: l else y :: insert_by key x ys
  end.

Definition sorted {A} (key : A -> cost) (l : list A) : list A :=
  foldr (insert_by key) [] l.

Definition slice_from {A} (k : Z) (l : list A) : list A :=
  if k <? 0 then drop (Z.to_nat (Z.max 0 (len l + k))) l
  else drop (Z.to_nat k) l.

(** *** The helper [prune_edges] (lines 26-62) *)

Definition startswith_r (n : string) : bool := String.prefix "r" n.

Definition own_kind (n : string) : edge_kind :=
  if startswith_r n then rr else rv.

(** Lines 42-48: the incident edges of the node's own kind. *)
Definition own_edges (g : rv_graph) (n : string) : list edge :=
  filter (fun e => edge_type (e_data e) = own_kind n) (edges_at g n).

(** Lines 40-60, the body of the loop over the nodes. *)
Definition prune_node (top_k : Z) (pruned_graph : rv_graph) (n : string)
    : rv_graph :=
  let edges := own_edges pruned_graph n in
  if len edges >? top_k then
    let edges_sorted := sorted (fun e => travel_time (e_data e)) edges in
    let edges_to_remove := slice_from top_k edges_sorted in
    fold_left (fun g e => remove_edge (e_u e) (e_v e) g)
              edges_to_remove pruned_graph
  else pruned_graph.

Definition prune_edges (g : rv_graph) (top_k : Z) : rv_graph :=
  let pruned_graph := copy g in
  fold_left (prune_node top_k) (nodes pruned_graph) pruned_graph.

(** *** [generate_rv_graph] (lines 6-159) *)

(** [itertools.combinations(requests, 2)] *)
Fixpoint combinations2 {A} (l : list A) : list (A * A) :=
  match l with
  | [] => []
  | x :: xs => map (pair x) xs ++ combinations2 xs
  end.

(** What a local name is bound to, and the truth value of the object in a
    test [if name:]. *)
Inductive binding := Boolean (b : bool) | Function.

Definition truth (x : binding) : bool :=
  match x with Boolean b => b | Function => true end.

(** The truth value of the first component of the result of [travel]. *)
Definition truthy (t : option trip) : bool :=
  match t with
  | Some (Stops (_ :: _)) | Some (Onboard (_ :: _)) => true
  | _ => false
  end.

Section Generate.

Variable graph : graph.
Variable vehicles : list vehicle.
Variable requests : list request.
Variable current_time : Z.
Variable max_capacity : Z.
Variable max_delay : Z.

(** Lines 85-93. *)
Definition vr_request (vehicle : vehicle) (g : rv_graph) (request : request)
    : rv_graph :=
  let '(valid_trip, trip_cost) :=
    RoadNetwork.travel vehicle [request] graph max_capacity max_delay in
  if truthy valid_trip
  then add_edge (v_id vehicle) (r_id request)
                (Attrs trip_cost valid_trip rv) g
  else g.

(** Lines 76-93. *)
Definition vr_vehicle (g : rv_graph) (vehicle : vehicle) : rv_graph :=
  if passengers vehicle >=? max_capacity then g
  else fold_left (vr_request vehicle) requests g.

(** Lines 101-113: the test under which a request-request edge is added.
    [o1d1] is computed, as in the source, between the two origins. *)
Definition rr_test (req1 req2 : request) (o1d1 d1o2 o2d2 o1o2 d1d2 : Z)
    : bool :=
  let max_delay_req1 := t_r_star req1 + max_delay in
  let max_delay_req2 := t_r_star req2 + max_delay in
  ((current_time + o1d1 <=? max_delay_req1) &&
   (current_time + o1d1 + d1o2 <=? t_r_pl req2) &&
   (current_time + o1d1 + d1o2 + o2d2 <=? max_delay_req2))
  ||
  ((current_time + o1o2 <=? t_r_pl req2) &&
   (current_time + o1o2 + o2d2 <=? max_delay_req2) &&
   (current_time + o1o2 + o2d2 + d1d2 <=? max_delay_req1))
  ||
  ((current_time + o1o2 <=? t_r_pl req2) &&
   (current_time + o1o2 + d1o2 <=? max_delay_req1) &&
   (current_time + o1o2 + d1o2 + d1d2 <=? max_delay_req2)).

(** Lines 96-117; a missing path ([None]) is the [continue] of the handler.
    The result is the weight of the edge to add, if one is added. *)
Definition rr_weight (req1 req2 : request) : option Z :=
  o1d1 ← graph (o_r req1) (o_r req2);
  d1o2 ← graph (d_r req1) (o_r req2);
  o2d2 ← graph (o_r req2) (d_r req2);
  o1o2 ← graph (o_r req1) (o_r req2);
  d1d2 ← graph (d_r req1) (d_r req2);
  if rr_test req1 req2 o1d1 d1o2 o2d2 o1o2 d1d2 then Some o1o2 else None.

Definition rr_pair (g : rv_graph) (p : request * request) : rv_graph :=
  match rr_weight p.1 p.2 with
  | Some o1o2 =>
      add_edge (r_id p.1) (r_id p.2) (Attrs (Fin o1o2) None rr) g
  | None => g
  end.

(** Lines 64-117: the graph before the final pruning step. *)
Definition build : rv_graph :=
  let g :=
    Graph (fold_left (fun ns r => add_node (r_id r) ns) requests []) [] in
  let g :=
    Graph (fold_left (fun ns v => add_node (v_id v) ns) vehicles (nodes g))
          [] in
  let g := fold_left vr_vehicle vehicles g in
  fold_left rr_pair (combinations2 requests) g.

(** Lines 6-159.  The local name [prune_edges] is bound twice: to the
    boolean argument on entry (line 6), then, by the [def] of line 26, to the
    helper function.  The test [if prune_edges:] of line 156 reads the
    second binding, and a function object is true. *)
Definition generate_rv_graph (prune_edges_arg : bool) (top_k : Z) : rv_graph :=
  let prune_edges_name := Boolean prune_edges_arg in
  let prune_edges_name := Function in
  let rv_graph := build in
  if truth prune_edges_name then prune_edges rv_graph top_k else rv_graph.

End Generate.

End RvGraph.

(** ** [optimizer/solver/problem_formulation.py] *)

Module ProblemFormulation.

(** *** The RTV graph, as the two functions read it

    The builder of the RTV graph is not part of the embedded sources; the
    graph is an input.  Of the [networkx.Graph] the functions read: the nodes
    in insertion order, the attributes ["type"] and ["requests"] of a node,
    the neighbours of a node, and the attribute ["travel_time"] of an edge
    ([None] when the edge or the attribute is missing). *)

Inductive node_type := request_t | trip_t | vehicle_t.

#[global] Instance node_type_eq_dec : EqDecision node_type.
Proof. solve_decision. Defined.

Record rtv_graph := RTV {
  rtv_nodes : list string;
  type_of : string -> node_type;
  requests_of : string -> gset string;
  neighbors : string -> list string;
  edge_travel_time : string -> string -> option Z
}.

(** A Python float: a finite double, embedded as the rational that it is, or
    [float("inf")]. *)
Inductive qcost := QFin (q : Q) | QInf.

Definition qcost_ltb (a b : qcost) : bool :=
  match a, b with
  | QFin x, QFin y => negb (Qle_bool y x)
  | QFin _, QInf => true
  | QInf, _ => false
  end.

Inductive result (A : Type) :=
  | Ok (a : A)
  | ZeroDivisionError
  | OverflowError.
Arguments Ok {A} a.
Arguments ZeroDivisionError {A}.
Arguments OverflowError {A}.

(** *** The operator [/] on two integers

    The true division of two Python integers is the double (binary64)
    nearest to their quotient, ties going to the even significand.  The
    finite doubles are the multiples [m * 2^e] of a power of two with
    [|m| < 2^53] and [-1074 <= e <= 971]; they are all multiples of
    [2^-1074], and a double is written here as that multiple. *)

(** The integer nearest to [n / d], the even one of the two when [n / d]
    lies half-way, for [0 <= n] and [0 < d]. *)
Definition round_half_even (n d : Z) : Z :=
  let q := n / d in
  let r := n mod d in
  match 2 * r ?= d with
  | Lt => q
  | Gt => q + 1
  | Eq => if Z.even q then q else q + 1
  end.

(** The double nearest to [n / d], in units of [2^-1074], for [0 <= n] and
    [0 < d].  Below [2^53] units the doubles are one unit apart; from
    [2^(52 + e)] to [2^(53 + e)] units they are [2^e] units apart. *)
Definition nearest_double (n d : Z) : Z :=
  let scaled := n * 2 ^ 1074 in
  let e := Z.max 0 (Z.log2 (scaled / d) - 52) in
  round_half_even scaled (d * 2 ^ e) * 2 ^ e.

(** The double nearest to [a / b], as a rational. *)
Definition double_quotient (a b : Z) : Q :=
  Qmake (Z.sgn a * Z.sgn b * nearest_double (Z.abs a) (Z.abs b))
        (2 ^ 1074)%positive.

(** [a / b]: [ZeroDivisionError] for [b = 0], and [OverflowError] when the
    rounded quotient is [2^1024] or more in absolute value. *)
Definition true_divide (a b : Z) : result Q :=
  if b =? 0 then ZeroDivisionError
  else if 2 ^ 2098 <=? nearest_double (Z.abs a) (Z.abs b) then OverflowError
  else Ok (double_quotient a b).

(** *** [greedy_assignment] (lines 4-71) *)

Section Greedy.

Variable rtv_graph : rtv_graph.
Variable vehicles : list vehicle.

(** The order in which Python iterates over a set of strings is not
    specified; [set_order] is that order. *)
Variable set_order : gset string -> list string.

(** Line 44: [cost / number_of_trips].  [cost] is the integer of the edge,
    or [float("inf")] ([None]) when the edge has no ["travel_time"]; the
    infinite float divided by a positive integer is itself. *)
Definition relative_cost (cost : option Z) (number_of_trips : nat)
    : result qcost :=
  match cost with
  | Some c =>
      match true_divide c (Z.of_nat number_of_trips) with
      | Ok q => Ok (QFin q)
      | ZeroDivisionError => ZeroDivisionError
      | OverflowError => OverflowError
      end
  | None =>
      match number_of_trips with
      | O => ZeroDivisionError
      | S _ => Ok QInf
      end
  end.

(** The variables [(best_vehicle, best_trip)] and [min_cost] of one search;
    [None] is the initial [best_vehicle = best_trip = None]. *)
Definition best := (option (string * string) * qcost)%type.

(** Lines 32-49, the body of the loop over the neighbours of a vehicle. *)
Definition try_trip (assigned_requests : gset string) (vehicle_id : string)
    (b : result best) (trip_id : string) : result best :=
  match b with
  | ZeroDivisionError => ZeroDivisionError
  | OverflowError => OverflowError
  | Ok (chosen, min_cost) =>
      if bool_decide (type_of rtv_graph trip_id = trip_t) then
        let trip_requests := requests_of rtv_graph trip_id in
        let number_of_trips := size trip_requests in
        if bool_decide (trip_requests ∩ assigned_requests ≠ ∅)
        then Ok (chosen, min_cost)
        else
          let cost := edge_travel_time rtv_graph vehicle_id trip_id in
          match relative_cost cost number_of_trips with
          | ZeroDivisionError => ZeroDivisionError
          | OverflowError => OverflowError
          | Ok relative_cost =>
              if qcost_ltb relative_cost min_cost
              then Ok (Some (vehicle_id, trip_id), relative_cost)
              else Ok (chosen, min_cost)
          end
      else Ok (chosen, min_cost)
  end.

(** Lines 23-57: one search over all unassigned vehicles and their trips. *)
Definition find_best (unassigned_vehicles assigned_requests : gset string)
    : result best :=
  fold_left
    (fun b vehicle_id =>
       fold_left (try_trip assigned_requests vehicle_id)
                 (neighbors rtv_graph vehicle_id) b)
    (set_order unassigned_vehicles)
    (Ok (None, QInf)).

(** Lines 65-67. *)
Definition mark_served (assigned_requests : gset string) (best_trip : string)
    : gset string :=
  assigned_requests ∪
  list_to_set (filter (fun n => type_of rtv_graph n = request_t)
                      (neighbors rtv_graph best_trip)).

Definition nonempty_string (s : string) : bool :=
  match s with EmptyString => false | String _ _ => true end.

Record state := State {
  assignment : gmap string string;
  unassigned_vehicles : gset string;
  assigned_requests : gset string
}.

(** Lines 22-69, the [while] loop.  Every turn that does not leave the loop
    removes a vehicle from [unassigned_vehicles]; [fuel] bounds the number of
    turns and [None] is returned if it is used up. *)
Fixpoint loop (fuel : nat) (st : state)
    : option (result (gmap string string)) :=
  if bool_decide (unassigned_vehicles st = ∅) then Some (Ok (assignment st))
  else
    match fuel with
    | O => None
    | S fuel' =>
        match find_best (unassigned_vehicles st) (assigned_requests st) with
        | ZeroDivisionError => Some ZeroDivisionError
        | OverflowError => Some OverflowError
        | Ok (Some (best_vehicle, best_trip), _) =>
            if nonempty_string best_vehicle && nonempty_string best_trip then
              loop fuel'
                (State (<[best_vehicle := best_trip]> (assignment st))
                       (unassigned_vehicles st ∖ {[ best_vehicle ]})
                       (mark_served (assigned_requests st) best_trip))
            else Some (Ok (assignment st))
        | Ok (None, _) => Some (Ok (assignment st))
        end
    end.

(** Lines 16-19. *)
Definition initial : state :=
  State ∅
        (list_to_set
           (map v_id
              (filter (fun v => (0 < length (neighbors rtv_graph (v_id v)))%nat)
                      vehicles)))
        ∅.

Definition greedy_assignment : option (result (gmap string string)) :=
  loop (size (unassigned_vehicles initial)) initial.

End Greedy.

(** *** [assignment_ilp] (lines 73-174) *)

Inductive var := epsilon (trip vehicle : string) | chi (request : string).

#[global] Instance var_eq_dec : EqDecision var.
Proof. solve_decision. Defined.

Inductive sense := LessEqual | Equal.

(** A linear expression, as [quicksum] builds it: a list of terms.  The
    coefficients are the numbers that the program gives; what the solver
    makes of them is not part of the model. *)
Definition linexpr := list (Q * var).

Record constr := Constr {
  c_name : string;
  c_lhs : linexpr;
  c_sense : sense;
  c_rhs : Q
}.

(** The argument [vtype] of [addVar]: [GRB.BINARY], [GRB.INTEGER] or
    [GRB.CONTINUOUS]. *)
Inductive vtype := BINARY | INTEGER | CONTINUOUS.

(** The second argument of [setObjective]: [GRB.MINIMIZE] or
    [GRB.MAXIMIZE]. *)
Inductive objective_sense := MINIMIZE | MAXIMIZE.

(** The Gurobi model after line 161: the variables in the order of their
    [addVar], each with its [vtype]; the objective and its sense, as given
    to [setObjective]; the constraints in the order of their [addConstr];
    and the variables whose [start] was set to 1. *)
Record model := Model {
  variables : list (var * vtype);
  objective : linexpr;
  model_sense : objective_sense;
  constraints : list constr;
  start : list var
}.

Section Ilp.

Variable rtv_graph : rtv_graph.
Variable vehicles : list vehicle.
Variable requests : list request.
Variable greedy_assignment : gmap string string.
Variable cost_penalty : Q.

(** [d[k] = ...] on the keys of a dictionary. *)
Definition dict_add {K} `{EqDecision K} (k : K) (ks : list K) : list K :=
  if bool_decide (k ∈ ks) then ks else ks ++ [k].

(** Lines 99-103: the pairs at which an [addVar] for [epsilon] is done. *)
Definition epsilon_calls : list (string * string) :=
  flat_map
    (fun trip =>
       if bool_decide (type_of rtv_graph trip = trip_t) then
         map (pair trip)
             (filter (fun n => type_of rtv_graph n = vehicle_t)
                     (neighbors rtv_graph trip))
       else [])
    (rtv_nodes rtv_graph).

(** The keys of the dictionary [epsilon], in insertion order. *)
Definition epsilon_keys : list (string * string) :=
  fold_left (fun ks k => dict_add k ks) epsilon_calls [].

Definition eps (k : string * string) : var := epsilon k.1 k.2.

(** Lines 110-113; [None] is the [KeyError] of a missing ["travel_time"]. *)
Definition trip_cost_terms : option linexpr :=
  mapM (fun k =>
          c ← edge_travel_time rtv_graph k.1 k.2;
          Some (inject_Z c, eps k))
       epsilon_keys.

(** Lines 114-116. *)
Definition unserved_penalty_terms : linexpr :=
  map (fun r => (cost_penalty, chi (r_id r))) requests.

(** Lines 121-132. *)
Definition vehicle_constraint (vehicle_data : vehicle) : constr :=
  let vehicle_id := v_id vehicle_data in
  let vehicle_edges := filter (fun k => k.2 = vehicle_id) epsilon_keys in
  Constr ("VehicleConstraint_" +:+ vehicle_id)
         (map (fun edge => (1%Q, eps edge)) vehicle_edges)
         LessEqual 1%Q.

(** Lines 135-157. *)
Definition request_constraint (request : request) : constr :=
  let relevant_trips :=
    filter (fun trip => type_of rtv_graph trip = trip_t ∧
                        r_id request ∈ requests_of rtv_graph trip)
           (rtv_nodes rtv_graph) in
  let relevant_edges :=
    flat_map (fun trip =>
                filter (fun k => k ∈ epsilon_keys)
                       (map (pair trip) (neighbors rtv_graph trip)))
             relevant_trips in
  Constr ("RequestConstraint_" +:+ r_id request)
         (map (fun edge => (1%Q, eps edge)) relevant_edges ++
          [(1%Q, chi (r_id request))])
         Equal 1%Q.

(** Lines 159-161; the order in which the items of the seed are visited
    does not show in the model. *)
Definition warm_start : list var :=
  map eps (filter (fun k => greedy_assignment !! k.2 = Some k.1)
                  epsilon_keys).

(** Lines 90-161. *)
Definition build_model : option model :=
  terms ← trip_cost_terms;
  Some (Model (map (fun k => (eps k, BINARY)) epsilon_calls ++
               map (fun r => (chi (r_id r), BINARY)) requests)
              (terms ++ unserved_penalty_terms)
              MINIMIZE
              (map vehicle_constraint vehicles ++
               map request_constraint requests)
              warm_start).

(** Lines 168-172, given the attribute [x] of the variables after
    [model.optimize()]. *)
Definition extract (x : var -> Q) : gmap string string :=
  fold_left (fun optimal_assignment edge =>
               if negb (Qle_bool (x (eps edge)) (1 # 2))
               then <[edge.2 := edge.1]> optimal_assignment
               else optimal_assignment)
            epsilon_keys ∅.

(** Lines 73-174.  [optimize] is the solver: it takes the model to the
    values of its variables. *)
Definition assignment_ilp (optimize : model -> var -> Q)
    : option (gmap string string) :=
  m ← build_model;
  Some (extract (optimize m)).

End Ilp.

End ProblemFormulation.

(** ** [optimizer/agents/generator.py] *)

Module Generator.

(** *** The dictionaries that the generators build

    A generated request carries, besides the five keys of [request], the
    keys ["t_r^r"], ["t_r^p"] and ["t_r^d"]; the ["trip_set"] of a generated
    vehicle is a list of such dictionaries.  [view] and [as_vehicle] give
    the part of them that the other modules read. *)

Record request_dict := RequestDict {
  view : request;
  t_r_r : Z;
  t_r_p : Z;
  t_r_d : Z
}.

Record vehicle_dict := VehicleDict {
  vd_id : string;
  vd_q_v : node;
  vd_t_v : Z;
  vd_passengers : Z;
  vd_trip_set : list request_dict
}.

Definition as_vehicle (v : vehicle_dict) : vehicle :=
  Vehicle (vd_id v) (vd_q_v v) (vd_t_v v) (vd_passengers v)
          (map view (vd_trip_set v)).

(** *** The module [random]

    The generator of pseudo-random numbers is a piece of state that every
    call advances.  It is embedded as the supply of the draws still to come:
    a call takes the first one and leaves the rest.  A finite supply stands
    for the beginning of a run; [Starved] says that the run needs more draws
    than were supplied. *)

Definition supply := list nat.

Inductive outcome (A : Type) :=
  | Return (a : A) (rest : supply)
  | IndexError
  | ValueError
  | Starved
  | OutOfFuel.
Arguments Return {A} a rest.
Arguments IndexError {A}.
Arguments ValueError {A}.
Arguments Starved {A}.
Arguments OutOfFuel {A}.

Definition M (A : Type) : Type := supply -> outcome A.

Definition ret {A} (a : A) : M A := fun s => Return a s.

Definition bind {A B} (m : M A) (k : A -> M B) : M B := fun s =>
  match m s with
  | Return a rest => k a rest
  | IndexError => IndexError
  | ValueError => ValueError
  | Starved => Starved
  | OutOfFuel => OutOfFuel
  end.

Notation "x <- m ;; k" := (bind m (fun x => k))
  (at level 100, m at next level, right associativity).

(** [random.choice(seq)]: [IndexError] on an empty sequence, otherwise the
    element at an index below [len(seq)]. *)
Definition choice {A} (seq : list A) : M A := fun s =>
  match seq with
  | [] => IndexError
  | x :: _ =>
      match s with
      | [] => Starved
      | n :: rest => Return (nth (n mod length seq) seq x) rest
      end
  end.

(** [random.randint(a, b)]: [ValueError] on an empty range, otherwise an
    integer between [a] and [b], both included. *)
Definition randint (a b : Z) : M Z := fun s =>
  if b <? a then ValueError
  else
    match s with
    | [] => Starved
    | n :: rest => Return (a + Z.of_nat n mod (b - a + 1)) rest
    end.

(** A [for] loop over a list, with the variables of the loop as state. *)
Fixpoint for_each {A B} (body : B -> A -> M B) (l : list A) (acc : B) : M B :=
  match l with
  | [] => ret acc
  | x :: l' => acc' <- body acc x ;; for_each body l' acc'
  end.

(** [range(n)] *)
Definition range (n : Z) : list Z := map Z.of_nat (seq 0 (Z.to_nat n)).

(** Every turn of a [while True] loop below makes at least one draw, so the
    number of draws supplied, plus one, bounds the number of its turns. *)
Definition turns (s : supply) : nat := S (length s).

Section Generators.

Variable graph : graph.

(** [list(graph.nodes)] *)
Variable nodes : list node.

(** *** [generate_requests_for_vehicle] (lines 5-60) *)

(** Lines 30-31. *)
Fixpoint redraw (fuel : nat) (origin destination : node) : M node :=
  if bool_decide (destination = origin) then
    match fuel with
    | O => fun _ => OutOfFuel
    | S fuel' =>
        destination <- choice nodes ;; redraw fuel' origin destination
    end
  else ret destination.

(** Lines 26-46; the result is [(origin, destination, pickup_time,
    expected_arrival_time)] at the [break].  [vehicle_node] is a node of the
    graph, as it is for the caller [initialize_vehicles]: the query of line
    35 is the oracle [graph]. *)
Fixpoint passenger (fuel : nat) (vehicle_node : node) (i : Z) (max_delay : Z)
    : M (node * node * Z * Z) :=
  match fuel with
  | O => fun _ => OutOfFuel
  | S fuel' =>
      origin <- (if i =? 0 then ret vehicle_node else choice nodes) ;;
      destination <- choice nodes ;;
      destination <- redraw fuel' origin destination ;;
      match graph origin destination with
      | Some travel_time =>
          let current_time := 0 in
          let time_offset := -80 in
          let pickup_time := current_time + ((i + 1) * time_offset) in
          let expected_arrival_time := pickup_time + travel_time in
          if expected_arrival_time <=? pickup_time + max_delay
          then ret (origin, destination, pickup_time, expected_arrival_time)
          else passenger fuel' vehicle_node i max_delay
      | None => passenger fuel' vehicle_node i max_delay
      end
  end.

Definition generate_requests_for_vehicle (vehicle_node : node)
    (num_passengers : Z) (omega max_delay : Z) : M (list request_dict) :=
  for_each
    (fun trip_set i => fun s =>
       (p <- passenger (turns s) vehicle_node i max_delay ;;
        let '(origin, destination, pickup_time, expected_arrival_time) := p in
        ret (trip_set ++
             [RequestDict
                (Request ("r_p" +:+ pretty (i + 1)) origin destination
                         (pickup_time - 30 + omega)
                         (expected_arrival_time - 30))
                (pickup_time - 30) pickup_time expected_arrival_time])) s)
    (range num_passengers) [].

(** *** [initialize_vehicles] (lines 62-94) *)

Definition initialize_vehicles (num_vehicles : Z) (max_capacity : Z)
    (omega max_delay : Z) : M (list vehicle_dict) :=
  for_each
    (fun vehicles i =>
       current_passengers <- randint 0 max_capacity ;;
       vehicle_node <- choice nodes ;;
       trip_set <- generate_requests_for_vehicle vehicle_node
                     current_passengers omega max_delay ;;
       ret (vehicles ++
            [VehicleDict ("v" +:+ pretty (i + 1)) vehicle_node 0
                         current_passengers trip_set]))
    (range num_vehicles) [].

(** *** [generate_requests] (lines 97-143) *)

(** Lines 113-124; the result is [(origin, destination, travel_time)] at the
    [break]. *)
Fixpoint pair_of_nodes (fuel : nat) : M (node * node * Z) :=
  match fuel with
  | O => fun _ => OutOfFuel
  | S fuel' =>
      origin <- choice nodes ;;
      destination <- choice nodes ;;
      if bool_decide (origin <> destination) then
        match graph origin destination with
        | Some travel_time => ret (origin, destination, travel_time)
        | None => pair_of_nodes fuel'
        end
      else pair_of_nodes fuel'
  end.

Definition generate_requests (num_requests : Z) (omega : Z)
    : M (list request_dict) :=
  for_each
    (fun generated_requests i => fun s =>
       (p <- pair_of_nodes (turns s) ;;
        let '(origin, destination, travel_time) := p in
        if travel_time >? 0 then
          let t_r_star := travel_time in
          ret (generated_requests ++
               [RequestDict
                  (Request ("r" +:+ pretty (i + 1)) origin destination
                           (0 + omega) (0 + t_r_star))
                  0 (-1) (-1)])
        else ret generated_requests) s)
    (range num_requests) [].

(** *** [validate_request_reachability] (lines 146-177) *)

(** [nx.has_path], between two nodes of the graph: a path exists exactly
    when the shortest-path query does not raise [NetworkXNoPath]. *)
Definition has_path (source target : node) : bool :=
  match graph source target with Some _ => true | None => false end.

(** Lines 164-170. *)
Fixpoint is_reachable (o_r : node) (vehicles : list vehicle) : bool :=
  match vehicles with
  | [] => false
  | vehicle :: rest =>
      if has_path (q_v vehicle) o_r then true else is_reachable o_r rest
  end.

Definition validate_request_reachability (requests : list request)
    (vehicles : list vehicle) : list request * list request :=
  fold_left
    (fun lists request =>
       let '(reachable_requests, unreachable_requests) := lists in
       if is_reachable (o_r request) vehicles
       then (reachable_requests ++ [request], unreachable_requests)
       else (reachable_requests, unreachable_requests ++ [request]))
    requests ([], []).

End Generators.

End Generator.

(** ** [optimizer/network/network_generator.py] *)

Module NetworkGenerator.

(** *** [clean_adjacency_list] (lines 4-24)

    The adjacency list of [nx.to_dict_of_dicts] on a multigraph: node, then
    neighbour, then edge key, then the attributes of the edge.  The nested
    dictionaries are finite maps; the order of their items plays no part. *)

Section Clean.

Context {K E V : Type} `{Countable K} `{Countable E}.

(** Line 21: [{key: attributes[key] for key in keys_to_keep
    if key in attributes}]. *)
Definition clean_attributes (keys_to_keep : list string)
    (attributes : gmap string V) : gmap string V :=
  fold_left
    (fun cleaned_attributes key =>
       match attributes !! key with
       | Some a => <[key := a]> cleaned_attributes
       | None => cleaned_attributes
       end)
    keys_to_keep ∅.

(** Lines 20-23: an edge stays when some attribute of it is kept. *)
Definition clean_edges (keys_to_keep : list string)
    (edges : gmap E (gmap string V)) : gmap E (gmap string V) :=
  omap (fun attributes =>
          let cleaned_attributes :=
            clean_attributes keys_to_keep attributes in
          if bool_decide (dom cleaned_attributes = (∅ : gset string))
          then None else Some cleaned_attributes)
       edges.

Definition clean_adjacency_list
    (adj_list : gmap K (gmap K (gmap E (gmap string V))))
    (keys_to_keep : list string)
    : gmap K (gmap K (gmap E (gmap string V))) :=
  (fun neighbors : gmap K (gmap E (gmap string V)) =>
     clean_edges keys_to_keep <$> neighbors) <$> adj_list.

End Clean.

(** *** Text

    A Python string is a sequence of code points; the strings here are
    sequences of code points below 256.  [isspace], [isdigit] and [digit]
    are the character classes of [str.isspace], [str.isdigit] and of the
    decimal digits that [int] accepts, on that range. *)

Definition code (c : ascii) : nat := nat_of_ascii c.

Definition isspace (c : ascii) : bool :=
  let n := code c in
  ((9 <=? n) && (n <=? 13) || (28 <=? n) && (n <=? 32) ||
   (n =? 133) || (n =? 160))%nat.

Definition digit (c : ascii) : option Z :=
  let n := code c in
  if ((48 <=? n) && (n <=? 57))%nat then Some (Z.of_nat n - 48) else None.




(** [s.split()]: the maximal runs of characters that are not whitespace.
    [word] is the run being read. *)
Fixpoint split_from (s : string) (word : string) : list string :=
  match s with
  | EmptyString =>
      match word with EmptyString => [] | String _ _ => [word] end
  | String c s' =>
      if isspace c then
        match word with
        | EmptyString => split_from s' EmptyString
        | String _ _ => word :: split_from s' EmptyString
        end
      else split_from s' (word +:+ String c EmptyString)
  end.

Definition split (s : string) : list string := split_from s EmptyString.

(** [int(s)] for a string without whitespace, in base 10: an optional sign,
    then digits, with single underscores allowed between digits.  [None] is
    [ValueError].  (The limit that recent interpreters put on the number of
    digits is not reached by the strings considered.) *)
Fixpoint int_digits (s : string) (value : Z) (after_digit : bool)
    : option Z :=
  match s with
  | EmptyString => if after_digit then Some value else None
  | String c s' =>
      match digit c with
      | Some d => int_digits s' (10 * value + d) true
      | None =>
          if Ascii.eqb c "_"%char && after_digit then int_digits s' value false
          else None
      end
  end.

Definition int (s : string) : option Z :=
  match s with
  | String "+"%char s' => int_digits s' 0 false
  | String "-"%char s' => Z.opp <$> int_digits s' 0 false
  | _ => int_digits s 0 false
  end.

(** *** [extract_maxspeed] (lines 26-41) *)

(** Lines 36-40: [None] is the exception, [IndexError] of [split()[0]] or
    [ValueError] of [int], that the handler turns into [continue]. *)
Definition leading_int (speed : string) : option Z :=
  match split speed with
  | [] => None
  | first :: _ => int first
  end.

(** [max(speeds)] of a list that is not empty. *)
Definition max_of (x : Z) (speeds : list Z) : Z := fold_left Z.max speeds x.

Definition extract_maxspeed (maxspeed_list : list string) : Z :=
  let speeds :=
    fold_left (fun speeds speed =>
                 match leading_int speed with
                 | Some n => speeds ++ [n]
                 | None => speeds
                 end)
              maxspeed_list [] in
  match speeds with
  | [] => 50
  | x :: rest => max_of x rest
  end.

(** *** The speed limit of an edge, in [generate_sliced_static_network]
    (lines 49-55) *)


Inductive result (A : Type) := Ok (a : A) | ValueError.
Arguments Ok {A} a.
Arguments ValueError {A}.


End NetworkGenerator.

(** * The vocabulary of the specification, and scenarios *)

Import RoadNetwork.
Import RvGraph.
Import ProblemFormulation.

(** ** Stop sequences *)

Section Vocabulary.

Variable graph : graph.
Variable max_delay : Z.

(** Sum of the shortest travel times of the consecutive legs of a route that
    starts at [from]; [None] when a leg has no path. *)
Fixpoint path_time (from : node) (route : list node) : option Z :=
  match route with
  | [] => Some 0
  | n :: rest =>
      d ← graph from n; t ← path_time n rest; Some (d + t)
  end.

(** Simulated arrival time at the stop of index [i], for a vehicle that
    leaves [q] at time [t]. *)
Definition arrival (t : Z) (q : node) (seq : list stop) (i : nat)
    : option Z :=
  d ← path_time q (map s_node (take (S i) seq)); Some (t + d).

(** The deadline of a stop: [t_pickup_latest] of its request for a pickup,
    [t_dropoff_earliest + max_delay] for a drop-off. *)
Definition deadline (s : stop) : Z :=
  match s_type s with
  | pickup => t_r_pl (s_request s)
  | dropoff => t_r_star (s_request s) + max_delay
  end.

Definition on_time (t : Z) (q : node) (seq : list stop) : Prop :=
  forall i s, seq !! i = Some s ->
    exists a, arrival t q seq i = Some a /\ a <= deadline s.

End Vocabulary.

Definition pickups_in (l : list stop) : Z :=
  len (filter (fun s => s_type s = pickup) l).
Definition dropoffs_in (l : list stop) : Z :=
  len (filter (fun s => s_type s = dropoff) l).

(** Instantaneous load after the stops [l], for [onboard] passengers at the
    start. *)
Definition load (onboard : Z) (l : list stop) : Z :=
  onboard + pickups_in l - dropoffs_in l.

Definition pick (r : request) : stop := Stop pickup (o_r r) r.
Definition drop_off (r : request) : stop := Stop dropoff (d_r r) r.

(** ** The constraints of the oracle *)

Section SpecConstraints.

Variable vehicle : vehicle.
Variable new_requests : list request.
Variable graph : graph.
Variable max_capacity : Z.
Variable max_delay : Z.

(** The six constraints of the oracle, in the words of the specification:
    precedence, capacity, onboard-first, and (together, as [on_time]) the
    pickup deadline, the drop-off deadline and reachability of every leg. *)
Record spec_feasible (seq : list stop) : Prop := SpecFeasible {
  sf_ordering : seq ≡ₚ RoadNetwork.stops vehicle new_requests;
  sf_precedence :
    forall r i j, r ∈ new_requests ->
      seq !! i = Some (pick r) -> seq !! j = Some (drop_off r) -> (i < j)%nat;
  sf_capacity :
    forall k, load (len (trip_set vehicle)) (take k seq) <= max_capacity;
  sf_onboard_first :
    forall i s, seq !! i = Some s -> s_type s = pickup ->
      Z.max 0 (len new_requests - max_capacity + len (trip_set vehicle))
        <= dropoffs_in (take i seq);
  sf_on_time : on_time graph max_delay (t_v vehicle) (q_v vehicle) seq
}.

(** The cost of an ordering: the sum of the shortest travel times of its
    legs, from the vehicle's position. *)
Definition spec_cost (seq : list stop) : option Z :=
  path_time graph (q_v vehicle) (map s_node seq).

End SpecConstraints.

(** ** The RV graph *)

(** Incident edges of one kind, the quantity that the pruning step caps. *)
Definition incident (g : rv_graph) (kind : edge_kind) (n : string)
    : list edge :=
  filter (fun e => edge_type (e_data e) = kind) (edges_at g n).


(** The graph at the time the pruning step, which visits the nodes [ns] in
    order from [g], reaches the node [n]. *)
Fixpoint when_visited (top_k : Z) (n : string) (ns : list string)
    (g : rv_graph) : rv_graph :=
  match ns with
  | [] => g
  | m :: ns' =>
      if bool_decide (m = n) then g
      else when_visited top_k n ns' (prune_node top_k g m)
  end.

(** The three composite trips of the specification for a pair of
    requests. *)
Definition rr_orderings (r1 r2 : request) : list (list stop) :=
  [ [pick r1; drop_off r1; pick r2; drop_off r2];
    [pick r1; pick r2; drop_off r2; drop_off r1];
    [pick r1; pick r2; drop_off r1; drop_off r2] ].

(** One of them, run by an empty vehicle that starts at the origin of [r1]
    at [current_time], reaches every stop by the deadline of that stop. *)
Definition rr_feasible (graph : graph) (max_delay current_time : Z)
    (r1 r2 : request) : Prop :=
  exists seq, seq ∈ rr_orderings r1 r2 /\
              on_time graph max_delay current_time (o_r r1) seq.

(** ** Scenarios for [generate_rv_graph] *)

Module RvScenario.

(** Nodes on a line; the travel time is the distance. *)
Definition line : graph := fun u v => Some (Z.abs (u - v)).

(** Four requests with generous deadlines, picked up at 21, 11, 0, 23. *)
Definition lax (i : string) (o : node) : request :=
  Request i o (o + 1) 1000 1.
Definition four : list request :=
  [lax "r1" 21; lax "r2" 11; lax "r3" 0; lax "r4" 23].

(** Two requests placed at time 0, with omega = 12 and max_delay = 10. *)
Definition a1 : request := Request "r1" 0 5 12 5.
Definition a2 : request := Request "r2" 10 12 12 2.

(** Two requests, max_delay = 5. *)
Definition b1 : request := Request "r1" 5 15 20 10.
Definition b2 : request := Request "r2" 2 0 35 17.

End RvScenario.

(** ** The greedy seeder *)

(** What the specification says of an RTV graph, as far as the seeder reads
    it: a trip has at least one request, its request neighbours are its
    members, every vehicle-trip edge carries a cost, and names are not
    empty. *)
Record rtv_wf (g : rtv_graph) (vehicles : list vehicle) : Prop := RtvWf {
  wf_members : forall t,
    type_of g t = trip_t ->
    requests_of g t
    = list_to_set (filter (fun n => type_of g n = request_t) (neighbors g t));
  wf_nonempty : forall t, type_of g t = trip_t -> requests_of g t <> ∅;
  wf_weight : forall v t,
    v ∈ vehicles -> t ∈ neighbors g (v_id v) -> type_of g t = trip_t ->
    is_Some (edge_travel_time g (v_id v) t);
  wf_names : forall v t,
    v ∈ vehicles -> t ∈ neighbors g (v_id v) -> v_id v <> "" /\ t <> ""
}.

(** [cost(T, v) / |T|] *)
Definition ratio (g : rtv_graph) (v t : string) : Q :=
  match edge_travel_time g v t with
  | Some c => inject_Z c / inject_Z (Z.of_nat (size (requests_of g t)))
  | None => 0
  end.

(** [cost(T, v) / |T|] in double precision: the double nearest to the
    quotient. *)
Definition double_ratio (g : rtv_graph) (v t : string) : Q :=
  match edge_travel_time g v t with
  | Some c => double_quotient c (Z.of_nat (size (requests_of g t)))
  | None => 0
  end.

(** The costs are far from the largest double. *)
Definition in_double_range (g : rtv_graph) : Prop :=
  forall v t c, edge_travel_time g v t = Some c -> Z.abs c < 2 ^ 1023.

(** The state in which the procedure starts: nothing assigned, every
    vehicle of the fleet in the pool, no request served. *)
Definition nothing_assigned (vehicles : list vehicle) : state :=
  State ∅ (list_to_set (map v_id vehicles)) ∅.

Section GreedySpec.

Variable g : rtv_graph.

(** The relative cost by which pairs are compared. *)
Variable ratio : string -> string -> Q.

(** A pair that may still be chosen: the vehicle is unassigned, the trip is
    one of its trips, and none of the requests of the trip is served. *)
Definition eligible (st : state) (v t : string) : Prop :=
  v ∈ unassigned_vehicles st /\ t ∈ neighbors g v /\
  type_of g t = trip_t /\ requests_of g t ∩ assigned_requests st = ∅.

Definition cheapest (st : state) (v t : string) : Prop :=
  eligible st v t /\
  forall v' t', eligible st v' t' -> (ratio v t <= ratio v' t')%Q.

(** Assign the pair, mark the requests of the trip served, remove the
    vehicle. *)
Definition assign (st : state) (v t : string) : state :=
  State (<[v := t]> (assignment st))
        (unassigned_vehicles st ∖ {[ v ]})
        (assigned_requests st ∪ requests_of g t).

(** The procedure of the specification: pick a cheapest eligible pair and
    assign it, until no eligible pair is left. *)
Inductive greedy_run : state -> gmap string string -> Prop :=
  | greedy_stop st :
      (forall v t, ~ eligible st v t) -> greedy_run st (assignment st)
  | greedy_pick st v t a :
      cheapest st v t -> greedy_run (assign st v t) a -> greedy_run st a.

End GreedySpec.

(** ** The integer program *)

(** The value of a linear expression, and what it is for a constraint to
    hold, under values [x] of the variables. *)
Definition value (x : var -> Q) (e : linexpr) : Q :=
  foldr (fun term acc => term.1 * x term.2 + acc)%Q 0%Q e.

Definition holds (x : var -> Q) (c : constr) : Prop :=
  match c_sense c with
  | LessEqual => (value x (c_lhs c) <= c_rhs c)%Q
  | Equal => (value x (c_lhs c) == c_rhs c)%Q
  end.

Definition sum_over {A} (f : A -> Q) (l : list A) : Q :=
  foldr (fun a acc => f a + acc)%Q 0%Q l.

Definition binary (q : Q) : Prop := (q == 0 \/ q == 1)%Q.

(** The T-V edges of the RTV graph. *)
Definition tv_edge (g : rtv_graph) (T v : string) : Prop :=
  T ∈ rtv_nodes g /\ type_of g T = trip_t /\
  v ∈ neighbors g T /\ type_of g v = vehicle_t.

(** [cost(T, v)] *)
Definition edge_cost (g : rtv_graph) (k : string * string) : Q :=
  match edge_travel_time g k.1 k.2 with
  | Some c => inject_Z c
  | None => 0
  end.

(** What a model says of values [x] of its variables: the values that the
    type of a variable allows, the points of the model (allowed values
    that satisfy every constraint) and its optima (points whose objective
    is, in the sense of the model, no worse than that of any point). *)
Definition allows (t : vtype) (q : Q) : Prop :=
  match t with
  | BINARY => binary q
  | INTEGER => exists z, (q == inject_Z z)%Q
  | CONTINUOUS => True
  end.

Definition feasible (m : model) (x : var -> Q) : Prop :=
  (forall y t, (y, t) ∈ variables m -> allows t (x y)) /\
  Forall (holds x) (constraints m).

Definition no_worse (s : objective_sense) (a b : Q) : Prop :=
  match s with
  | MINIMIZE => (a <= b)%Q
  | MAXIMIZE => (b <= a)%Q
  end.

Definition optimal (m : model) (x : var -> Q) : Prop :=
  feasible m x /\
  forall x', feasible m x' ->
    no_worse (model_sense m) (value x (objective m))
             (value x' (objective m)).

(** The program of the specification, over an enumeration [E] of the T-V
    edges: binary values, at most one trip for a vehicle, one trip or the
    mark "unserved" for a request; the objective; and what it is to
    minimize it. *)
Section Program.

Variable g : rtv_graph.
Variable vehicles : list vehicle.
Variable requests : list request.
Variable cost_penalty : Q.
Variable E : list (string * string).

Definition program_point (x : var -> Q) : Prop :=
  (forall k, k ∈ E -> binary (x (eps k))) /\
  (forall r, r ∈ requests -> binary (x (chi (r_id r)))) /\
  (forall w, w ∈ vehicles ->
     (sum_over (fun k => x (eps k)) (filter (fun k => k.2 = v_id w) E)
      <= 1)%Q) /\
  (forall r, r ∈ requests ->
     (sum_over (fun k => x (eps k))
               (filter (fun k => r_id r ∈ requests_of g k.1) E)
      + x (chi (r_id r)) == 1)%Q).

Definition program_objective (x : var -> Q) : Q :=
  (sum_over (fun k => edge_cost g k * x (eps k)) E
   + cost_penalty * sum_over (fun r => x (chi (r_id r))) requests)%Q.

Definition program_minimum (x : var -> Q) : Prop :=
  program_point x /\
  forall x', program_point x' ->
    (program_objective x <= program_objective x')%Q.

End Program.

(** ** Scenarios for [travel] *)

Module Scenario.

Definition A : node := 0.
Definition B : node := 1.
Definition C : node := 2.

(** [link a b w u v]: the shortest path between [a] and [b], of travel time
    [w], when [u] and [v] are these two nodes. *)
Definition link (a b : node) (w : Z) (u v : node) : option Z :=
  if bool_decide ((u = a /\ v = b) \/ (u = b /\ v = a)) then Some w else None.

(** Two nodes, A-B = 60. *)
Definition line : graph := fun u v =>
  if bool_decide (u = v) then Some 0 else link A B 60 u v.

(** The triangle A-B = 60, B-C = 60, A-C = 90. *)
Definition triangle : graph := fun u v =>
  if bool_decide (u = v) then Some 0
  else link A B 60 u v ∪ link B C 60 u v ∪ link A C 90 u v.

Definition r0 : request := Request "r_p1" A B (-30) 60.
Definition r1 : request := Request "r1" B C 500 60.
Definition q1 : request := Request "r1" A B 120 60.
Definition q2 : request := Request "r2" A C 300 90.

Definition empty_at_A : vehicle := Vehicle "v1" A 0 0 [].
Definition carrying_r0 : vehicle := Vehicle "v1" A 0 1 [r0].

(** A vehicle of capacity 2 that carries one passenger to C; a new request
    from A to B that must be picked up within 100 seconds ([n1]) or within
    1000 seconds ([n2]). *)
Definition p0 : request := Request "r_p1" A C (-30) 90.
Definition n1 : request := Request "r1" A B 100 60.
Definition n2 : request := Request "r2" A B 1000 60.
Definition one_seat_left : vehicle := Vehicle "v1" A 0 1 [p0].

End Scenario.

(** ** A scenario for the assignment *)

Module RtvScenario.

(** Two vehicles, two requests, the trips {r1}, {r2} and {r1, r2}:
    v1 can serve {r1} for 60 and {r1, r2} for 100, v2 can serve {r2}
    for 30. *)
Definition trips : list string := ["tA"; "tB"; "tAB"].

Definition type_of (n : string) : node_type :=
  if bool_decide (n ∈ trips) then trip_t
  else if bool_decide (n ∈ ["v1"; "v2"]) then vehicle_t
  else request_t.

Definition requests_of (n : string) : gset string :=
  if bool_decide (n = "tA") then {[ "r1" ]}
  else if bool_decide (n = "tB") then {[ "r2" ]}
  else if bool_decide (n = "tAB") then {[ "r1"; "r2" ]}
  else ∅.

Definition neighbors (n : string) : list string :=
  if bool_decide (n = "v1") then ["tA"; "tAB"]
  else if bool_decide (n = "v2") then ["tB"]
  else if bool_decide (n = "tA") then ["r1"; "v1"]
  else if bool_decide (n = "tB") then ["r2"; "v2"]
  else if bool_decide (n = "tAB") then ["r1"; "r2"; "v1"]
  else if bool_decide (n = "r1") then ["tA"; "tAB"]
  else if bool_decide (n = "r2") then ["tB"; "tAB"]
  else [].

Definition weight (u v : string) : option Z :=
  if bool_decide (u = "v1" /\ v = "tA") then Some 60
  else if bool_decide (u = "v1" /\ v = "tAB") then Some 100
  else if bool_decide (u = "v2" /\ v = "tB") then Some 30
  else None.

Definition edge_travel_time (u v : string) : option Z :=
  match weight u v with Some c => Some c | None => weight v u end.

Definition rtv : rtv_graph :=
  RTV ["r1"; "r2"; "v1"; "v2"; "tA"; "tB"; "tAB"]
      type_of requests_of neighbors edge_travel_time.

Definition fleet : list vehicle :=
  [Vehicle "v1" 0 0 0 []; Vehicle "v2" 2 0 0 []].

Definition batch : list request :=
  [Request "r1" 0 1 600 60; Request "r2" 2 0 600 30].

End RtvScenario.

(** ** A scenario for the division of the seeder *)

Module RoundingScenario.

(** One vehicle and two trips of one request each, at costs 2^53 + 1 and
    2^53. *)
Definition type_of (n : string) : node_type :=
  if bool_decide (n ∈ ["t1"; "t2"]) then trip_t
  else if bool_decide (n = "v1") then vehicle_t
  else request_t.

Definition requests_of (n : string) : gset string :=
  if bool_decide (n = "t1") then {[ "r1" ]}
  else if bool_decide (n = "t2") then {[ "r2" ]}
  else ∅.

Definition neighbors (n : string) : list string :=
  if bool_decide (n = "v1") then ["t1"; "t2"]
  else if bool_decide (n = "t1") then ["r1"; "v1"]
  else if bool_decide (n = "t2") then ["r2"; "v1"]
  else if bool_decide (n = "r1") then ["t1"]
  else if bool_decide (n = "r2") then ["t2"]
  else [].

Definition edge_travel_time (u v : string) : option Z :=
  if bool_decide (u = "v1" /\ v = "t1" \/ u = "t1" /\ v = "v1")
  then Some (2 ^ 53 + 1)
  else if bool_decide (u = "v1" /\ v = "t2" \/ u = "t2" /\ v = "v1")
  then Some (2 ^ 53)
  else None.

Definition rtv : rtv_graph :=
  RTV ["r1"; "r2"; "v1"; "t1"; "t2"]
      type_of requests_of neighbors edge_travel_time.

Definition fleet : list vehicle := [Vehicle "v1" 0 0 0 []].

End RoundingScenario.

(** * Properties *)


(** ** [itertools.permutations] enumerates exactly the rearrangements *)

Section Permutations.

Context {A : Type}.
Implicit Types (l p : list A) (x : A).

Lemma elem_of_selections x r l :
  (x, r) ∈ selections l <-> exists l1 l2, l = l1 ++ x :: l2 /\ r = l1 ++ l2.
Proof.
  revert x r. induction l as [|y l IH]; intros x r; simpl.
  - split; [by intros ?%elem_of_nil|].
    intros (l1 & l2 & E & _). by destruct l1.
  - rewrite elem_of_cons, list_elem_of_fmap. split.
    + intros [E | ([z t] & E & Hin)].
      * inversion E; subst. by exists [], l.
      * simpl in E. inversion E; subst.
        apply IH in Hin as (l1 & l2 & -> & ->).
        by exists (y :: l1), l2.
    + intros (l1 & l2 & E & ->). destruct l1 as [|z l1]; simpl in *.
      * inversion E; subst. by left.
      * inversion E; subst. right. exists (x, l1 ++ l2). split; [done|].
        apply IH. eauto.
Qed.

Lemma elem_of_permutations_n n l p :
  length l = n -> p ∈ permutations_n n l <-> p ≡ₚ l.
Proof.
  revert l p. induction n as [|n IH]; intros l p Hlen; simpl.
  - apply nil_length_inv in Hlen as ->. rewrite list_elem_of_singleton.
    split; [by intros ->|]. intros H. by apply Permutation_nil_r in H.
  - rewrite list_elem_of_In, in_flat_map. split.
    + intros ([x r] & Hsel & Hp). simpl in Hp.
      apply list_elem_of_In in Hsel, Hp.
      apply elem_of_selections in Hsel as (l1 & l2 & -> & ->).
      apply list_elem_of_fmap in Hp as (q & -> & Hq).
      apply IH in Hq.
      * rewrite Hq. apply Permutation_middle.
      * rewrite length_app in *. simpl in Hlen. lia.
    + intros Hp. destruct p as [|x q].
      { apply Permutation_nil_l in Hp. by subst. }
      assert (x ∈ l) as Hx by (rewrite <- Hp; left).
      apply list_elem_of_split in Hx as (l1 & l2 & ->).
      exists (x, l1 ++ l2). split.
      * apply list_elem_of_In, elem_of_selections. eauto.
      * simpl. apply list_elem_of_In, list_elem_of_fmap. exists q.
        split; [done|].
        apply IH.
        -- rewrite length_app in *. simpl in Hlen. lia.
        -- by apply Permutation_cons_app_inv in Hp.
Qed.

Lemma elem_of_permutations l p : p ∈ permutations l <-> p ≡ₚ l.
Proof. by apply elem_of_permutations_n. Qed.

End Permutations.

(** ** The search of [travel] returns a cheapest order among those that it
    accepts *)

Section Search.

Variable vehicle : vehicle.
Variable new_requests : list request.
Variable graph : graph.
Variable max_capacity : Z.
Variable max_delay : Z.

Local Abbreviation stops :=
  (RoadNetwork.stops vehicle new_requests) (only parsing).
Local Abbreviation is_valid_permutation :=
  (is_valid_permutation vehicle new_requests max_capacity) (only parsing).
Local Abbreviation walk0 p :=
  (walk graph max_delay p (t_v vehicle) (q_v vehicle) 0) (only parsing).
Local Abbreviation consider :=
  (consider vehicle graph max_delay) (only parsing).
Local Abbreviation travel :=
  (travel vehicle new_requests graph max_capacity max_delay) (only parsing).

(** [accepted p c]: the order [p] passes the filter and the walk, with total
    cost [c]. *)
Definition accepted (p : list stop) (c : Z) : Prop :=
  p ≡ₚ stops /\ is_valid_permutation p = true /\ walk0 p = Some c.

(** The state of the outer loop after the orders [L] have been tried. *)
Definition best_of (L : list (list stop)) (b : option (list stop) * cost)
    : Prop :=
  match b with
  | (None, Inf) => forall p, p ∈ L -> walk0 p = None
  | (Some p, Fin c) =>
      p ∈ L /\ walk0 p = Some c /\
      forall q c', q ∈ L -> walk0 q = Some c' -> c <= c'
  | _ => False
  end.

Lemma consider_best_of L b p :
  best_of L b -> best_of (L ++ [p]) (consider b p).
Proof.
  unfold RoadNetwork.consider. destruct b as [[q|] [c|]]; simpl; try done.
  - intros (Hq & Hw & Hmin). destruct (walk0 p) as [z|] eqn:Hp.
    + destruct (z <? c) eqn:Hlt; simpl.
      * apply Z.ltb_lt in Hlt. split_and!; [set_solver|done|].
        intros q' c' [Hin | ->%list_elem_of_singleton]%elem_of_app Hw'.
        -- specialize (Hmin _ _ Hin Hw'). lia.
        -- rewrite Hp in Hw'. inversion Hw'. lia.
      * apply Z.ltb_ge in Hlt. split_and!; [set_solver|done|].
        intros q' c' [Hin | ->%list_elem_of_singleton]%elem_of_app Hw'.
        -- eauto.
        -- rewrite Hp in Hw'. inversion Hw'. lia.
    + split_and!; [set_solver|done|].
      intros q' c' [Hin | ->%list_elem_of_singleton]%elem_of_app Hw'.
      * eauto.
      * congruence.
  - intros Hnone. destruct (walk0 p) as [z|] eqn:Hp; simpl.
    + split_and!; [set_solver|done|].
      intros q' c' [Hin | ->%list_elem_of_singleton]%elem_of_app Hw'.
      * rewrite (Hnone _ Hin) in Hw'. done.
      * rewrite Hp in Hw'. inversion Hw'. lia.
    + intros q' [Hin | ->%list_elem_of_singleton]%elem_of_app; eauto.
Qed.

Lemma fold_consider_best_of L :
  best_of L (fold_left consider L (None, Inf)).
Proof.
  induction L as [|p L IH] using rev_ind.
  - simpl. by intros p ?%elem_of_nil.
  - rewrite fold_left_app. simpl. by apply consider_best_of.
Qed.

Lemma elem_of_candidates p :
  p ∈ filter (fun p => is_valid_permutation p = true) (permutations stops)
  <-> p ≡ₚ stops /\ is_valid_permutation p = true.
Proof. rewrite list_elem_of_filter, elem_of_permutations. tauto. Qed.

Lemma search_best_of :
  best_of (filter (fun p => is_valid_permutation p = true)
                  (permutations stops))
          (search vehicle new_requests graph max_capacity max_delay).
Proof. apply fold_consider_best_of. Qed.

(** A returned stop sequence was accepted, and no accepted order is
    cheaper. *)
Lemma travel_returns_accepted p c :
  travel = (Some (Stops p), c) ->
  exists z, c = Fin z /\ accepted p z /\
            forall q z', accepted q z' -> z <= z'.
Proof.
  unfold RoadNetwork.travel. pose proof search_best_of as Hb.
  destruct new_requests as [|r rs] eqn:HN.
  { destruct (trip_set vehicle); intros; simplify_eq. }
  rewrite <- HN in *.
  destruct (search _ _ _ _ _) as [[[|s l]|] [z|]]; simpl in Hb;
    intros; simplify_eq; try done.
  destruct Hb as (Hin & Hw & Hmin). apply elem_of_candidates in Hin as [??].
  exists z. split_and!; try done.
  intros q z' (? & ? & ?). eapply Hmin; [|done].
  by apply elem_of_candidates.
Qed.

Lemma stops_nonempty : new_requests <> [] -> stops <> [].
Proof.
  unfold RoadNetwork.stops. destruct new_requests; [done|].
  intros _ H. apply (f_equal length) in H.
  rewrite !length_app, !length_map in H. simpl in H. lia.
Qed.

(** With new requests to place, [travel] answers INFEASIBLE exactly when it
    accepts no order. *)
Lemma travel_infeasible_iff :
  new_requests <> [] ->
  travel = (None, Inf) <-> forall q z, ~ accepted q z.
Proof.
  intros HN. unfold RoadNetwork.travel. pose proof search_best_of as Hb.
  destruct new_requests as [|r rs] eqn:E; [done|]. rewrite <- E in *.
  destruct (search _ _ _ _ _) as [[[|s l]|] [z|]]; simpl in Hb; try done.
  - destruct Hb as (Hin & _). apply elem_of_candidates in Hin as [Hp _].
    apply Permutation_nil_l in Hp. by apply stops_nonempty in HN.
  - split; [done|]. intros Hno. destruct Hb as (Hin & Hw & _).
    apply elem_of_candidates in Hin as [??]. by destruct (Hno (s :: l) z).
  - split; [|done]. intros _ q z (? & ? & Hw).
    rewrite Hb in Hw; [done|]. by apply elem_of_candidates.
Qed.

Lemma travel_total :
  new_requests <> [] ->
  travel = (None, Inf) \/
  exists p z, travel = (Some (Stops p), Fin z).
Proof.
  intros HN. unfold RoadNetwork.travel. pose proof search_best_of as Hb.
  destruct new_requests as [|r rs] eqn:E; [done|]. rewrite <- E in *.
  destruct (search _ _ _ _ _) as [[[|s l]|] [z|]]; simpl in Hb; eauto.
  done.
Qed.

End Search.

Section WalkFacts.

Variable graph : graph.
Variable max_delay : Z.

Lemma walk_cons s rest t q acc c :
  walk graph max_delay (s :: rest) t q acc = Some c <->
  exists d, graph q (s_node s) = Some d /\ t + d <= deadline max_delay s /\
            walk graph max_delay rest (t + d) (s_node s) (acc + d) = Some c.
Proof.
  simpl. destruct (graph q (s_node s)) as [d|];
    [|split; [done|by intros (? & [=] & _)]].
  unfold deadline, is_pickup, is_dropoff.
  destruct (s_type s); simpl.
  - destruct (Z.gtb_spec (t + d) (t_r_pl (s_request s))).
    + split; [done|]. intros (? & ? & ? & ?). simplify_eq. lia.
    + split; [eauto|]. intros (? & ? & ? & ?). by simplify_eq.
  - destruct (Z.gtb_spec (t + d) (t_r_star (s_request s) + max_delay)).
    + split; [done|]. intros (? & ? & ? & ?). simplify_eq. lia.
    + split; [eauto|]. intros (? & ? & ? & ?). by simplify_eq.
Qed.

(** The walk succeeds exactly when every stop is reached by its deadline,
    and its result is the travel time of the route. *)
Lemma walk_iff p t q acc c :
  walk graph max_delay p t q acc = Some c <->
  on_time graph max_delay t q p /\
  exists total, path_time graph q (map s_node p) = Some total /\
                c = acc + total.
Proof.
  revert t q acc. induction p as [|s p IH]; intros t q acc.
  - simpl. split.
    + intros [= <-]. split; [by intros ???|]. exists 0. split; [done|lia].
    + intros (_ & total & [= <-] & ->). f_equal. lia.
  - rewrite walk_cons. split.
    + intros (d & Hd & Hle & Hw). apply IH in Hw as (Hon & total & Hp & ->).
      split.
      * intros [|i] s' Hs'; simpl in Hs'.
        -- simplify_eq. exists (t + d). split; [|done].
           unfold arrival. simpl. rewrite Hd. simpl. f_equal. lia.
        -- destruct (Hon i s' Hs') as (a & Ha & Hle').
           exists a. split; [|done]. unfold arrival in *.
           change (take (S (S i)) (s :: p)) with (s :: take (S i) p).
           simpl map. simpl path_time. rewrite Hd. simpl.
           destruct (path_time graph (s_node s) (map s_node (take (S i) p)));
             simpl in *; [|done]. simplify_eq. f_equal. lia.
      * exists (d + total). simpl. rewrite Hd. simpl. rewrite Hp. simpl.
        split; [done|lia].
    + intros (Hon & total & Hp & ->). simpl in Hp.
      destruct (graph q (s_node s)) as [d|] eqn:Hd; simpl in Hp; [|done].
      destruct (path_time graph (s_node s) (map s_node p)) as [t'|] eqn:Hp';
        simpl in Hp; [|done]. simplify_eq.
      exists d. split; [done|]. split.
      * destruct (Hon 0%nat s eq_refl) as (a & Ha & Hle).
        unfold arrival in Ha. simpl in Ha. rewrite Hd in Ha. simpl in Ha.
        simplify_eq. lia.
      * apply IH. split.
        -- intros i s' Hs'. destruct (Hon (S i) s' Hs') as (a & Ha & Hle).
           exists a. split; [|done]. unfold arrival in *.
           change (take (S (S i)) (s :: p)) with (s :: take (S i) p) in Ha.
           simpl map in Ha. simpl path_time in Ha. rewrite Hd in Ha.
           simpl in Ha.
           destruct (path_time graph (s_node s) (map s_node (take (S i) p)));
             simpl in *; [|done]. simplify_eq. f_equal. lia.
        -- exists t'. split; [done|lia].
Qed.

End WalkFacts.

(** ** What the filter [is_valid_permutation] enforces *)

Definition pickup_ids (l : list stop) : gset string :=
  list_to_set (map (fun s => r_id (s_request s))
                   (filter (fun s => s_type s = pickup) l)).

Section Counting.

Implicit Types (l : list stop) (s : stop).

Lemma pickups_in_nil : pickups_in [] = 0.
Proof. done. Qed.

Lemma dropoffs_in_nil : dropoffs_in [] = 0.
Proof. done. Qed.

Lemma pickups_in_cons s l :
  pickups_in (s :: l) =
  (match s_type s with pickup => 1 | dropoff => 0 end) + pickups_in l.
Proof.
  unfold pickups_in, len. rewrite filter_cons.
  destruct (s_type s); case_decide; try done. simpl length. lia.
Qed.

Lemma dropoffs_in_cons s l :
  dropoffs_in (s :: l) =
  (match s_type s with pickup => 0 | dropoff => 1 end) + dropoffs_in l.
Proof.
  unfold dropoffs_in, len. rewrite filter_cons.
  destruct (s_type s); case_decide; try done. simpl length. lia.
Qed.

Lemma pickups_in_app l1 l2 :
  pickups_in (l1 ++ l2) = pickups_in l1 + pickups_in l2.
Proof.
  unfold pickups_in, len. rewrite filter_app, length_app. lia.
Qed.

Lemma dropoffs_in_app l1 l2 :
  dropoffs_in (l1 ++ l2) = dropoffs_in l1 + dropoffs_in l2.
Proof.
  unfold dropoffs_in, len. rewrite filter_app, length_app. lia.
Qed.

Lemma pickups_in_nonneg l : 0 <= pickups_in l.
Proof. unfold pickups_in, len. lia. Qed.

Lemma dropoffs_in_nonneg l : 0 <= dropoffs_in l.
Proof. unfold dropoffs_in, len. lia. Qed.

Lemma pickup_ids_cons s l :
  pickup_ids (s :: l) =
  match s_type s with
  | pickup => {[ r_id (s_request s) ]} ∪ pickup_ids l
  | dropoff => pickup_ids l
  end.
Proof.
  unfold pickup_ids. rewrite filter_cons.
  destruct (s_type s); case_decide; done.
Qed.

End Counting.

Create Rewrite HintDb counts.

#[local] Hint Rewrite pickups_in_nil dropoffs_in_nil pickups_in_cons
  dropoffs_in_cons pickups_in_app dropoffs_in_app : counts.

Section Validity.

Variable vehicle : vehicle.
Variable new_requests : list request.
Variable max_capacity : Z.

Local Abbreviation valid_empty := (valid_empty max_capacity).
Local Abbreviation valid_onboard :=
  (valid_onboard vehicle new_requests max_capacity).
Local Abbreviation min_dropoffs :=
  (min_dropoffs_before_new_pickups vehicle new_requests max_capacity).

(** What a stop must satisfy, after the stops [pre], for the loop of the
    empty vehicle to go on. *)
Definition step_empty (seen : gset string) (d p : Z) (pre : list stop)
    (s : stop) : Prop :=
  match s_type s with
  | dropoff => r_id (s_request s) ∈ seen ∪ pickup_ids pre
  | pickup => p + pickups_in pre + 1 <= d + dropoffs_in pre + max_capacity
  end.

Lemma valid_empty_iff l seen d p :
  valid_empty l seen d p = true <->
  forall pre s post, l = pre ++ s :: post -> step_empty seen d p pre s.
Proof.
  revert seen d p. induction l as [|a l IH]; intros seen d p.
  - split; [|done]. intros _ [|??] ?? [=].
  - simpl. destruct (s_type a) eqn:Ha.
    + destruct (Z.gtb_spec (p + 1) (d + max_capacity)) as [Hgt|Hle].
      * split; [done|]. intros H. specialize (H [] a l eq_refl).
        unfold step_empty in H. rewrite Ha in H.
        autorewrite with counts in H. lia.
      * rewrite IH. split.
        -- intros H [|b pre] s post E; simplify_eq/=.
           ++ unfold step_empty. rewrite Ha. autorewrite with counts. lia.
           ++ specialize (H pre s post eq_refl). unfold step_empty in *.
              rewrite pickup_ids_cons, Ha. autorewrite with counts.
              rewrite Ha. destruct (s_type s); [lia|set_solver].
        -- intros H pre s post ->. specialize (H (a :: pre) s post eq_refl).
           unfold step_empty in *.
           rewrite pickup_ids_cons, Ha in H. autorewrite with counts in H.
           rewrite Ha in H. destruct (s_type s); [lia|set_solver].
    + case_bool_decide as Hin; simpl.
      * rewrite IH. split.
        -- intros H [|b pre] s post E; simplify_eq/=.
           ++ unfold step_empty. rewrite Ha. set_solver.
           ++ specialize (H pre s post eq_refl). unfold step_empty in *.
              rewrite pickup_ids_cons, Ha. autorewrite with counts.
              rewrite Ha. destruct (s_type s); [lia|set_solver].
        -- intros H pre s post ->. specialize (H (a :: pre) s post eq_refl).
           unfold step_empty in *.
           rewrite pickup_ids_cons, Ha in H. autorewrite with counts in H.
           rewrite Ha in H. destruct (s_type s); [lia|set_solver].
      * split; [done|]. intros H. specialize (H [] a l eq_refl).
        unfold step_empty in H. rewrite Ha in H. set_solver.
Qed.

(** The same for the loop of a vehicle that carries passengers. *)
Definition step_onboard (seen : gset string) (d p : Z) (pre : list stop)
    (s : stop) : Prop :=
  match s_type s with
  | dropoff => r_id (s_request s) ∈ seen ∪ pickup_ids pre
  | pickup =>
      min_dropoffs <= d + dropoffs_in pre /\
      p + pickups_in pre + 1 <=
        d + dropoffs_in pre + len (trip_set vehicle)
  end.

Lemma valid_onboard_iff l seen d p :
  valid_onboard l seen d p = true <->
  forall pre s post, l = pre ++ s :: post -> step_onboard seen d p pre s.
Proof.
  revert seen d p. induction l as [|a l IH]; intros seen d p.
  - split; [|done]. intros _ [|??] ?? [=].
  - simpl. destruct (s_type a) eqn:Ha.
    + destruct (Z.ltb_spec d min_dropoffs) as [Hlt|Hge].
      { split; [done|]. intros H. specialize (H [] a l eq_refl).
        unfold step_onboard in H. rewrite Ha in H.
        autorewrite with counts in H. lia. }
      destruct (Z.gtb_spec (p + 1) (d + len (trip_set vehicle)))
        as [Hgt|Hle].
      * split; [done|]. intros H. specialize (H [] a l eq_refl).
        unfold step_onboard in H. rewrite Ha in H.
        autorewrite with counts in H. lia.
      * rewrite IH. split.
        -- intros H [|b pre] s post E; simplify_eq/=.
           ++ unfold step_onboard. rewrite Ha. autorewrite with counts. lia.
           ++ specialize (H pre s post eq_refl). unfold step_onboard in *.
              rewrite pickup_ids_cons, Ha. autorewrite with counts.
              rewrite Ha. destruct (s_type s); [lia|set_solver].
        -- intros H pre s post ->. specialize (H (a :: pre) s post eq_refl).
           unfold step_onboard in *.
           rewrite pickup_ids_cons, Ha in H. autorewrite with counts in H.
           rewrite Ha in H. destruct (s_type s); [lia|set_solver].
    + case_bool_decide as Hin; simpl.
      * rewrite IH. split.
        -- intros H [|b pre] s post E; simplify_eq/=.
           ++ unfold step_onboard. rewrite Ha. set_solver.
           ++ specialize (H pre s post eq_refl). unfold step_onboard in *.
              rewrite pickup_ids_cons, Ha. autorewrite with counts.
              rewrite Ha. destruct (s_type s); [lia|set_solver].
        -- intros H pre s post ->. specialize (H (a :: pre) s post eq_refl).
           unfold step_onboard in *.
           rewrite pickup_ids_cons, Ha in H. autorewrite with counts in H.
           rewrite Ha in H. destruct (s_type s); [lia|set_solver].
      * split; [done|]. intros H. specialize (H [] a l eq_refl).
        unfold step_onboard in H. rewrite Ha in H. set_solver.
Qed.

End Validity.

(** ** Stop orders that pass the filter *)

Lemma prefix_balance (seq : list stop) (B : Z) :
  0 <= B ->
  (forall i s, seq !! i = Some s -> s_type s = pickup ->
     pickups_in (take i seq) + 1 <= dropoffs_in (take i seq) + B) ->
  forall k, pickups_in (take k seq) <= dropoffs_in (take k seq) + B.
Proof.
  intros HB Hstep k. induction k as [|k IH].
  - rewrite take_0. autorewrite with counts. lia.
  - destruct (seq !! k) as [s|] eqn:Hs.
    + rewrite (take_S_r _ _ _ Hs). autorewrite with counts.
      specialize (Hstep k s Hs).
      destruct (s_type s); [specialize (Hstep eq_refl)|]; lia.
    + apply lookup_ge_None in Hs.
      rewrite take_ge in IH by lia. rewrite take_ge by lia. done.
Qed.

Lemma NoDup_fmap_eq {X Y} (f : X -> Y) (l : list X) x y :
  NoDup (map f l) -> x ∈ l -> y ∈ l -> f x = f y -> x = y.
Proof.
  intros Hnd (i & Hi)%list_elem_of_lookup (j & Hj)%list_elem_of_lookup Hf.
  assert (i = j) as ->; [|congruence].
  eapply (NoDup_lookup _ _ _ (f x) Hnd).
  - by rewrite list_lookup_fmap, Hi.
  - by rewrite list_lookup_fmap, Hj, Hf.
Qed.

Lemma elem_of_pickup_ids x l :
  x ∈ pickup_ids l <->
  exists s, s ∈ l /\ s_type s = pickup /\ r_id (s_request s) = x.
Proof.
  unfold pickup_ids. rewrite elem_of_list_to_set, list_elem_of_fmap.
  setoid_rewrite list_elem_of_filter. naive_solver.
Qed.

Section Filter.

Variable vehicle : vehicle.
Variable new_requests : list request.
Variable max_capacity : Z.

Local Abbreviation O := (trip_set vehicle).
Local Abbreviation stops := (RoadNetwork.stops vehicle new_requests).
Local Abbreviation is_valid_permutation :=
  (is_valid_permutation vehicle new_requests max_capacity).

Lemma valid_steps_empty seq :
  is_valid_permutation seq = true -> O = [] ->
  forall i s, seq !! i = Some s ->
    step_empty max_capacity ∅ 0 0 (take i seq) s.
Proof.
  intros Hv HO i s Hs.
  unfold RoadNetwork.is_valid_permutation in Hv. rewrite HO in Hv.
  eapply valid_empty_iff; [done|]. symmetry. by apply take_drop_middle.
Qed.

Lemma valid_steps_onboard seq :
  is_valid_permutation seq = true -> O <> [] ->
  forall i s, seq !! i = Some s ->
    step_onboard vehicle new_requests max_capacity
      (list_to_set (map r_id O)) 0 (len O) (take i seq) s.
Proof.
  intros Hv HO i s Hs.
  unfold RoadNetwork.is_valid_permutation in Hv.
  destruct O as [|r0 O'] eqn:E; [done|].
  eapply valid_onboard_iff; [done|]. symmetry. by apply take_drop_middle.
Qed.

(** With passengers on board, an accepted order never has more new pickups
    than drop-offs behind it. *)
Lemma valid_onboard_balance seq k :
  is_valid_permutation seq = true -> O <> [] ->
  pickups_in (take k seq) <= dropoffs_in (take k seq).
Proof.
  intros Hv HO.
  assert (pickups_in (take k seq) <= dropoffs_in (take k seq) + 0) as H.
  { apply prefix_balance; [done|]. intros i s Hs Hp.
    pose proof (valid_steps_onboard _ Hv HO i s Hs) as H.
    unfold step_onboard in H. rewrite Hp in H. lia. }
  lia.
Qed.

Lemma pickup_in_stops s :
  s ∈ stops -> s_type s = pickup ->
  exists r, r ∈ new_requests /\ s = pick r.
Proof.
  unfold RoadNetwork.stops. rewrite !elem_of_app, !list_elem_of_fmap.
  intros [(r & -> & ?) | [(r & -> & ?) | (r & -> & ?)]] Ht; try done.
  by exists r.
Qed.

Lemma dropoff_in_stops s :
  s ∈ stops -> s_type s = dropoff ->
  exists r, r ∈ O ++ new_requests /\ s = drop_off r.
Proof.
  unfold RoadNetwork.stops. rewrite !elem_of_app, !list_elem_of_fmap.
  intros [(r & -> & ?) | [(r & -> & ?) | (r & -> & ?)]] Ht; try done.
  - exists r. split; [|done]. apply elem_of_app. by left.
  - exists r. split; [|done]. apply elem_of_app. by right.
Qed.

Lemma pick_in_stops r : r ∈ new_requests -> pick r ∈ stops.
Proof.
  intros Hr. unfold RoadNetwork.stops.
  rewrite !elem_of_app, !list_elem_of_fmap. right; left. by exists r.
Qed.

Lemma drop_off_in_stops r : r ∈ new_requests -> drop_off r ∈ stops.
Proof.
  intros Hr. unfold RoadNetwork.stops.
  rewrite !elem_of_app, !list_elem_of_fmap. right; right. by exists r.
Qed.

Lemma stops_NoDup :
  NoDup (map r_id (O ++ new_requests)) -> NoDup stops.
Proof.
  intros Hids. apply NoDup_fmap_1 in Hids. apply NoDup_app in Hids
    as (HO & Hdisj & HN).
  unfold RoadNetwork.stops. rewrite !NoDup_app. split_and!.
  - apply NoDup_fmap_2; [|done]. by intros ?? [=].
  - intros s (r & -> & Hr)%list_elem_of_fmap
      [(r' & [=] & ?)%list_elem_of_fmap | (r' & E & Hr')%list_elem_of_fmap]
      %elem_of_app.
    simplify_eq. by eapply Hdisj.
  - apply NoDup_fmap_2; [|done]. by intros ?? [=].
  - intros s (r & -> & Hr)%list_elem_of_fmap
      (r' & [=] & ?)%list_elem_of_fmap.
  - apply NoDup_fmap_2; [|done]. by intros ?? [=].
Qed.

(** Precedence, for requests with distinct ids. *)
Lemma valid_precedence seq r i j :
  NoDup (map r_id (O ++ new_requests)) ->
  seq ≡ₚ stops -> is_valid_permutation seq = true ->
  r ∈ new_requests ->
  seq !! i = Some (pick r) -> seq !! j = Some (drop_off r) -> (i < j)%nat.
Proof.
  intros Hids Hperm Hv Hr Hi Hj.
  assert (r_id r ∈ pickup_ids (take j seq)) as Hseen.
  { assert (r_id r ∉ map r_id O) as Hnot.
    { rewrite map_app in Hids. apply NoDup_app in Hids as (_ & Hd & _).
      intros Hin. apply (Hd _ Hin). apply list_elem_of_fmap. eauto. }
    destruct O as [|o O'] eqn:HO.
    - pose proof (valid_steps_empty _ Hv HO j _ Hj) as H.
      unfold step_empty in H. simpl in H. set_solver.
    - assert (O <> []) as HO' by (by rewrite HO).
      pose proof (valid_steps_onboard _ Hv HO' j _ Hj) as H.
      unfold step_onboard in H. simpl in H. rewrite HO in H.
      apply elem_of_union in H as [H|H]; [|done].
      apply elem_of_list_to_set in H. done. }
  apply elem_of_pickup_ids in Hseen as (s & Hs & Hp & Hid).
  assert (s = pick r) as ->.
  { assert (s ∈ stops) as Hin.
    { rewrite <- Hperm. apply elem_of_take in Hs as (? & ? & _).
      by eapply list_elem_of_lookup_2. }
    destruct (pickup_in_stops _ Hin Hp) as (r' & Hr' & ->).
    f_equal. simpl in Hid. rewrite map_app in Hids.
    apply NoDup_app in Hids as (_ & _ & HN).
    by apply (NoDup_fmap_eq r_id new_requests). }
  apply elem_of_take in Hs as (i' & Hi' & Hlt).
  assert (NoDup seq) as Hnd.
  { rewrite Hperm. by apply stops_NoDup. }
  by rewrite (NoDup_lookup _ _ _ _ Hnd Hi Hi').
Qed.

(** Capacity, when the new requests fit next to the passengers. *)
Lemma valid_capacity seq k :
  len O + len new_requests <= max_capacity ->
  is_valid_permutation seq = true ->
  load (len O) (take k seq) <= max_capacity.
Proof.
  intros Hcap Hv. destruct O as [|o O'] eqn:HO.
  - assert (pickups_in (take k seq)
            <= dropoffs_in (take k seq) + max_capacity) as H.
    { apply prefix_balance; [unfold len in *; simpl in *; lia|].
      intros i s Hs Hp.
      pose proof (valid_steps_empty _ Hv HO i s Hs) as H.
      unfold step_empty in H. rewrite Hp in H. lia. }
    unfold load, len in *. simpl in *. lia.
  - assert (O <> []) as HO' by (by rewrite HO).
    pose proof (valid_onboard_balance _ k Hv HO') as H.
    unfold load, len in *. simpl in *. lia.
Qed.

End Filter.

(** ** The orders accepted for an empty vehicle are those of the
    specification *)

Section Constraints.

Variable vehicle : vehicle.
Variable new_requests : list request.
Variable graph : graph.
Variable max_capacity : Z.
Variable max_delay : Z.

Local Abbreviation spec_feasible :=
  (spec_feasible vehicle new_requests graph max_capacity max_delay).
Local Abbreviation spec_cost := (spec_cost vehicle graph).
Local Abbreviation accepted :=
  (accepted vehicle new_requests graph max_capacity max_delay).

Lemma accepted_cost seq z : accepted seq z -> spec_cost seq = Some z.
Proof.
  intros (_ & _ & Hw). apply walk_iff in Hw as (_ & total & Hp & ->).
  unfold spec_cost. by rewrite Hp.
Qed.

(** For an empty vehicle whose new requests fit and have distinct ids, the
    orders that [travel] accepts are exactly those that the specification
    allows. *)
Lemma accepted_iff_spec_feasible_empty seq z :
  trip_set vehicle = [] ->
  len new_requests <= max_capacity ->
  NoDup (map r_id new_requests) ->
  accepted seq z <-> spec_feasible seq /\ spec_cost seq = Some z.
Proof.
  intros HO Hcap Hids. split.
  - intros Hacc. split; [|by eapply accepted_cost].
    destruct Hacc as (Hperm & Hv & Hw). split; [done|..].
    + intros r i j Hr. eapply valid_precedence; try done.
      by rewrite HO.
    + intros k. apply (valid_capacity vehicle new_requests); [|done].
      rewrite HO.
      unfold len in *. simpl. lia.
    + intros i s Hs Hp. rewrite HO.
      pose proof (dropoffs_in_nonneg (take i seq)).
      unfold len in *. simpl. lia.
    + by apply walk_iff in Hw as [? _].
  - intros [[Hperm Hprec Hload _ Hon] Hcost]. split_and!; [done|..].
    + unfold is_valid_permutation. rewrite HO. apply valid_empty_iff.
      intros pre s post ->. unfold step_empty.
      destruct (s_type s) eqn:Hs.
      * specialize (Hload (S (length pre))).
        replace (take (S (length pre)) (pre ++ s :: post))
          with (pre ++ [s]) in Hload.
        2:{ replace (S (length pre)) with (length pre + 1)%nat by lia.
            by rewrite take_app_add'. }
        unfold load in Hload. rewrite HO in Hload.
        autorewrite with counts in Hload. rewrite Hs in Hload.
        unfold len in Hload. simpl in Hload. lia.
      * assert (s ∈ RoadNetwork.stops vehicle new_requests) as Hin.
        { rewrite <- Hperm. set_solver. }
        apply dropoff_in_stops in Hin as (r & Hr & ->); [|done].
        rewrite HO in Hr. simpl in Hr.
        assert (pick r ∈ pre ++ drop_off r :: post) as Hpick.
        { rewrite Hperm. by apply pick_in_stops. }
        apply list_elem_of_lookup in Hpick as (i & Hi).
        assert ((pre ++ drop_off r :: post) !! length pre
                = Some (drop_off r)) as Hj.
        { by rewrite list_lookup_middle. }
        pose proof (Hprec r i _ Hr Hi Hj) as Hlt.
        rewrite lookup_app_l in Hi by done.
        apply elem_of_union. right. apply elem_of_pickup_ids.
        exists (pick r). split_and!; try done.
        by eapply list_elem_of_lookup_2.
    + apply walk_iff. split; [done|]. exists z. split; [done|lia].
Qed.

End Constraints.

Example travel_single_request :
  travel Scenario.empty_at_A [Scenario.q1] Scenario.line 2 60 =
  (Some (Stops [pick Scenario.q1; drop_off Scenario.q1]), Fin 60).
Proof. vm_compute. reflexivity. Qed.

Example travel_pool_two :
  travel Scenario.empty_at_A [Scenario.q1; Scenario.q2] Scenario.triangle
         2 300 =
  (Some (Stops [pick Scenario.q1; pick Scenario.q2;
                drop_off Scenario.q1; drop_off Scenario.q2]), Fin 120).
Proof. vm_compute. reflexivity. Qed.

Example travel_onboard_dropoff_first :
  travel Scenario.carrying_r0 [Scenario.r1] Scenario.triangle 1 60 =
  (Some (Stops [drop_off Scenario.r0; pick Scenario.r1;
                drop_off Scenario.r1]), Fin 120).
Proof. vm_compute. reflexivity. Qed.

Example travel_one_seat_left :
  travel Scenario.one_seat_left [Scenario.n2] Scenario.triangle 2 300 =
  (Some (Stops [drop_off Scenario.p0; pick Scenario.n2;
                drop_off Scenario.n2]), Fin 240).
Proof. vm_compute. reflexivity. Qed.

(** ** The claims about [travel] *)

(** C7.  Called with no new request, [travel] answers INFEASIBLE, with cost
    [+infinity], when the vehicle carries nobody, and hands back the
    vehicle's own plan, with cost 0, when it carries somebody.  [travel] is a
    total function: neither case raises. *)
Theorem travel_without_new_requests vehicle graph max_capacity max_delay :
  travel vehicle [] graph max_capacity max_delay =
  match trip_set vehicle with
  | [] => (None, Inf)
  | _ :: _ => (Some (Onboard (trip_set vehicle)), Fin 0)
  end.
Proof. unfold travel. by destruct (trip_set vehicle). Qed.

(** C6.  Along a returned stop sequence, simulated from the vehicle's
    position at its clock with shortest-path legs, every pickup is reached
    by [t_pickup_latest] of its request and every drop-off by
    [t_dropoff_earliest + max_delay]. *)
Theorem travel_meets_deadlines vehicle new_requests graph max_capacity
    max_delay seq c :
  travel vehicle new_requests graph max_capacity max_delay
    = (Some (Stops seq), c) ->
  on_time graph max_delay (t_v vehicle) (q_v vehicle) seq.
Proof.
  intros (z & _ & (_ & _ & Hw) & _)%travel_returns_accepted.
  by apply walk_iff in Hw as [? _].
Qed.

Lemma travel_meets_deadlines_witness :
  on_time Scenario.triangle 300 0 Scenario.A
    [pick Scenario.q1; pick Scenario.q2;
     drop_off Scenario.q1; drop_off Scenario.q2].
Proof.
  apply (travel_meets_deadlines Scenario.empty_at_A
           [Scenario.q1; Scenario.q2] Scenario.triangle 2 300 _ (Fin 120)).
  vm_compute. reflexivity.
Defined.

(** C4.  When the vehicle carries passengers, no pickup of a returned stop
    sequence comes before [max(0, |N| - capacity + |O|)] drop-offs. *)
Theorem travel_required_dropoffs_first vehicle new_requests graph
    max_capacity max_delay seq c i s :
  trip_set vehicle <> [] ->
  new_requests <> [] ->
  travel vehicle new_requests graph max_capacity max_delay
    = (Some (Stops seq), c) ->
  seq !! i = Some s ->
  s_type s = pickup ->
  Z.max 0 (len new_requests - max_capacity + len (trip_set vehicle))
    <= dropoffs_in (take i seq).
Proof.
  intros HO _ (z & _ & (_ & Hv & _) & _)%travel_returns_accepted Hs Hp.
  pose proof (valid_steps_onboard _ _ _ _ Hv HO i s Hs) as H.
  unfold step_onboard, min_dropoffs_before_new_pickups in H.
  rewrite Hp in H. lia.
Qed.

Lemma travel_required_dropoffs_first_witness :
  Z.max 0 (len [Scenario.r1] - 1 + len (trip_set Scenario.carrying_r0))
    <= dropoffs_in (take 1 [drop_off Scenario.r0; pick Scenario.r1;
                            drop_off Scenario.r1]).
Proof.
  apply (travel_required_dropoffs_first Scenario.carrying_r0 [Scenario.r1]
           Scenario.triangle 1 60 _ (Fin 120) 1%nat (pick Scenario.r1)).
  - done.
  - done.
  - vm_compute. reflexivity.
  - reflexivity.
  - reflexivity.
Defined.

(** C10.  When the vehicle carries passengers, at every prefix of a returned
    stop sequence the new pickups made so far are at most the drop-offs made
    so far; the load therefore never exceeds [|O|], whatever the
    capacity. *)
Theorem travel_onboard_pickups_after_dropoffs vehicle new_requests graph
    max_capacity max_delay seq c k :
  trip_set vehicle <> [] ->
  travel vehicle new_requests graph max_capacity max_delay
    = (Some (Stops seq), c) ->
  pickups_in (take k seq) <= dropoffs_in (take k seq) /\
  load (len (trip_set vehicle)) (take k seq) <= len (trip_set vehicle).
Proof.
  intros HO (z & _ & (_ & Hv & _) & _)%travel_returns_accepted.
  pose proof (valid_onboard_balance _ _ _ _ k Hv HO).
  unfold load. lia.
Qed.

Lemma travel_onboard_pickups_after_dropoffs_witness :
  pickups_in (take 2 [drop_off Scenario.p0; pick Scenario.n2;
                      drop_off Scenario.n2])
    <= dropoffs_in (take 2 [drop_off Scenario.p0; pick Scenario.n2;
                            drop_off Scenario.n2]) /\
  load (len (trip_set Scenario.one_seat_left))
       (take 2 [drop_off Scenario.p0; pick Scenario.n2;
                drop_off Scenario.n2])
    <= len (trip_set Scenario.one_seat_left).
Proof.
  apply (travel_onboard_pickups_after_dropoffs Scenario.one_seat_left
           [Scenario.n2] Scenario.triangle 2 300 _ (Fin 240) 2%nat).
  - done.
  - vm_compute. reflexivity.
Defined.

(** C5.  If [|O| + |N| <= capacity] (and the ids of the requests are
    distinct, as the data model has them), then in a returned stop sequence
    the pickup of each new request comes strictly before its drop-off, and
    the load after every prefix is at most the capacity. *)
Theorem travel_precedence_and_capacity vehicle new_requests graph
    max_capacity max_delay seq c :
  len (trip_set vehicle) + len new_requests <= max_capacity ->
  NoDup (map r_id (trip_set vehicle ++ new_requests)) ->
  travel vehicle new_requests graph max_capacity max_delay
    = (Some (Stops seq), c) ->
  (forall r, r ∈ new_requests ->
     pick r ∈ seq /\ drop_off r ∈ seq /\
     forall i j, seq !! i = Some (pick r) -> seq !! j = Some (drop_off r) ->
                 (i < j)%nat) /\
  (forall k, load (len (trip_set vehicle)) (take k seq) <= max_capacity).
Proof.
  intros Hcap Hids (z & _ & (Hperm & Hv & _) & _)%travel_returns_accepted.
  split.
  - intros r Hr. split_and!.
    + rewrite Hperm. by apply pick_in_stops.
    + rewrite Hperm. by apply drop_off_in_stops.
    + intros i j. by eapply valid_precedence.
  - intros k. by eapply valid_capacity.
Qed.

Lemma travel_precedence_and_capacity_witness :
  (forall r, r ∈ [Scenario.q1; Scenario.q2] ->
     pick r ∈ [pick Scenario.q1; pick Scenario.q2;
               drop_off Scenario.q1; drop_off Scenario.q2] /\
     drop_off r ∈ [pick Scenario.q1; pick Scenario.q2;
                   drop_off Scenario.q1; drop_off Scenario.q2] /\
     forall i j,
       [pick Scenario.q1; pick Scenario.q2;
        drop_off Scenario.q1; drop_off Scenario.q2] !! i = Some (pick r) ->
       [pick Scenario.q1; pick Scenario.q2;
        drop_off Scenario.q1; drop_off Scenario.q2] !! j
         = Some (drop_off r) ->
       (i < j)%nat) /\
  (forall k,
     load (len (trip_set Scenario.empty_at_A))
          (take k [pick Scenario.q1; pick Scenario.q2;
                   drop_off Scenario.q1; drop_off Scenario.q2]) <= 2).
Proof.
  apply (travel_precedence_and_capacity Scenario.empty_at_A
           [Scenario.q1; Scenario.q2] Scenario.triangle 2 300 _ (Fin 120)).
  - vm_compute. discriminate.
  - apply (bool_decide_unpack _). vm_compute. reflexivity.
  - vm_compute. reflexivity.
Defined.

(** X1.  For an empty vehicle, [travel] is the oracle of the
    specification: it returns a cheapest ordering among those that satisfy
    the constraints, and INFEASIBLE when there is none. *)
Theorem travel_optimal_for_empty_vehicle vehicle new_requests graph
    max_capacity max_delay :
  trip_set vehicle = [] ->
  new_requests <> [] ->
  len new_requests <= max_capacity ->
  NoDup (map r_id new_requests) ->
  (exists seq z,
     travel vehicle new_requests graph max_capacity max_delay
       = (Some (Stops seq), Fin z) /\
     spec_feasible vehicle new_requests graph max_capacity max_delay seq /\
     spec_cost vehicle graph seq = Some z /\
     forall seq' z',
       spec_feasible vehicle new_requests graph max_capacity max_delay seq' ->
       spec_cost vehicle graph seq' = Some z' -> z <= z')
  \/
  (travel vehicle new_requests graph max_capacity max_delay = (None, Inf) /\
   forall seq z,
     spec_feasible vehicle new_requests graph max_capacity max_delay seq ->
     spec_cost vehicle graph seq <> Some z).
Proof.
  intros HO HN Hcap Hids.
  destruct (travel_total vehicle new_requests graph max_capacity max_delay HN)
    as [Hnone | (seq & z & Hsome)].
  - right. split; [done|]. intros seq z Hf Hc.
    eapply travel_infeasible_iff; [done..|].
    by apply accepted_iff_spec_feasible_empty.
  - left. exists seq, z. split; [done|].
    apply travel_returns_accepted in Hsome as (z0 & [= <-] & Hacc & Hmin).
    apply accepted_iff_spec_feasible_empty in Hacc as [??]; try done.
    split_and!; try done. intros seq' z' Hf Hc. apply (Hmin seq').
    by apply accepted_iff_spec_feasible_empty.
Qed.

(** C1, on the code.  A vehicle of capacity 2 carries one passenger and is
    asked to take one more ([|O| + |N| <= capacity]).  Picking the new
    request up at once, then dropping both, satisfies every constraint of the
    specification, at cost 120; [travel] nevertheless answers INFEASIBLE,
    because the filter for a vehicle with passengers refuses any pickup that
    is not preceded by a drop-off. *)
Theorem travel_onboard_misses_feasible_order :
  len (trip_set Scenario.one_seat_left) + len [Scenario.n1] <= 2 /\
  spec_feasible Scenario.one_seat_left [Scenario.n1] Scenario.triangle 2 300
    [pick Scenario.n1; drop_off Scenario.n1; drop_off Scenario.p0] /\
  spec_cost Scenario.one_seat_left Scenario.triangle
    [pick Scenario.n1; drop_off Scenario.n1; drop_off Scenario.p0]
    = Some 120 /\
  travel Scenario.one_seat_left [Scenario.n1] Scenario.triangle 2 300
    = (None, Inf).
Proof.
  split_and!.
  - vm_compute. discriminate.
  - split.
    + apply elem_of_permutations. apply (bool_decide_unpack _).
      vm_compute. reflexivity.
    + intros r i j ->%list_elem_of_singleton Hi Hj.
      destruct i as [|[|[|i]]]; destruct j as [|[|[|j]]];
        simplify_eq/=; lia.
    + intros k. destruct k as [|[|[|k]]]; simpl take; rewrite ?take_nil;
        vm_compute; discriminate.
    + intros i s Hi Hs. destruct i as [|[|[|i]]]; simplify_eq/=.
      vm_compute. discriminate.
    + eapply (walk_iff _ _ _ _ _ 0 120). vm_compute. reflexivity.
  - vm_compute. reflexivity.
  - vm_compute. reflexivity.
Qed.

(** ** The RV graph: edges and their ends *)


(** [same_ends a b]: the two edges join the same pair of nodes. *)
Definition same_ends (a b : edge) : Prop := joins (e_u a) (e_v a) b = true.

(** No two edges of the list join the same pair of nodes. *)
Fixpoint simple (es : list edge) : Prop :=
  match es with
  | [] => True
  | e :: es' => Forall (fun e' => ~ same_ends e e') es' /\ simple es'
  end.

Section Ends.

Implicit Types (a b c e : edge) (u v n : string).

Lemma joins_iff u v e :
  joins u v e = true <->
  (e_u e = u /\ e_v e = v) \/ (e_u e = v /\ e_v e = u).
Proof.
  unfold joins. rewrite orb_true_iff, !bool_decide_eq_true. tauto.
Qed.

Lemma same_ends_iff a b :
  same_ends a b <->
  (e_u b = e_u a /\ e_v b = e_v a) \/ (e_u b = e_v a /\ e_v b = e_u a).
Proof. apply joins_iff. Qed.


Lemma same_ends_sym a b : same_ends a b -> same_ends b a.
Proof. rewrite !same_ends_iff. naive_solver. Qed.

Lemma same_ends_trans a b c : same_ends a b -> same_ends b c -> same_ends a c.
Proof. rewrite !same_ends_iff. naive_solver congruence. Qed.

Lemma joins_same_ends u v a b :
  same_ends a b -> joins u v a = joins u v b.
Proof.
  intros H%same_ends_iff. apply eq_true_iff_eq. rewrite !joins_iff.
  naive_solver congruence.
Qed.

Lemma touches_iff n e : touches n e = true <-> e_u e = n \/ e_v e = n.
Proof.
  unfold touches. by rewrite orb_true_iff, !bool_decide_eq_true.
Qed.

Lemma touches_same_ends n a b :
  same_ends a b -> touches n a = touches n b.
Proof.
  intros H%same_ends_iff. apply eq_true_iff_eq. rewrite !touches_iff.
  naive_solver congruence.
Qed.

Lemma seen_from_same_ends n e :
  touches n e = true -> same_ends e (seen_from n e).
Proof.
  intros H%touches_iff. apply same_ends_iff. unfold seen_from.
  case_bool_decide; simpl; naive_solver.
Qed.

Lemma seen_from_data n e : e_data (seen_from n e) = e_data e.
Proof. unfold seen_from. by case_bool_decide. Qed.

Lemma seen_from_u n e : e_u (seen_from n e) = n.
Proof. unfold seen_from. by case_bool_decide. Qed.

(** Two edges with the same ends and the same attributes look the same
    from a node. *)
Lemma seen_from_eq n a b :
  same_ends a b -> e_data a = e_data b -> touches n a = true ->
  seen_from n a = seen_from n b.
Proof.
  intros H%same_ends_iff Hd Ht%touches_iff. unfold seen_from.
  rewrite Hd. repeat case_bool_decide; f_equal; naive_solver congruence.
Qed.

Lemma elem_of_edges_at g n x :
  x ∈ edges_at g n <->
  exists e, e ∈ edges g /\ touches n e = true /\ x = seen_from n e.
Proof.
  unfold edges_at. rewrite list_elem_of_fmap.
  setoid_rewrite list_elem_of_filter. naive_solver.
Qed.

Lemma simple_elem es a b :
  simple es -> a ∈ es -> b ∈ es -> same_ends a b -> a = b.
Proof.
  induction es as [|e es IH]; simpl; [by intros _ ?%elem_of_nil|].
  intros [Hnot Hs] [->|Ha]%elem_of_cons [->|Hb]%elem_of_cons Hab; try done.
  - rewrite Forall_forall in Hnot. by destruct (Hnot _ Hb).
  - rewrite Forall_forall in Hnot. apply same_ends_sym in Hab.
    by destruct (Hnot _ Ha).
  - by apply IH.
Qed.


End Ends.

(** ** [sorted] is a stable sort by key *)

Section Sorted.

Context {A : Type} (key : A -> cost).









End Sorted.


Lemma filter_none {A} (P : A -> Prop) `{!forall a, Decision (P a)}
    (l : list A) :
  (forall x, x ∈ l -> ~ P x) -> filter P l = [].
Proof.
  induction l as [|x l IH]; [done|]. intros Hall.
  rewrite filter_cons_False by (apply Hall; left). apply IH.
  intros y Hy. apply Hall. by right.
Qed.

Lemma filter_all {A} (P : A -> Prop) `{!forall a, Decision (P a)}
    (l : list A) :
  (forall x, x ∈ l -> P x) -> filter P l = l.
Proof.
  induction l as [|x l IH]; [done|]. intros Hall.
  rewrite filter_cons_True by (apply Hall; left). f_equal. apply IH.
  intros y Hy. apply Hall. by right.
Qed.

(** ** The pruning step only removes edges, and caps the node it visits *)

(** [hit R e]: one of the edges of [R] joins the ends of [e]. *)
Definition hit (R : list edge) (e : edge) : Prop :=
  Exists (fun r => same_ends r e) R.

#[global] Instance same_ends_dec a b : Decision (same_ends a b).
Proof. unfold same_ends. apply _. Defined.

#[global] Instance hit_dec R e : Decision (hit R e).
Proof. unfold hit. apply _. Defined.

(** The edges that [prune_node] removes at a node. *)
Definition removed (top_k : Z) (g : rv_graph) (n : string) : list edge :=
  if len (own_edges g n) >? top_k
  then slice_from top_k
         (sorted (fun e => travel_time (e_data e)) (own_edges g n))
  else [].

Section PruneNode.

Implicit Types (g : rv_graph) (R : list edge) (n m : string) (e x : edge).



Lemma remove_all_edges R g :
  edges (fold_left (fun g e => remove_edge (e_u e) (e_v e) g) R g)
  = filter (fun e => ~ hit R e) (edges g).
Proof.
  revert g. induction R as [|r R IH]; intros g; simpl.
  - symmetry. apply filter_all. intros x _ H. by apply Exists_nil in H.
  - rewrite IH. simpl. rewrite list_filter_filter. apply list_filter_iff.
    intros x. unfold hit. rewrite Exists_cons. unfold same_ends.
    destruct (joins (e_u r) (e_v r) x); naive_solver.
Qed.

Lemma remove_all_nodes R g :
  nodes (fold_left (fun g e => remove_edge (e_u e) (e_v e) g) R g) = nodes g.
Proof.
  revert g. induction R as [|r R IH]; intros g; simpl; [done|].
  by rewrite IH.
Qed.

Lemma prune_node_removed top_k g n :
  prune_node top_k g n
  = fold_left (fun g e => remove_edge (e_u e) (e_v e) g) (removed top_k g n) g.
Proof. unfold prune_node, removed. by destruct (_ >? _). Qed.

Lemma prune_node_edges top_k g n :
  edges (prune_node top_k g n)
  = filter (fun e => ~ hit (removed top_k g n) e) (edges g).
Proof. by rewrite prune_node_removed, remove_all_edges. Qed.

Lemma prune_node_nodes top_k g n : nodes (prune_node top_k g n) = nodes g.
Proof. by rewrite prune_node_removed, remove_all_nodes. Qed.









Lemma prune_fold_nodes top_k ns g :
  nodes (fold_left (prune_node top_k) ns g) = nodes g.
Proof.
  revert g. induction ns as [|n ns IH]; intros g; simpl; [done|].
  by rewrite IH, prune_node_nodes.
Qed.

End PruneNode.

(** ** Graphs made with [add_edge] *)

(** The invariants of a [networkx.Graph]: one edge per pair of nodes, and
    the ends of every edge are nodes. *)
Definition well_formed (g : rv_graph) : Prop :=
  simple (edges g) /\
  forall e, e ∈ edges g -> e_u e ∈ nodes g /\ e_v e ∈ nodes g.

Section AddEdge.

Implicit Types (g : rv_graph) (es : list edge) (u v n x : string)
  (d : attrs) (e a : edge).

Lemma elem_of_add_node x n (ns : list string) :
  x ∈ add_node n ns <-> x = n \/ x ∈ ns.
Proof.
  unfold add_node. case_bool_decide.
  - naive_solver.
  - rewrite elem_of_app, list_elem_of_singleton. tauto.
Qed.

Lemma elem_of_fold_add_node {X} (f : X -> string) (l : list X)
    (ns : list string) x :
  x ∈ fold_left (fun acc y => add_node (f y) acc) l ns
  <-> x ∈ ns \/ x ∈ map f l.
Proof.
  revert ns. induction l as [|y l IH]; intros ns; simpl.
  - rewrite elem_of_nil. tauto.
  - rewrite IH, elem_of_add_node, elem_of_cons. tauto.
Qed.

Lemma update_idem d : update d d = d.
Proof. destruct d as [? [] ?]; done. Qed.

Lemma put_edge_Forall (P : edge -> Prop) u v d es :
  Forall P es -> P (Edge u v d) ->
  (forall e, e ∈ es -> joins u v e = true ->
     P (Edge (e_u e) (e_v e) (update (e_data e) d))) ->
  Forall P (put_edge u v d es).
Proof.
  induction 1 as [|e es He Hes IH]; intros Hnew Hupd; simpl.
  - by repeat constructor.
  - destruct (joins u v e) eqn:Hj.
    + constructor; [|done]. apply Hupd; [left|done].
    + constructor; [done|]. apply IH; [done|].
      intros e' He'. apply Hupd. by right.
Qed.

(** Every edge of the list is still there, with the new attributes if it
    joins [u] and [v]. *)
Lemma put_edge_keeps u v d es e :
  simple es -> e ∈ es ->
  (joins u v e = false /\ e ∈ put_edge u v d es) \/
  (joins u v e = true /\
   Edge (e_u e) (e_v e) (update (e_data e) d) ∈ put_edge u v d es).
Proof.
  induction es as [|e0 es IH]; simpl; [by intros _ ?%elem_of_nil|].
  intros [Hnot Hs] [->|He]%elem_of_cons.
  - destruct (joins u v e0) eqn:Hj; [right|left]; split; try done; left.
  - destruct (joins u v e0) eqn:Hj.
    + left. split; [|by right].
      destruct (joins u v e) eqn:Hj'; [|done]. exfalso.
      rewrite Forall_forall in Hnot. apply (Hnot _ He).
      apply joins_iff in Hj, Hj'. apply same_ends_iff. naive_solver congruence.
    + destruct (IH Hs He) as [[? ?]|[? ?]]; [left|right];
        (split; [done|by right]).
Qed.

(** The edge that was put is there. *)
Lemma put_edge_puts u v d es :
  exists e, e ∈ put_edge u v d es /\ joins u v e = true /\
    (e_data e = d \/
     exists e0, e0 ∈ es /\ joins u v e0 = true /\
                e_data e = update (e_data e0) d).
Proof.
  induction es as [|e0 es IH]; simpl.
  - exists (Edge u v d). split_and!; [left| |by left].
    apply joins_iff. by left.
  - destruct (joins u v e0) eqn:Hj.
    + exists (Edge (e_u e0) (e_v e0) (update (e_data e0) d)).
      split_and!; [left|done|]. right. exists e0. split_and!; [left|done..].
    + destruct IH as (e & He & Hje & Hd). exists e.
      split_and!; [by right|done|].
      destruct Hd as [?|(e1 & ? & ? & ?)]; [by left|right].
      exists e1. split_and!; [by right|done..].
Qed.

Lemma put_edge_simple u v d es : simple es -> simple (put_edge u v d es).
Proof.
  induction es as [|e es IH]; simpl; [done|]. intros [Hnot Hs].
  destruct (joins u v e) eqn:Hj; simpl.
  - split; [|done]. eapply Forall_impl; [done|]. intros e' He' Hse.
    apply He'. apply same_ends_iff in Hse. apply same_ends_iff. done.
  - split; [|by apply IH]. apply put_edge_Forall; [done|..].
    + intros Hse. apply same_ends_iff in Hse. simpl in Hse.
      assert (joins u v e = true); [|congruence].
      apply joins_iff. naive_solver.
    + intros e' He' _ Hse. rewrite Forall_forall in Hnot.
      apply (Hnot _ He'). apply same_ends_iff in Hse.
      apply same_ends_iff. done.
Qed.

Lemma elem_of_nodes_add_edge u v d g x :
  x ∈ nodes (add_edge u v d g) <-> x = u \/ x = v \/ x ∈ nodes g.
Proof. simpl. rewrite !elem_of_add_node. tauto. Qed.

Lemma add_edge_well_formed u v d g :
  well_formed g -> well_formed (add_edge u v d g).
Proof.
  intros [Hs Hn]. split; [by apply put_edge_simple|].
  intros e He. revert e He. apply Forall_forall.
  apply put_edge_Forall.
  - apply Forall_forall. intros e He. rewrite !elem_of_nodes_add_edge.
    destruct (Hn e He). tauto.
  - rewrite !elem_of_nodes_add_edge. simpl. tauto.
  - intros e He _. rewrite !elem_of_nodes_add_edge. simpl.
    destruct (Hn e He). tauto.
Qed.

End AddEdge.

(** ** [copy] and [build] give well-formed graphs with the same edges *)

Definition puts (L es : list edge) : list edge :=
  fold_left (fun es a => put_edge (e_u a) (e_v a) (e_data a) es) L es.

Definition agrees (L : list edge) (e : edge) : Prop :=
  exists a, a ∈ L /\ same_ends a e /\ e_data e = e_data a.

Definition covered (acc : list edge) (a : edge) : Prop :=
  exists e, e ∈ acc /\ same_ends a e /\ e_data e = e_data a.

Definition consistent (L : list edge) : Prop :=
  forall a b, a ∈ L -> b ∈ L -> same_ends a b -> e_data a = e_data b.


Section Copy.

Implicit Types (g : rv_graph) (L acc es : list edge) (e a x : edge)
  (n : string).

Lemma fold_add_edge_edges L g :
  edges (fold_left (fun h b => add_edge (e_u b) (e_v b) (e_data b) h) L g)
  = puts L (edges g).
Proof.
  unfold puts. revert g. induction L as [|a L IH]; intros g; simpl; [done|].
  by rewrite IH.
Qed.

Lemma fold_add_edge_nodes L g n :
  n ∈ nodes g ->
  n ∈ nodes (fold_left (fun h b => add_edge (e_u b) (e_v b) (e_data b) h)
               L g).
Proof.
  revert g. induction L as [|a L IH]; intros g Hn; simpl; [done|].
  apply IH. apply elem_of_nodes_add_edge. tauto.
Qed.

Lemma same_ends_same_name a e d :
  same_ends a e <-> same_ends a (Edge (e_u e) (e_v e) d).
Proof. by rewrite !same_ends_iff. Qed.

Lemma puts_inv L :
  consistent L ->
  forall rest done acc,
    L = done ++ rest -> simple acc ->
    Forall (agrees done) acc -> Forall (covered acc) done ->
    simple (puts rest acc) /\
    Forall (agrees L) (puts rest acc) /\
    Forall (covered (puts rest acc)) L.
Proof.
  intros Hcons rest. induction rest as [|a rest IH];
    intros done acc HL Hs Hag Hcov.
  - rewrite app_nil_r in HL. by subst.
  - assert (a ∈ L) as HaL by (subst; set_solver).
    assert (forall b, b ∈ done -> b ∈ L) as HdL by (subst; set_solver).
    unfold puts. simpl.
    apply (IH (done ++ [a])).
    + by rewrite <- (assoc_L (++)).
    + by apply put_edge_simple.
    + apply put_edge_Forall.
      * eapply Forall_impl; [done|]. intros e (b & ? & ? & ?).
        exists b. split_and!; [set_solver|done..].
      * exists a. split_and!; [set_solver| |done]. by apply same_ends_iff; left.
      * intros e He Hj. rewrite Forall_forall in Hag.
        destruct (Hag e He) as (b & Hb & Hbe & Hd).
        assert (e_data b = e_data a) as Hba.
        { apply Hcons; [by apply HdL|done|].
          eauto using same_ends_trans, same_ends_sym. }
        exists a. split_and!; [set_solver|..]; simpl.
        -- by apply -> same_ends_same_name.
        -- by rewrite Hd, Hba, update_idem.
    + apply Forall_app. split.
      * rewrite Forall_forall in Hcov |- *. intros b Hb.
        destruct (Hcov b Hb) as (e & He & Hbe & Hd).
        destruct (put_edge_keeps (e_u a) (e_v a) (e_data a) acc e Hs He)
          as [[_ Hin]|[Hj Hin]].
        -- by exists e.
        -- eexists. split; [exact Hin|]. simpl. split.
           ++ by apply -> same_ends_same_name.
           ++ assert (e_data b = e_data a) as Hba.
              { apply Hcons; [by apply HdL|done|].
                eauto using same_ends_trans, same_ends_sym. }
              by rewrite Hd, Hba, update_idem.
      * constructor; [|done].
        destruct (put_edge_puts (e_u a) (e_v a) (e_data a) acc)
          as (e & He & Hj & Hd).
        exists e. split_and!; [done..|].
        destruct Hd as [?|(e0 & He0 & Hj0 & Hd)]; [done|].
        rewrite Forall_forall in Hag.
        destruct (Hag e0 He0) as (b & Hb & Hbe & Hd0).
        assert (e_data b = e_data a) as Hba.
        { apply Hcons; [by apply HdL|done|].
          eauto using same_ends_trans, same_ends_sym. }
        by rewrite Hd, Hd0, Hba, update_idem.
Qed.

Lemma adjacency_consistent g :
  simple (edges g) -> consistent (flat_map (edges_at g) (nodes g)).
Proof.
  intros Hs a b Ha Hb Hab.
  apply list_elem_of_In, in_flat_map in Ha as (u & _ & Ha).
  apply list_elem_of_In, in_flat_map in Hb as (u' & _ & Hb).
  apply list_elem_of_In, elem_of_edges_at in Ha as (e1 & He1 & Ht1 & ->).
  apply list_elem_of_In, elem_of_edges_at in Hb as (e2 & He2 & Ht2 & ->).
  rewrite !seen_from_data. f_equal. apply (simple_elem (edges g)); try done.
  pose proof (seen_from_same_ends _ _ Ht1).
  pose proof (seen_from_same_ends _ _ Ht2).
  eauto using same_ends_trans, same_ends_sym.
Qed.

Lemma copy_edges g :
  edges (copy g) = puts (flat_map (edges_at g) (nodes g)) [].
Proof. unfold copy. by rewrite fold_add_edge_edges. Qed.

Lemma copy_nodes g n : n ∈ nodes g -> n ∈ nodes (copy g).
Proof. intros. by apply fold_add_edge_nodes. Qed.

Lemma copy_inv g :
  simple (edges g) ->
  simple (edges (copy g)) /\
  Forall (agrees (flat_map (edges_at g) (nodes g))) (edges (copy g)) /\
  Forall (covered (edges (copy g))) (flat_map (edges_at g) (nodes g)).
Proof.
  intros Hs. rewrite copy_edges.
  apply (puts_inv _ (adjacency_consistent g Hs) _ [] []); by simpl.
Qed.

(** The copy has the same adjacency, node by node. *)
Lemma copy_edges_at g n x :
  well_formed g -> x ∈ edges_at (copy g) n <-> x ∈ edges_at g n.
Proof.
  intros [Hs Hn]. destruct (copy_inv g Hs) as (_ & Hag & Hcov).
  rewrite Forall_forall in Hag, Hcov. rewrite !elem_of_edges_at. split.
  - intros (e & He & Ht & ->). destruct (Hag e He) as (a & Ha & Hae & Hd).
    apply list_elem_of_In, in_flat_map in Ha as (u & _ & Ha).
    apply list_elem_of_In, elem_of_edges_at in Ha as (e1 & He1 & Ht1 & ->).
    rewrite seen_from_data in Hd.
    pose proof (seen_from_same_ends _ _ Ht1) as H1.
    assert (same_ends e e1) as Hee1
      by eauto using same_ends_trans, same_ends_sym.
    exists e1. split_and!; [done|..].
    + by rewrite <- (touches_same_ends n e e1).
    + by apply seen_from_eq.
  - intros (e1 & He1 & Ht1 & ->).
    assert (n ∈ nodes g) as Hnode.
    { destruct (Hn e1 He1). apply touches_iff in Ht1 as [<-|<-]; done. }
    assert (seen_from n e1 ∈ flat_map (edges_at g) (nodes g)) as Ha.
    { apply list_elem_of_In, in_flat_map. exists n.
      split; apply list_elem_of_In; [done|].
      apply elem_of_edges_at. eauto. }
    destruct (Hcov _ Ha) as (e & He & Hae & Hd).
    rewrite seen_from_data in Hd.
    pose proof (seen_from_same_ends _ _ Ht1) as H1.
    assert (same_ends e1 e) as Hee1 by eauto using same_ends_trans.
    exists e. split_and!; [done|..].
    + by rewrite <- (touches_same_ends n e1 e).
    + by apply seen_from_eq.
Qed.

Lemma copy_incident g kind n x :
  well_formed g -> x ∈ incident (copy g) kind n <-> x ∈ incident g kind n.
Proof.
  intros Hwf. unfold incident.
  by rewrite !list_elem_of_filter, copy_edges_at.
Qed.


End Copy.

Lemma fold_left_preserves {X Y} (P : Y -> Prop) (f : Y -> X -> Y)
    (l : list X) (y : Y) :
  (forall b a, a ∈ l -> P b -> P (f b a)) -> P y -> P (fold_left f l y).
Proof.
  revert y. induction l as [|a l IH]; intros y Hf Hy; simpl; [done|].
  apply IH.
  - intros b a' Ha'. apply Hf. by right.
  - apply Hf; [left|done].
Qed.

Section NodeLists.

Implicit Types (g : rv_graph) (ns : list string) (n : string).

Lemma add_node_NoDup n ns : NoDup ns -> NoDup (add_node n ns).
Proof.
  intros Hnd. unfold add_node. case_bool_decide; [done|].
  apply NoDup_app. split_and!; [done| |apply NoDup_singleton].
  intros x Hx ->%list_elem_of_singleton. done.
Qed.

Lemma add_edge_NoDup u v d g :
  NoDup (nodes g) -> NoDup (nodes (add_edge u v d g)).
Proof. intros. simpl. by do 2 apply add_node_NoDup. Qed.

Lemma copy_NoDup g : NoDup (nodes g) -> NoDup (nodes (copy g)).
Proof.
  intros Hnd. unfold copy.
  apply (fold_left_preserves (fun h => NoDup (nodes h))); [|done].
  intros h a _. apply add_edge_NoDup.
Qed.

End NodeLists.

(** ** The graph that [generate_rv_graph] builds before pruning *)

Section Build.

Variable graph : graph.
Variable vehicles : list vehicle.
Variable requests : list request.
Variable current_time : Z.
Variable max_capacity : Z.
Variable max_delay : Z.

Hypothesis request_ids :
  forall r, r ∈ requests -> startswith_r (r_id r) = true.

Local Abbreviation build :=
  (build graph vehicles requests current_time max_capacity max_delay).





End Build.

(** ** Which edges a vehicle keeps *)

Section PruneVehicle.

Implicit Types (g : rv_graph) (n m v : string) (e x : edge).












End PruneVehicle.

(** ** What a node keeps at its visit, and what is left at the end *)

Section Visit.

Implicit Types (g : rv_graph) (n m : string) (e x : edge)
  (ns pre post : list string).







Lemma when_visited_split top_k n pre post g :
  n ∉ pre ->
  when_visited top_k n (pre ++ n :: post) g
  = fold_left (prune_node top_k) pre g.
Proof.
  revert g. induction pre as [|m pre IH]; intros g Hn; simpl.
  - by rewrite bool_decide_eq_true_2.
  - apply not_elem_of_cons in Hn as [? ?].
    rewrite bool_decide_eq_false_2 by done. by apply IH.
Qed.








End Visit.

(** ** The claims about [generate_rv_graph] *)

(** The argument [prune_edges] has no effect on the result. *)
Lemma generate_rv_graph_ignores_flag graph vehicles requests current_time
    max_capacity max_delay top_k :
  generate_rv_graph graph vehicles requests current_time max_capacity
    max_delay false top_k
  = generate_rv_graph graph vehicles requests current_time max_capacity
      max_delay true top_k.
Proof. reflexivity. Qed.

(** A call with [prune_edges=False] that returns two of the six edges that
    were constructed. *)
Example unpruned_call_loses_edges :
  length (edges (build RvScenario.line [] RvScenario.four 0 2 1000)) = 6%nat
  /\
  length (edges (generate_rv_graph RvScenario.line [] RvScenario.four
                   0 2 1000 false 1)) = 2%nat.
Proof. split; vm_compute; reflexivity. Qed.




(** The graph of the witness: the vehicle keeps the lightest of its four
    edges, and of the six request-request edges two are left. *)
Example pruned_rv_graph_example :
  let G0 := build RvScenario.line [Vehicle "v1" 5 0 0 []] RvScenario.four
              0 2 1000 in
  let G := generate_rv_graph RvScenario.line [Vehicle "v1" 5 0 0 []]
             RvScenario.four 0 2 1000 true 1 in
  map (fun e => (e_v e, travel_time (e_data e))) (incident G0 rv "v1")
    = [("r1", Fin 17); ("r2", Fin 7); ("r3", Fin 6); ("r4", Fin 19)] /\
  map (fun e => (e_v e, travel_time (e_data e))) (incident G rv "v1")
    = [("r3", Fin 6)] /\
  map (fun e => (e_u e, e_v e)) (filter (fun e => edge_type (e_data e) = rr)
                                        (edges G))
    = [("r1", "r4"); ("r2", "r3")].
Proof. vm_compute. split_and!; reflexivity. Qed.

(** The weight of a request-request edge is the travel time from the first
    origin to the second. *)
Lemma rr_weight_origins graph current_time max_delay req1 req2 w :
  rr_weight graph current_time max_delay req1 req2 = Some w ->
  graph (o_r req1) (o_r req2) = Some w.
Proof.
  unfold rr_weight. intros H.
  destruct (graph (o_r req1) (o_r req2)) as [o1o2|]; simpl in H; [|done].
  destruct (graph (d_r req1) (o_r req2)); simpl in H; [|done].
  destruct (graph (o_r req2) (d_r req2)); simpl in H; [|done].
  destruct (graph (d_r req1) (d_r req2)); simpl in H; [|done].
  destruct (rr_test _ _ _ _ _ _ _ _ _); by simplify_eq.
Qed.

(** C3, on the code.  The trip "pick r1, drop r1, pick r2, drop r2" reaches
    every stop by its deadline (arrivals 0, 5, 10, 12), yet no edge is added:
    the first test of line 111 is made with the travel time between the two
    origins ([o1d1], computed with [target=req2["o_r"]]) where the trip
    needs the travel time from the origin of [r1] to its destination. *)
Theorem rr_edge_missed :
  rr_feasible RvScenario.line 10 0 RvScenario.a1 RvScenario.a2 /\
  rr_weight RvScenario.line 0 10 RvScenario.a1 RvScenario.a2 = None /\
  edges (generate_rv_graph RvScenario.line []
           [RvScenario.a1; RvScenario.a2] 0 2 10 false 30) = [].
Proof.
  split_and!.
  - eexists. split; [left|].
    eapply (walk_iff _ _ _ _ _ 0 12). vm_compute. reflexivity.
  - vm_compute. reflexivity.
  - vm_compute. reflexivity.
Qed.

(** In the other direction: none of the three trips is on time, and the
    edge is added. *)
Lemma rr_edge_spurious :
  ~ rr_feasible RvScenario.line 5 0 RvScenario.b1 RvScenario.b2 /\
  rr_weight RvScenario.line 0 5 RvScenario.b1 RvScenario.b2 = Some 3.
Proof.
  split; [|vm_compute; reflexivity].
  intros (seq & Hseq & Hon). unfold rr_orderings in Hseq.
  repeat (apply elem_of_cons in Hseq as [->|Hseq]);
    [| | |by apply elem_of_nil in Hseq].
  - destruct (Hon 3%nat _ eq_refl) as (a & Ha & Hle).
    vm_compute in Ha. simplify_eq. vm_compute in Hle. done.
  - destruct (Hon 3%nat _ eq_refl) as (a & Ha & Hle).
    vm_compute in Ha. simplify_eq. vm_compute in Hle. done.
  - destruct (Hon 2%nat _ eq_refl) as (a & Ha & Hle).
    vm_compute in Ha. simplify_eq. vm_compute in Hle. done.
Qed.

(** ** The greedy seeder *)



Lemma fold_left_map {X Y Z} (f : Z -> Y -> Z) (h : X -> Y) (l : list X)
    (z : Z) :
  fold_left f (map h l) z = fold_left (fun b x => f b (h x)) l z.
Proof.
  revert z. induction l as [|x l IH]; intros z; simpl; [done|].
  by rewrite IH.
Qed.

(** *** The division of line 44 *)

Section Doubles.

Lemma round_half_even_le n d :
  0 < d -> round_half_even n d <= n / d + 1.
Proof.
  intros Hd. unfold round_half_even.
  destruct (2 * (n mod d) ?= d); [|lia..].
  destruct (Z.even (n / d)); lia.
Qed.

Lemma round_half_even_nonneg n d :
  0 <= n -> 0 < d -> 0 <= round_half_even n d.
Proof.
  intros Hn Hd. unfold round_half_even.
  pose proof (Z.div_pos n d Hn Hd).
  destruct (2 * (n mod d) ?= d); [|lia..].
  destruct (Z.even (n / d)); lia.
Qed.

Lemma nearest_double_nonneg n d :
  0 <= n -> 0 < d -> 0 <= nearest_double n d.
Proof.
  intros Hn Hd. unfold nearest_double.
  set (e := Z.max 0 _).
  assert (0 < 2 ^ e) by (apply Z.pow_pos_nonneg; lia).
  apply Z.mul_nonneg_nonneg; [|lia].
  apply round_half_even_nonneg; [|lia].
  apply Z.mul_nonneg_nonneg; [done|]. apply Z.pow_nonneg. lia.
Qed.

(** A quotient below [2^1023] is rounded to a double below [2^1024]. *)
Lemma nearest_double_bound n d :
  0 <= n -> 0 < d -> n < 2 ^ 1023 * d -> nearest_double n d < 2 ^ 2098.
Proof.
  intros Hn Hd Hlt. unfold nearest_double.
  set (scaled := n * 2 ^ 1074).
  assert (2 ^ 2097 = 2 ^ 1023 * 2 ^ 1074) as H2097
    by (by rewrite <- Z.pow_add_r).
  assert (2 ^ 2098 = 2 * 2 ^ 2097) as H2098
    by (by rewrite <- Z.pow_succ_r).
  assert (0 < 2 ^ 1074) as Hp by (by apply Z.pow_pos_nonneg).
  assert (0 <= scaled) as Hs by (unfold scaled; nia).
  assert (scaled / d < 2 ^ 2097) as HF.
  { apply Z.div_lt_upper_bound; [done|]. rewrite H2097. unfold scaled. nia. }
  pose proof (Z.div_pos scaled d Hs Hd) as HF0.
  set (F := scaled / d) in *.
  rewrite H2098. generalize dependent (2 ^ 2097). intros B _ _ HF.
  destruct (Z.max_spec 0 (Z.log2 F - 52)) as [[Hlog ->]|[Hlog ->]].
  - assert (0 < F) as HFpos.
    { destruct (Z.eq_dec F 0) as [H0|]; [|lia].
      rewrite H0 in Hlog. simpl in Hlog. lia. }
    destruct (Z.log2_spec F HFpos) as [Hlo _].
    set (e := Z.log2 F - 52) in *.
    assert (0 < 2 ^ e) as He by (apply Z.pow_pos_nonneg; lia).
    assert (2 ^ e <= F) as HeF.
    { etrans; [|exact Hlo]. apply Z.pow_le_mono_r; lia. }
    pose proof (round_half_even_le scaled (d * 2 ^ e) ltac:(nia)) as Hr.
    rewrite <- Z.div_div in Hr by lia. fold F in Hr.
    pose proof (Z.mul_div_le F (2 ^ e) He). nia.
  - rewrite Z.pow_0_r, !Z.mul_1_r.
    pose proof (round_half_even_le scaled d Hd). fold F in H. lia.
Qed.

Lemma true_divide_in_range c k :
  Z.abs c < 2 ^ 1023 -> 0 < k ->
  true_divide c k = Ok (double_quotient c k).
Proof.
  intros Hc Hk. unfold true_divide.
  destruct (Z.eqb_spec k 0); [lia|].
  pose proof (nearest_double_bound (Z.abs c) (Z.abs k)) as Hb.
  destruct (Z.leb_spec (2 ^ 2098) (nearest_double (Z.abs c) (Z.abs k)));
    [|done].
  assert (0 < 2 ^ 1023) by (by apply Z.pow_pos_nonneg).
  generalize dependent (2 ^ 2098). generalize dependent (2 ^ 1023).
  intros. nia.
Qed.

Lemma relative_cost_Some c n :
  n <> 0%nat ->
  relative_cost (Some c) n = OverflowError \/
  relative_cost (Some c) n = Ok (QFin (double_quotient c (Z.of_nat n))).
Proof.
  intros Hn. unfold relative_cost, true_divide.
  destruct (Z.eqb_spec (Z.of_nat n) 0); [lia|].
  destruct (_ <=? _); auto.
Qed.

Lemma relative_cost_in_range cost n :
  (forall c, cost = Some c -> Z.abs c < 2 ^ 1023) ->
  relative_cost cost n <> OverflowError.
Proof.
  intros Hc. destruct cost as [c|]; simpl; [|by destruct n].
  destruct n as [|n]; [done|].
  rewrite true_divide_in_range; [done|by apply Hc|lia].
Qed.

End Doubles.

Section FindBest.

Variable g : rtv_graph.
Variable vehicles : list vehicle.
Variable set_order : gset string -> list string.

Hypothesis set_order_elements : forall s, set_order s ≡ₚ elements s.
Hypothesis wf : rtv_wf g vehicles.

Implicit Types (st : state) (un asg : gset string) (v t : string)
  (p : string * string).

(** The pairs that one search visits, in order. *)
Definition candidates un : list (string * string) :=
  flat_map (fun v => map (pair v) (neighbors g v)) (set_order un).

Definition open_trip asg p : Prop :=
  type_of g p.2 = trip_t /\ requests_of g p.2 ∩ asg = ∅.

Lemma find_best_candidates un asg :
  find_best g set_order un asg
  = fold_left (fun b p => try_trip g asg p.1 b p.2) (candidates un)
              (Ok (None, QInf)).
Proof.
  unfold find_best, candidates. generalize (Ok (None, QInf) : result best).
  induction (set_order un) as [|v l IH]; intros b; simpl; [done|].
  by rewrite fold_left_app, fold_left_map, IH.
Qed.

Lemma elem_of_candidates_iff un v t :
  (v, t) ∈ candidates un <-> v ∈ un /\ t ∈ neighbors g v.
Proof.
  unfold candidates. rewrite list_elem_of_In, in_flat_map.
  setoid_rewrite <- list_elem_of_In. setoid_rewrite list_elem_of_fmap.
  setoid_rewrite set_order_elements. setoid_rewrite elem_of_elements.
  naive_solver.
Qed.

(** The variables of a search after the pairs [P] have been visited, unless
    a quotient was out of range. *)
Definition best_so_far asg (P : list (string * string)) (b : result best)
    : Prop :=
  match b with
  | Ok (None, QInf) => forall p, p ∈ P -> ~ open_trip asg p
  | Ok (Some (v, t), QFin q) =>
      (v, t) ∈ P /\ open_trip asg (v, t) /\ q = double_ratio g v t /\
      forall p, p ∈ P -> open_trip asg p -> (q <= double_ratio g p.1 p.2)%Q
  | OverflowError => True
  | _ => False
  end.

Definition known un : Prop :=
  forall v, v ∈ un -> exists w, w ∈ vehicles /\ v = v_id w.

Lemma try_trip_best_so_far un asg P b p :
  known un -> p ∈ candidates un ->
  best_so_far asg P b ->
  best_so_far asg (P ++ [p]) (try_trip g asg p.1 b p.2).
Proof.
  intros Hun Hp Hb. destruct p as [v t]. simpl.
  apply elem_of_candidates_iff in Hp as [Hv Ht].
  destruct (Hun v Hv) as (w & Hw & ->).
  destruct b as [[chosen min_cost]| |]; [|done..]. unfold try_trip.
  case_bool_decide as Htype; cycle 1.
  { destruct chosen as [[v0 t0]|], min_cost as [q|]; simpl in *; try done.
    - destruct Hb as (? & ? & ? & Hmin). split_and!; [set_solver|done..|].
      intros p [? | ->%list_elem_of_singleton]%elem_of_app; [by apply Hmin|].
      by intros [? _].
    - intros p [? | ->%list_elem_of_singleton]%elem_of_app; [by apply Hb|].
      by intros [? _]. }
  case_bool_decide as Hfree.
  { destruct chosen as [[v0 t0]|], min_cost as [q|]; simpl in *; try done.
    - destruct Hb as (? & ? & ? & Hmin). split_and!; [set_solver|done..|].
      intros p [? | ->%list_elem_of_singleton]%elem_of_app; [by apply Hmin|].
      by intros [_ ?].
    - intros p [? | ->%list_elem_of_singleton]%elem_of_app; [by apply Hb|].
      by intros [_ ?]. }
  assert (requests_of g t ∩ asg = ∅) as Hfree'.
  { destruct (decide (requests_of g t ∩ asg = ∅)); done. }
  destruct (wf_weight g vehicles wf w t Hw Ht Htype) as [c Hc].
  pose proof (wf_nonempty g vehicles wf t Htype) as Hne.
  assert (size (requests_of g t) <> 0%nat) as Hsize.
  { intros H0. by apply size_empty_iff, leibniz_equiv in H0. }
  rewrite Hc.
  destruct (relative_cost_Some c _ Hsize) as [-> | ->]; [done|].
  assert (double_quotient c (Z.of_nat (size (requests_of g t)))
          = double_ratio g (v_id w) t) as Hratio
    by (unfold double_ratio; by rewrite Hc).
  rewrite Hratio.
  assert (open_trip asg (v_id w, t)) as Hopen by done.
  destruct chosen as [[v0 t0]|], min_cost as [q|]; simpl in *; try done.
  - destruct Hb as (Hin & Hop & -> & Hmin).
    destruct (Qle_bool (double_ratio g v0 t0) (double_ratio g (v_id w) t))
      eqn:Hle; simpl.
    + apply Qle_bool_iff in Hle. split_and!; [set_solver|done..|].
      intros p [? | ->%list_elem_of_singleton]%elem_of_app ?; [by apply Hmin|].
      done.
    + assert (double_ratio g (v_id w) t < double_ratio g v0 t0)%Q as Hlt.
      { apply Qnot_le_lt. intros H. apply Qle_bool_iff in H. congruence. }
      split_and!; [set_solver|done..|].
      intros p [? | ->%list_elem_of_singleton]%elem_of_app ?.
      * eapply Qle_trans; [by apply Qlt_le_weak|]. by apply Hmin.
      * apply Qle_refl.
  - split_and!; [set_solver|done..|].
    intros p [Hp | ->%list_elem_of_singleton]%elem_of_app ?.
    + by destruct (Hb p Hp).
    + apply Qle_refl.
Qed.

Lemma find_best_best_so_far un asg :
  known un ->
  best_so_far asg (candidates un) (find_best g set_order un asg).
Proof.
  intros Hun. rewrite find_best_candidates.
  assert (forall P,
    (forall p, p ∈ P -> p ∈ candidates un) ->
    best_so_far asg P
      (fold_left (fun b p => try_trip g asg p.1 b p.2) P (Ok (None, QInf))))
    as H; [|by apply H].
  induction P as [|p P IH] using rev_ind; intros HP.
  - simpl. by intros p ?%elem_of_nil.
  - rewrite fold_left_app. simpl.
    apply (try_trip_best_so_far un); [done|..].
    + apply HP. set_solver.
    + apply IH. intros q Hq. apply HP. set_solver.
Qed.

End FindBest.

(** With costs in range, no search raises [OverflowError]. *)
Lemma find_best_in_range g set_order un asg :
  in_double_range g -> find_best g set_order un asg <> OverflowError.
Proof.
  intros Hr. unfold find_best.
  apply fold_left_preserves; [|done]. intros b v _ Hb.
  apply fold_left_preserves; [|done]. clear b Hb. intros b t _ Hb.
  unfold try_trip. destruct b as [[chosen min_cost]| |]; [|done..].
  case_bool_decide; [|done]. case_bool_decide; [done|].
  pose proof (relative_cost_in_range (edge_travel_time g v t)
                (size (requests_of g t)) (Hr v t)) as Hrel.
  destruct (relative_cost _ _) as [rc| |]; [|done..].
  by destruct (qcost_ltb rc min_cost).
Qed.

Section GreedyLoop.

Variable g : rtv_graph.
Variable vehicles : list vehicle.
Variable set_order : gset string -> list string.

Hypothesis set_order_elements : forall s, set_order s ≡ₚ elements s.
Hypothesis wf : rtv_wf g vehicles.

Implicit Types (st : state) (a : gmap string string) (v t : string).

Lemma mark_served_requests asg t :
  type_of g t = trip_t -> mark_served g asg t = asg ∪ requests_of g t.
Proof.
  intros Ht. unfold mark_served.
  by rewrite (wf_members g vehicles wf t Ht).
Qed.

Lemma nonempty_string_true s : s <> "" -> nonempty_string s = true.
Proof. by destruct s. Qed.

(** The loop ends; unless a quotient was out of range, it returns, and
    does what the specification describes, with the relative costs compared
    as the doubles that they are. *)
Lemma loop_greedy_run fuel st :
  known vehicles (unassigned_vehicles st) ->
  (size (unassigned_vehicles st) <= fuel)%nat ->
  loop g set_order fuel st = Some OverflowError \/
  exists a, loop g set_order fuel st = Some (Ok a) /\
            greedy_run g (double_ratio g) st a.
Proof.
  revert st. induction fuel as [|fuel IH]; intros st Hun Hsize.
  - assert (unassigned_vehicles st = ∅) as He.
    { apply leibniz_equiv, size_empty_iff. lia. }
    right. exists (assignment st). simpl.
    rewrite bool_decide_eq_true_2 by done.
    split; [done|]. apply greedy_stop. intros v t [Hv _].
    rewrite He in Hv. set_solver.
  - simpl. case_bool_decide as He.
    { right. exists (assignment st). split; [done|]. apply greedy_stop.
      intros v t [Hv _]. rewrite He in Hv. set_solver. }
    pose proof (find_best_best_so_far g vehicles set_order
                  set_order_elements wf (unassigned_vehicles st)
                  (assigned_requests st) Hun) as Hb.
    destruct (find_best _ _ _ _) as [[[[v t]|] [q|]]| |]; simpl in Hb;
      try done; [| |by left].
    + destruct Hb as (Hin & [Htype Hfree] & -> & Hmin). simpl in *.
      apply elem_of_candidates_iff in Hin as [Hv Ht]; [|done].
      destruct (Hun v Hv) as (w & Hw & ->).
      destruct (wf_names g vehicles wf w t Hw Ht) as [Hn1 Hn2].
      rewrite !nonempty_string_true by done. simpl.
      rewrite mark_served_requests by done.
      destruct (IH (assign g st (v_id w) t)) as [Hovf|(a & Ha & Hrun)].
      * intros v' Hv'. apply Hun. simpl in Hv'. set_solver.
      * simpl.
        assert (size (unassigned_vehicles st ∖ {[v_id w]})
                = (size (unassigned_vehicles st) - 1)%nat) as Hs.
        { rewrite size_difference by set_solver.
          by rewrite size_singleton. }
        assert (size (unassigned_vehicles st) <> 0%nat) as Hpos.
        { intros H0%size_empty_iff. set_solver. }
        lia.
      * by left.
      * right. exists a. split; [done|]. eapply greedy_pick; [|done].
        split; [done|]. intros v' t' (Hv' & Ht' & Htype' & Hfree').
        apply (Hmin (v', t')); [|done].
        by apply elem_of_candidates_iff.
    + right. exists (assignment st). split; [done|]. apply greedy_stop.
      intros v t (Hv & Ht & Htype & Hfree). apply (Hb (v, t)); [|done].
      by apply elem_of_candidates_iff.
Qed.

Lemma loop_in_range fuel st :
  in_double_range g -> loop g set_order fuel st <> Some OverflowError.
Proof.
  intros Hr. revert st. induction fuel as [|fuel IH]; intros st; simpl.
  - by case_bool_decide.
  - case_bool_decide; [done|].
    pose proof (find_best_in_range g set_order (unassigned_vehicles st)
                  (assigned_requests st) Hr) as Hf.
    destruct (find_best _ _ _ _) as [[[[v t]|] q]| |]; try done.
    destruct (_ && _); [apply IH|done].
Qed.

End GreedyLoop.

(** What holds of the assignment while the seeder runs. *)
Definition seeded (g : rtv_graph) (vehicles : list vehicle) (st : state)
    : Prop :=
  (forall v t, assignment st !! v = Some t ->
     (v ∉ unassigned_vehicles st) /\
     (requests_of g t ⊆ assigned_requests st) /\
     v ∈ map v_id vehicles /\ t ∈ neighbors g v /\ type_of g t = trip_t) /\
  (forall v, v ∈ unassigned_vehicles st -> v ∈ map v_id vehicles) /\
  (forall v1 v2 t1 t2,
     v1 <> v2 -> assignment st !! v1 = Some t1 ->
     assignment st !! v2 = Some t2 ->
     requests_of g t1 ## requests_of g t2).

Lemma greedy_run_seeded g ratio vehicles st a :
  greedy_run g ratio st a -> seeded g vehicles st ->
  (forall v t, a !! v = Some t ->
     v ∈ map v_id vehicles /\ t ∈ neighbors g v /\ type_of g t = trip_t) /\
  (forall v1 v2 t1 t2,
     v1 <> v2 -> a !! v1 = Some t1 -> a !! v2 = Some t2 ->
     requests_of g t1 ## requests_of g t2).
Proof.
  induction 1 as [st _|st v t a [(Hv & Ht & Htype & Hfree) _] _ IH].
  - intros (H1 & _ & H2). split; [|done]. intros v t Hvt.
    by destruct (H1 v t Hvt) as (_ & _ & ?).
  - intros (H1 & Hun & H2). apply IH. split_and!; simpl.
    + intros v' t'. rewrite lookup_insert. case_decide as Hd.
      * intros [= <-]. subst v'. split_and!; [set_solver|set_solver|..].
        -- by apply Hun.
        -- done.
        -- done.
      * intros Hvt. destruct (H1 v' t' Hvt) as (? & ? & ? & ? & ?).
        split_and!; [set_solver|set_solver|done..].
    + intros v' Hv'. apply Hun. set_solver.
    + intros v1 v2 t1 t2 Hne. rewrite !lookup_insert.
      repeat case_decide; subst.
      * done.
      * intros [= <-] Hvt. destruct (H1 v2 t2 Hvt) as (_ & ? & _).
        set_solver.
      * intros Hvt [= <-]. destruct (H1 v1 t1 Hvt) as (_ & ? & _).
        set_solver.
      * by apply H2.
Qed.

(** Vehicles without a neighbour take no part in the procedure: the pool
    may or may not hold them. *)
Lemma greedy_run_pool g ratio st a (idle : gset string) :
  (forall v, v ∈ idle -> neighbors g v = []) ->
  greedy_run g ratio st a ->
  greedy_run g ratio
    (State (assignment st) (unassigned_vehicles st ∪ idle)
           (assigned_requests st)) a.
Proof.
  intros Hidle. induction 1 as [st Hnone|st v t a [He Hmin] _ IH].
  - apply (greedy_stop g ratio (State _ _ _)).
    intros v t (Hv & Ht & Htype & Hfree). simpl in *.
    apply elem_of_union in Hv as [Hv|Hv].
    + by apply (Hnone v t).
    + rewrite (Hidle v Hv) in Ht. by apply elem_of_nil in Ht.
  - destruct He as (Hv & Ht & Htype & Hfree).
    assert (v ∉ idle) as Hvi.
    { intros Hi. rewrite (Hidle v Hi) in Ht. by apply elem_of_nil in Ht. }
    apply (greedy_pick g ratio (State _ _ _) v t).
    + split.
      * split_and!; simpl; [set_solver|done..].
      * intros v' t' (Hv' & Ht' & Htype' & Hfree'). simpl in *.
        apply Hmin. split_and!; try done.
        apply elem_of_union in Hv' as [?|Hi]; [done|].
        rewrite (Hidle v' Hi) in Ht'. by apply elem_of_nil in Ht'.
    + simpl in IH. unfold assign. simpl.
      assert ((unassigned_vehicles st ∪ idle) ∖ {[v]}
              = unassigned_vehicles st ∖ {[v]} ∪ idle) as -> by set_solver.
      exact IH.
Qed.

Lemma initial_pool g vehicles :
  exists idle,
    (forall v, v ∈ idle -> neighbors g v = []) /\
    list_to_set (map v_id vehicles)
    = unassigned_vehicles (initial g vehicles) ∪ idle.
Proof.
  exists (list_to_set
            (map v_id (filter (fun v => neighbors g (v_id v) = []) vehicles))).
  split.
  - intros v. rewrite elem_of_list_to_set, list_elem_of_fmap.
    by intros (w & -> & [? _]%list_elem_of_filter).
  - apply set_eq. intros v. simpl.
    rewrite elem_of_union, !elem_of_list_to_set, !list_elem_of_fmap.
    setoid_rewrite list_elem_of_filter. split.
    + intros (w & -> & Hw).
      destruct (neighbors g (v_id w)) as [|t ts] eqn:Hn.
      * right. exists w. by rewrite Hn.
      * left. exists w. rewrite Hn. simpl. split_and!; [done|lia|done].
    + intros [(w & -> & _ & ?)|(w & -> & _ & ?)]; eauto.
Qed.

Lemma greedy_run_first g ratio st a :
  greedy_run g ratio st a ->
  ((forall v t, ~ eligible g st v t) /\ a = assignment st) \/
  exists v t, cheapest g ratio st v t /\
              greedy_run g ratio (assign g st v t) a.
Proof. destruct 1; eauto. Qed.

Lemma rounding_scenario_well_formed :
  rtv_wf RoundingScenario.rtv RoundingScenario.fleet /\
  in_double_range RoundingScenario.rtv.
Proof.
  split; [split; simpl|].
  - intros t. unfold RoundingScenario.type_of.
    case_bool_decide as Ht; [|by case_bool_decide].
    intros _. repeat (apply elem_of_cons in Ht as [->|Ht]);
      [..|by apply elem_of_nil in Ht];
      apply (bool_decide_unpack _); vm_compute; reflexivity.
  - intros t. unfold RoundingScenario.type_of.
    case_bool_decide as Ht; [|by case_bool_decide].
    intros _. repeat (apply elem_of_cons in Ht as [->|Ht]);
      [..|by apply elem_of_nil in Ht];
      apply (bool_decide_unpack _); vm_compute; reflexivity.
  - intros v t [->|Hv%elem_of_nil]%elem_of_cons; [|done]. simpl.
    unfold RoundingScenario.neighbors. simpl. intros Ht _.
    repeat (apply elem_of_cons in Ht as [->|Ht]);
      try (by apply elem_of_nil in Ht); vm_compute; eauto.
  - intros v t [->|Hv%elem_of_nil]%elem_of_cons; [|done]. simpl.
    unfold RoundingScenario.neighbors. simpl. intros Ht.
    repeat (apply elem_of_cons in Ht as [->|Ht]);
      try (by apply elem_of_nil in Ht); done.
  - intros v t c. simpl. unfold RoundingScenario.edge_travel_time.
    repeat case_bool_decide; intros [= <-]; vm_compute; reflexivity.
Qed.

(** C8, as stated, fails.  A vehicle has two trips of one request each, at
    costs 2^53 + 1 and 2^53.  The two quotients are the same double, the
    comparison of line 46 is strict, and the seeder keeps the trip that it
    met first, the costlier one: its result is not reached by picking a
    pair of least [cost(T, v) / |T|]. *)
Lemma greedy_assignment_keeps_a_costlier_pair :
  greedy_assignment RoundingScenario.rtv RoundingScenario.fleet elements
    = Some (Ok {[ "v1" := "t1" ]}) /\
  (ratio RoundingScenario.rtv "v1" "t2"
   < ratio RoundingScenario.rtv "v1" "t1")%Q /\
  ~ greedy_run RoundingScenario.rtv (ratio RoundingScenario.rtv)
      (nothing_assigned RoundingScenario.fleet) {[ "v1" := "t1" ]}.
Proof.
  split_and!; [vm_compute; reflexivity..|].
  intros [[Hnone _]|(v & t & [He Hmin] & Hrun)]%greedy_run_first.
  - apply (Hnone "v1" "t1"). split_and!; simpl.
    + set_solver.
    + vm_compute. left.
    + vm_compute. reflexivity.
    + apply (bool_decide_unpack _). vm_compute. reflexivity.
  - destruct He as (Hv & Ht & _). simpl in Hv.
    assert (v = "v1") as -> by set_solver.
    assert (t = "t1" \/ t = "t2") as [-> | ->].
    { vm_compute in Ht. set_solver. }
    + assert (eligible RoundingScenario.rtv
                (nothing_assigned RoundingScenario.fleet) "v1" "t2") as H2.
      { split_and!; simpl.
        - set_solver.
        - vm_compute. right. left.
        - vm_compute. reflexivity.
        - apply (bool_decide_unpack _). vm_compute. reflexivity. }
      apply Hmin in H2. vm_compute in H2. by apply H2.
    + apply greedy_run_first in Hrun
        as [[_ Ha]|(v & t & [(Hv' & _) _] & _)].
      * apply (f_equal (fun m => m !! "v1")) in Ha. simpl in Ha.
        rewrite lookup_singleton_eq, lookup_insert_eq in Ha. done.
      * simpl in Hv'. set_solver.
Qed.

(** A cost that is too large for a double ends the call with the
    [OverflowError] of the division. *)
Example greedy_assignment_overflows :
  greedy_assignment
    (RTV ["v1"; "t1"]
         (fun n => if bool_decide (n = "t1") then trip_t else vehicle_t)
         (fun _ => {[ "r1" ]})
         (fun n => if bool_decide (n = "v1") then ["t1"] else ["v1"])
         (fun _ _ => Some (2 ^ 1024)))
    [Vehicle "v1" 0 0 0 []] elements
  = Some OverflowError.
Proof. vm_compute. reflexivity. Qed.

(** C8, amended.  On a well-formed RTV graph whose costs are below 2^1023
    in absolute value, whatever the order in which Python iterates over the
    set of unassigned vehicles, [greedy_assignment] returns (it neither
    loops nor raises), and its result is reached, from the state in which
    nothing is assigned and every vehicle of the fleet is in the pool, by
    repeatedly picking, among the unassigned vehicles and the trips none of
    whose requests is served, a pair for which the double nearest to
    [cost(T, v) / |T|] is least, assigning it, marking the requests of the
    trip served and removing the vehicle, until no eligible pair is left.
    Every assigned pair is a vehicle-trip edge of a vehicle of the fleet,
    and the trips of two different vehicles share no request. *)
Theorem greedy_assignment_picks_cheapest g vehicles set_order :
  (forall s, set_order s ≡ₚ elements s) ->
  rtv_wf g vehicles ->
  in_double_range g ->
  exists a,
    greedy_assignment g vehicles set_order = Some (Ok a) /\
    greedy_run g (double_ratio g) (nothing_assigned vehicles) a /\
    (forall v t, a !! v = Some t ->
       v ∈ map v_id vehicles /\ t ∈ neighbors g v /\ type_of g t = trip_t) /\
    (forall v1 v2 t1 t2,
       v1 <> v2 -> a !! v1 = Some t1 -> a !! v2 = Some t2 ->
       requests_of g t1 ## requests_of g t2).
Proof.
  intros Horder Hwf Hrange.
  assert (forall v, v ∈ unassigned_vehicles (initial g vehicles) ->
            exists w, w ∈ vehicles /\ v = v_id w) as Hun.
  { intros v. simpl. rewrite elem_of_list_to_set, list_elem_of_fmap.
    intros (w & -> & [_ Hw]%list_elem_of_filter). eauto. }
  destruct (loop_greedy_run g vehicles set_order Horder Hwf
              (size (unassigned_vehicles (initial g vehicles)))
              (initial g vehicles) Hun) as [Hovf|(a & Ha & Hrun)]; [lia|..].
  { by apply loop_in_range in Hovf. }
  exists a. split; [done|]. split.
  - destruct (initial_pool g vehicles) as (idle & Hidle & Hpool).
    unfold nothing_assigned. rewrite Hpool.
    apply (greedy_run_pool g _ (initial g vehicles) a idle Hidle Hrun).
  - apply (greedy_run_seeded g _ vehicles _ _ Hrun). split_and!; simpl.
    + intros v t. by rewrite lookup_empty.
    + intros v Hv. destruct (Hun v Hv) as (w & ? & ->).
      apply list_elem_of_fmap. eauto.
    + intros v1 v2 t1 t2 _. by rewrite lookup_empty.
Qed.


Lemma rtv_scenario_well_formed :
  rtv_wf RtvScenario.rtv RtvScenario.fleet.
Proof.
  split; simpl.
  - intros t. unfold RtvScenario.type_of, RtvScenario.trips.
    case_bool_decide as Ht; [|by case_bool_decide].
    intros _. repeat (apply elem_of_cons in Ht as [->|Ht]);
      [..|by apply elem_of_nil in Ht];
      apply (bool_decide_unpack _); vm_compute; reflexivity.
  - intros t. unfold RtvScenario.type_of, RtvScenario.trips.
    case_bool_decide as Ht; [|by case_bool_decide].
    intros _. repeat (apply elem_of_cons in Ht as [->|Ht]);
      [..|by apply elem_of_nil in Ht];
      apply (bool_decide_unpack _); vm_compute; reflexivity.
  - intros v t Hv. unfold RtvScenario.fleet in Hv.
    repeat (apply elem_of_cons in Hv as [->|Hv]);
      [..|by apply elem_of_nil in Hv]; simpl; intros Ht _;
      unfold RtvScenario.neighbors in Ht; simpl in Ht;
      repeat (apply elem_of_cons in Ht as [->|Ht]);
      try (by apply elem_of_nil in Ht); vm_compute; eauto.
  - intros v t Hv. unfold RtvScenario.fleet in Hv.
    repeat (apply elem_of_cons in Hv as [->|Hv]);
      [..|by apply elem_of_nil in Hv]; simpl; intros Ht;
      unfold RtvScenario.neighbors in Ht; simpl in Ht;
      repeat (apply elem_of_cons in Ht as [->|Ht]);
      try (by apply elem_of_nil in Ht); done.
Qed.

Lemma rtv_scenario_in_double_range : in_double_range RtvScenario.rtv.
Proof.
  intros v t c. simpl.
  unfold RtvScenario.edge_travel_time, RtvScenario.weight.
  repeat case_bool_decide; intros [= <-]; vm_compute; reflexivity.
Qed.

Example greedy_assignment_example :
  greedy_assignment RtvScenario.rtv RtvScenario.fleet elements
  = Some (Ok {[ "v2" := "tB"; "v1" := "tA" ]}).
Proof. vm_compute. reflexivity. Qed.

Lemma greedy_assignment_picks_cheapest_witness :
  exists a,
    greedy_assignment RtvScenario.rtv RtvScenario.fleet elements
      = Some (Ok a) /\
    greedy_run RtvScenario.rtv (double_ratio RtvScenario.rtv)
      (nothing_assigned RtvScenario.fleet) a /\
    (forall v t, a !! v = Some t ->
       v ∈ map v_id RtvScenario.fleet /\
       t ∈ neighbors RtvScenario.rtv v /\
       type_of RtvScenario.rtv t = trip_t) /\
    (forall v1 v2 t1 t2,
       v1 <> v2 -> a !! v1 = Some t1 -> a !! v2 = Some t2 ->
       requests_of RtvScenario.rtv t1 ## requests_of RtvScenario.rtv t2).
Proof.
  apply (greedy_assignment_picks_cheapest RtvScenario.rtv RtvScenario.fleet
           elements).
  - reflexivity.
  - apply rtv_scenario_well_formed.
  - apply rtv_scenario_in_double_range.
Defined.

(** ** The integer program *)


Section Sums.

Context {A : Type}.
Implicit Types (f : A -> Q) (l : list A).

Lemma sum_over_app f l1 l2 :
  (sum_over f (l1 ++ l2) == sum_over f l1 + sum_over f l2)%Q.
Proof.
  induction l1 as [|a l1 IH]; simpl; [lra|]. rewrite IH. lra.
Qed.

Lemma sum_over_Permutation f l1 l2 :
  l1 ≡ₚ l2 -> (sum_over f l1 == sum_over f l2)%Q.
Proof.
  induction 1 as [|a l1 l2 _ IH|a b l|l1 l2 l3 _ IH1 _ IH2]; simpl.
  - lra.
  - rewrite IH. lra.
  - lra.
  - by rewrite IH1.
Qed.

Lemma sum_over_nonneg f l :
  (forall a, a ∈ l -> binary (f a)) -> (0 <= sum_over f l)%Q.
Proof.
  induction l as [|a l IH]; simpl; intros Hb; [lra|].
  assert (0 <= sum_over f l)%Q by (apply IH; intros; apply Hb; by right).
  destruct (Hb a) as [Hz|Ho]; [left|rewrite Hz|rewrite Ho]; lra.
Qed.

(** Of binary terms that sum to at most 1, at most one is 1. *)
Lemma sum_over_at_most_one f l a b :
  NoDup l -> (forall c, c ∈ l -> binary (f c)) ->
  (sum_over f l <= 1)%Q ->
  a ∈ l -> b ∈ l -> (f a == 1)%Q -> (f b == 1)%Q -> a = b.
Proof.
  induction 1 as [|c l Hc Hnd IH]; simpl; intros Hb Hsum Ha Hb' Hfa Hfb.
  { by apply elem_of_nil in Ha. }
  assert (forall d, d ∈ l -> binary (f d)) as Hbl
    by (intros; apply Hb; by right).
  pose proof (sum_over_nonneg f l Hbl) as Hnn.
  assert (forall d, d ∈ l -> (f d == 1)%Q -> (1 <= sum_over f l)%Q) as Hone.
  { clear -Hbl. induction l as [|e l IH]; simpl; intros d Hd Hfd.
    { by apply elem_of_nil in Hd. }
    assert (0 <= sum_over f l)%Q
      by (apply sum_over_nonneg; intros; apply Hbl; by right).
    apply elem_of_cons in Hd as [->|Hd].
    - rewrite Hfd. lra.
    - assert (1 <= sum_over f l)%Q
        by (eapply IH; [intros; apply Hbl; by right|done..]).
      destruct (Hbl e) as [Hz|Ho]; [left|rewrite Hz|rewrite Ho]; lra. }
  apply elem_of_cons in Ha as [->|Ha], Hb' as [->|Hb'].
  - done.
  - pose proof (Hone b Hb' Hfb). rewrite Hfa in Hsum. lra.
  - pose proof (Hone a Ha Hfa). rewrite Hfb in Hsum. lra.
  - apply IH; try done. destruct (Hb c) as [Hz|Ho]; [left|..].
    + rewrite Hz in Hsum. lra.
    + rewrite Ho in Hsum. pose proof (Hone a Ha Hfa). lra.
Qed.

End Sums.

Lemma value_app x e1 e2 :
  (value x (e1 ++ e2) == value x e1 + value x e2)%Q.
Proof.
  induction e1 as [|t e1 IH]; simpl; [lra|]. rewrite IH. lra.
Qed.

Lemma value_map {A} x (c : A -> Q) (v : A -> var) (l : list A) :
  (value x (map (fun a => (c a, v a)) l)
   == sum_over (fun a => c a * x (v a)) l)%Q.
Proof. induction l as [|a l IH]; simpl; [lra|]. rewrite IH. lra. Qed.

Lemma sum_over_ext {A} (f h : A -> Q) (l : list A) :
  (forall a, a ∈ l -> (f a == h a)%Q) -> (sum_over f l == sum_over h l)%Q.
Proof.
  induction l as [|a l IH]; simpl; intros H; [lra|].
  rewrite IH by (intros; apply H; by right).
  rewrite (H a) by left. lra.
Qed.

Lemma sum_over_scale {A} (c : Q) (f : A -> Q) (l : list A) :
  (sum_over (fun a => c * f a) l == c * sum_over f l)%Q.
Proof. induction l as [|a l IH]; simpl; [lra|]. rewrite IH. lra. Qed.

Section IlpKeys.

Variable g : rtv_graph.

Hypothesis nodes_NoDup : NoDup (rtv_nodes g).
Hypothesis neighbors_NoDup : forall n, NoDup (neighbors g n).

Implicit Types (T v : string) (k : string * string).

Lemma elem_of_epsilon_calls T v :
  (T, v) ∈ epsilon_calls g <-> tv_edge g T v.
Proof.
  unfold epsilon_calls, tv_edge. rewrite list_elem_of_In, in_flat_map.
  setoid_rewrite <- list_elem_of_In. split.
  - intros (T' & HT' & Hin). case_bool_decide; [|by apply elem_of_nil in Hin].
    apply list_elem_of_fmap in Hin as (v' & [= -> ->] & Hv').
    by apply list_elem_of_filter in Hv' as [? ?].
  - intros (? & ? & ? & ?). exists T. split; [done|].
    rewrite bool_decide_eq_true_2 by done.
    apply list_elem_of_fmap. exists v. split; [done|].
    by apply list_elem_of_filter.
Qed.

Lemma epsilon_calls_NoDup : NoDup (epsilon_calls g).
Proof.
  unfold epsilon_calls. pose proof nodes_NoDup as Hnd. revert Hnd.
  generalize (rtv_nodes g). intros l Hnd.
  induction Hnd as [|T ns HT Hns IH]; simpl.
  { constructor. }
  apply NoDup_app. split_and!; [|clear IH|done].
  - case_bool_decide; [|constructor].
    apply NoDup_fmap_2; [by intros ?? [=]|].
    by apply NoDup_filter.
  - intros k Hk Hk'. apply list_elem_of_In, in_flat_map in Hk'
      as (T' & HT' & Hin). apply list_elem_of_In in HT', Hin.
    destruct (bool_decide (type_of g T = trip_t));
      [|by apply elem_of_nil in Hk].
    destruct (bool_decide (type_of g T' = trip_t));
      [|by apply elem_of_nil in Hin].
    apply list_elem_of_fmap in Hk as (? & -> & _).
    apply list_elem_of_fmap in Hin as (? & [= <- _] & _). done.
Qed.

Lemma fold_dict_add {K} `{EqDecision K} (l acc : list K) :
  NoDup (acc ++ l) -> fold_left (fun ks y => dict_add y ks) l acc = acc ++ l.
Proof.
  revert acc. induction l as [|y l IH]; intros acc Hnd; simpl.
  - by rewrite app_nil_r.
  - unfold dict_add at 2. rewrite bool_decide_eq_false_2.
    + rewrite IH; rewrite <- (assoc_L (++)); done.
    + apply NoDup_app in Hnd as (_ & Hd & _). intros Hy.
      apply (Hd _ Hy). left.
Qed.

Lemma epsilon_keys_calls : epsilon_keys g = epsilon_calls g.
Proof.
  unfold epsilon_keys. rewrite fold_dict_add; [done|].
  apply epsilon_calls_NoDup.
Qed.

Lemma elem_of_epsilon_keys T v : (T, v) ∈ epsilon_keys g <-> tv_edge g T v.
Proof. rewrite epsilon_keys_calls. apply elem_of_epsilon_calls. Qed.

Lemma epsilon_keys_NoDup : NoDup (epsilon_keys g).
Proof. rewrite epsilon_keys_calls. apply epsilon_calls_NoDup. Qed.

(** Any enumeration of the T-V edges is a rearrangement of the keys. *)
Lemma epsilon_keys_Permutation (E : list (string * string)) :
  NoDup E -> (forall T v, (T, v) ∈ E <-> tv_edge g T v) ->
  epsilon_keys g ≡ₚ E.
Proof.
  intros HE Hin. apply NoDup_Permutation; [apply epsilon_keys_NoDup|done|].
  intros [T v]. by rewrite elem_of_epsilon_keys, Hin.
Qed.

(** Lines 137-149 select the keys whose trip contains the request. *)
Lemma relevant_edges_filter (rid : string) :
  flat_map (fun trip =>
              filter (fun k => k ∈ epsilon_keys g)
                     (map (pair trip) (neighbors g trip)))
           (filter (fun trip => type_of g trip = trip_t /\
                                rid ∈ requests_of g trip)
                   (rtv_nodes g))
  = filter (fun k => rid ∈ requests_of g k.1) (epsilon_keys g).
Proof.
  assert (forall T, T ∈ rtv_nodes g -> type_of g T = trip_t ->
            filter (fun k => k ∈ epsilon_keys g)
                   (map (pair T) (neighbors g T))
            = map (pair T)
                  (filter (fun n => type_of g n = vehicle_t)
                          (neighbors g T))) as Hchunk.
  { intros T HT Htype.
    assert (forall nb, (forall v, v ∈ nb -> v ∈ neighbors g T) ->
              filter (fun k => k ∈ epsilon_keys g) (map (pair T) nb)
              = map (pair T) (filter (fun n => type_of g n = vehicle_t) nb))
      as H; [|by apply H].
    induction nb as [|v nb IH]; intros Hnb; [done|]. simpl.
    rewrite !filter_cons, IH by (intros; apply Hnb; by right).
    destruct (decide (type_of g v = vehicle_t)) as [Hv|Hv].
    - rewrite decide_True; [done|]. apply elem_of_epsilon_keys.
      split_and!; try done. apply Hnb. left.
    - rewrite decide_False; [done|].
      intros (_ & _ & _ & ?)%elem_of_epsilon_keys. done. }
  transitivity (filter (fun k => rid ∈ requests_of g k.1) (epsilon_calls g));
    [|by rewrite epsilon_keys_calls].
  unfold epsilon_calls.
  assert (forall ns, (forall T, T ∈ ns -> T ∈ rtv_nodes g) ->
    flat_map (fun trip =>
                filter (fun k => k ∈ epsilon_keys g)
                       (map (pair trip) (neighbors g trip)))
             (filter (fun trip => type_of g trip = trip_t /\
                                  rid ∈ requests_of g trip) ns)
    = filter (fun k => rid ∈ requests_of g k.1)
        (flat_map
           (fun trip =>
              if bool_decide (type_of g trip = trip_t) then
                map (pair trip)
                    (filter (fun n => type_of g n = vehicle_t)
                            (neighbors g trip))
              else []) ns)) as H; [|by apply H].
  induction ns as [|T ns IH]; intros Hns; [done|]. simpl.
  rewrite filter_app, filter_cons, <- IH by (intros; apply Hns; by right).
  destruct (decide (type_of g T = trip_t /\ rid ∈ requests_of g T))
    as [[Htype Hr]|Hno].
  - simpl. rewrite bool_decide_eq_true_2 by done.
    rewrite Hchunk by (try done; apply Hns; left). f_equal.
    symmetry. apply filter_all. by intros k (? & -> & _)%list_elem_of_fmap.
  - case_bool_decide as Htype; [|done].
    rewrite (filter_none (fun k => rid ∈ requests_of g k.1)
               (map (pair T) _)); [done|].
    intros k (? & -> & _)%list_elem_of_fmap. simpl. tauto.
Qed.

End IlpKeys.

Section IlpModel.

Variable g : rtv_graph.
Variable vehicles : list vehicle.
Variable requests : list request.
Variable seed : gmap string string.
Variable cost_penalty : Q.

Hypothesis nodes_NoDup : NoDup (rtv_nodes g).
Hypothesis neighbors_NoDup : forall n, NoDup (neighbors g n).
Hypothesis weights :
  forall T v, tv_edge g T v -> is_Some (edge_travel_time g T v).

Implicit Types (x : var -> Q) (k : string * string) (T v : string).

Lemma trip_cost_terms_Some :
  trip_cost_terms g
  = Some (map (fun k => (edge_cost g k, eps k)) (epsilon_keys g)).
Proof.
  unfold trip_cost_terms.
  assert (forall K, (forall k, k ∈ K -> k ∈ epsilon_keys g) ->
    mapM (fun k => c ← edge_travel_time g k.1 k.2; Some (inject_Z c, eps k)) K
    = Some (map (fun k => (edge_cost g k, eps k)) K)) as H; [|by apply H].
  induction K as [|k K IH]; intros HK; [done|]. simpl.
  assert (k ∈ epsilon_keys g) as Hk by (apply HK; left).
  destruct k as [T v]. apply elem_of_epsilon_keys in Hk; [|done..].
  destruct (weights T v Hk) as [c Hc]. unfold edge_cost at 1. simpl.
  rewrite Hc. simpl. rewrite IH by (intros; apply HK; by right). done.
Qed.

Lemma build_model_Some :
  build_model g vehicles requests seed cost_penalty
  = Some (Model
            (map (fun k => (eps k, BINARY)) (epsilon_calls g) ++
             map (fun r => (chi (r_id r), BINARY)) requests)
            (map (fun k => (edge_cost g k, eps k)) (epsilon_keys g) ++
             unserved_penalty_terms requests cost_penalty)
            MINIMIZE
            (map (vehicle_constraint g) vehicles ++
             map (request_constraint g) requests)
            (warm_start g seed)).
Proof. unfold build_model. by rewrite trip_cost_terms_Some. Qed.

Lemma holds_vehicle_constraint x w (E : list (string * string)) :
  epsilon_keys g ≡ₚ E ->
  holds x (vehicle_constraint g w) <->
  (sum_over (fun k => x (eps k)) (filter (fun k => k.2 = v_id w) E) <= 1)%Q.
Proof.
  intros HE. unfold holds, vehicle_constraint. simpl.
  rewrite (value_map x (fun _ => 1%Q) eps).
  rewrite (sum_over_ext _ (fun k => x (eps k))) by (intros; lra).
  by rewrite (sum_over_Permutation _ _ (filter (fun k => k.2 = v_id w) E))
    by (by rewrite HE).
Qed.

Lemma holds_request_constraint x r (E : list (string * string)) :
  epsilon_keys g ≡ₚ E ->
  holds x (request_constraint g r) <->
  (sum_over (fun k => x (eps k))
            (filter (fun k => r_id r ∈ requests_of g k.1) E)
   + x (chi (r_id r)) == 1)%Q.
Proof.
  intros HE. unfold holds, request_constraint. simpl.
  rewrite relevant_edges_filter by done.
  rewrite value_app, (value_map x (fun _ => 1%Q) eps). simpl.
  rewrite (sum_over_ext _ (fun k => x (eps k))) by (intros; lra).
  rewrite (sum_over_Permutation _ _
             (filter (fun k => r_id r ∈ requests_of g k.1) E))
    by (by rewrite HE).
  split; intros H; lra.
Qed.

End IlpModel.

Section Extract.

Variable x : var -> Q.

Definition selected (k : string * string) : Prop :=
  negb (Qle_bool (x (eps k)) (1 # 2)) = true.

Lemma selected_binary k :
  binary (x (eps k)) -> selected k <-> (x (eps k) == 1)%Q.
Proof.
  intros Hb. unfold selected. rewrite negb_true_iff.
  destruct (Qle_bool (x (eps k)) (1 # 2)) eqn:Hle.
  - apply Qle_bool_iff in Hle. split; [done|]. intros H1.
    rewrite H1 in Hle. by compute in Hle.
  - split; [intros _|done]. destruct Hb as [Hz|Ho]; [|done].
    assert (Qle_bool (x (eps k)) (1 # 2) = true); [|congruence].
    apply Qle_bool_iff. rewrite Hz. by compute.
Qed.

Lemma fold_extract_lookup (K : list (string * string))
    (a0 : gmap string string) v T :
  (forall k k', k ∈ K -> k' ∈ K -> k.2 = k'.2 ->
     selected k -> selected k' -> k = k') ->
  fold_left (fun optimal_assignment edge =>
               if negb (Qle_bool (x (eps edge)) (1 # 2))
               then <[edge.2 := edge.1]> optimal_assignment
               else optimal_assignment) K a0 !! v = Some T
  <->
  ((T, v) ∈ K /\ selected (T, v)) \/
  ((forall k, k ∈ K -> k.2 = v -> ~ selected k) /\ a0 !! v = Some T).
Proof.
  revert a0. induction K as [|k K IH]; intros a0 Huniq; simpl.
  { split; [intros; right; split; [by intros ? ?%elem_of_nil|done]|].
    intros [[?%elem_of_nil _]|[_ ?]]; done. }
  rewrite IH by (intros; apply Huniq; try done; by right). clear IH.
  destruct k as [T0 v0]. simpl.
  destruct (negb (Qle_bool (x (eps (T0, v0))) (1 # 2))) eqn:Hsel.
  - destruct (decide (v0 = v)) as [->|Hv].
    + rewrite lookup_insert_eq. split.
      * intros [[Hin Hs]|[Hnone [= <-]]]; left.
        -- split; [by right|done].
        -- split; [left|done].
      * intros [[Hin Hs]|[Hnone _]].
        -- assert ((T, v) = (T0, v)) as [= ->].
           { apply Huniq; [done|left|done..]. }
           destruct (decide (Exists (fun k' => k'.2 = v /\ selected k') K))
             as [Hex|Hno].
           ++ apply Exists_exists in Hex as (k' & Hk' & ? & ?).
              assert (k' = (T0, v)) as ->.
              { apply Huniq; [by right|left|done..]. }
              left. by split.
           ++ right. split; [|done].
              intros k' Hk' ? ?. apply Hno, Exists_exists. eauto.
        -- destruct (Hnone (T0, v)); [left|done..].
    + rewrite lookup_insert_ne by done. split.
      * intros [[Hin Hs]|[Hnone Ha]]; [left|right].
        -- split; [by right|done].
        -- split; [|done].
           intros k' [->|?]%elem_of_cons; [done|by apply Hnone].
      * intros [[[[= -> ->]|Hin]%elem_of_cons Hs]|[Hnone Ha]];
          [done|left|right].
        -- done.
        -- split; [|done]. intros k' ?. apply Hnone. by right.
  - split.
    + intros [[Hin Hs]|[Hnone Ha]]; [left|right].
      * split; [by right|done].
      * split; [|done]. intros k' [->|?]%elem_of_cons; [|by apply Hnone].
        intros _ Hs. unfold selected in Hs. congruence.
    + intros [[[[= -> ->]|Hin]%elem_of_cons Hs]|[Hnone Ha]]; [|left|right].
      * unfold selected in Hs. congruence.
      * done.
      * split; [|done]. intros k' ?. apply Hnone. by right.
Qed.

End Extract.

(** C9.  On an RTV graph (nodes and neighbours without repetition, every
    T-V edge with a cost), [assignment_ilp] builds a binary program, to be
    minimized: every variable of the model has the type [BINARY], there is a
    variable [epsilon T v] exactly for the T-V edges and a variable [chi r]
    exactly for the requests, and the sense of the objective is [MINIMIZE].
    Its objective is [sum cost(T, v) * epsilon(T, v) + P * sum chi(r)]; its
    constraints say that for every vehicle the sum of its [epsilon] is at
    most 1 and that for every request the sum of [epsilon] over the pairs
    whose trip contains it, plus its [chi], is 1.  The points of the model
    are therefore the points of the program of the specification, and its
    optima are the points that minimize the objective of the
    specification.  Once the solver has given a point of the model, the
    assignment returned maps [v] to [T] exactly when [epsilon T v] is 1.
    The sums range over any enumeration [E], without repetition, of the T-V
    edges. *)
Theorem assignment_ilp_formulation g vehicles requests seed cost_penalty
    (E : list (string * string)) :
  NoDup (rtv_nodes g) ->
  (forall n, NoDup (neighbors g n)) ->
  (forall T v, tv_edge g T v -> is_Some (edge_travel_time g T v)) ->
  NoDup E ->
  (forall T v, (T, v) ∈ E <-> tv_edge g T v) ->
  exists m,
    build_model g vehicles requests seed cost_penalty = Some m /\
    (forall y t, (y, t) ∈ variables m -> t = BINARY) /\
    (forall T v, (epsilon T v, BINARY) ∈ variables m <-> tv_edge g T v) /\
    (forall r, (chi r, BINARY) ∈ variables m <-> r ∈ map r_id requests) /\
    model_sense m = MINIMIZE /\
    (forall x,
       value x (objective m)
       == sum_over (fun k => edge_cost g k * x (eps k)) E
          + cost_penalty * sum_over (fun r => x (chi (r_id r))) requests)%Q /\
    (forall x,
       Forall (holds x) (constraints m) <->
       (forall w, w ∈ vehicles ->
          (sum_over (fun k => x (eps k)) (filter (fun k => k.2 = v_id w) E)
           <= 1)%Q) /\
       (forall r, r ∈ requests ->
          (sum_over (fun k => x (eps k))
                    (filter (fun k => r_id r ∈ requests_of g k.1) E)
           + x (chi (r_id r)) == 1)%Q)) /\
    (forall x, feasible m x <-> program_point g vehicles requests E x) /\
    (forall x,
       optimal m x <->
       program_minimum g vehicles requests cost_penalty E x) /\
    (forall optimize,
       feasible m (optimize m) ->
       (forall T v, tv_edge g T v -> v ∈ map v_id vehicles) ->
       exists a,
         assignment_ilp g vehicles requests seed cost_penalty optimize
           = Some a /\
         forall v T,
           a !! v = Some T <->
           tv_edge g T v /\ (optimize m (epsilon T v) == 1)%Q).
Proof.
  intros Hnodes Hnb Hw HE Hin.
  pose proof (epsilon_keys_Permutation g Hnodes Hnb E HE Hin) as HK.
  eexists. split; [by apply build_model_Some|]. simpl.
  set (vars := map (fun k => (eps k, BINARY)) (epsilon_calls g) ++
               map (fun r => (chi (r_id r), BINARY)) requests).
  set (obj := map (fun k => (edge_cost g k, eps k)) (epsilon_keys g) ++
              unserved_penalty_terms requests cost_penalty).
  set (cons := map (vehicle_constraint g) vehicles ++
               map (request_constraint g) requests).
  assert (forall x,
    Forall (holds x) cons <->
    (forall w, w ∈ vehicles ->
       (sum_over (fun k => x (eps k)) (filter (fun k => k.2 = v_id w) E)
        <= 1)%Q) /\
    (forall r, r ∈ requests ->
       (sum_over (fun k => x (eps k))
                 (filter (fun k => r_id r ∈ requests_of g k.1) E)
        + x (chi (r_id r)) == 1)%Q)) as Hcons.
  { intros x. unfold cons. rewrite Forall_app, !Forall_fmap, !Forall_forall.
    split; intros [H1 H2]; split.
    - intros w Hw'. by apply (holds_vehicle_constraint g), H1.
    - intros r Hr. by apply (holds_request_constraint g), H2.
    - intros w Hw'. by apply (holds_vehicle_constraint g _ _ E), H1.
    - intros r Hr. by apply (holds_request_constraint g Hnodes Hnb _ _ E), H2. }
  assert (forall y t, (y, t) ∈ vars ->
            t = BINARY /\
            ((exists k, k ∈ E /\ y = eps k) \/
             (exists r, r ∈ requests /\ y = chi (r_id r)))) as Hvars.
  { intros y t. unfold vars. rewrite elem_of_app, !list_elem_of_fmap.
    intros [([T v] & [= -> ->] & Hk)|(r & [= -> ->] & Hr)].
    - split; [done|]. left. exists (T, v). split; [|done].
      apply Hin. by apply elem_of_epsilon_calls.
    - split; [done|]. right. eauto. }
  assert (forall T v, (epsilon T v, BINARY) ∈ vars <-> tv_edge g T v)
    as Heps.
  { intros T v. unfold vars. rewrite elem_of_app, !list_elem_of_fmap.
    rewrite <- elem_of_epsilon_calls. split.
    - intros [([T' v'] & [= -> ->] & ?)|(r & [=] & _)]. done.
    - intros ?. left. by exists (T, v). }
  assert (forall r, (chi r, BINARY) ∈ vars <-> r ∈ map r_id requests)
    as Hchi.
  { intros r. unfold vars. rewrite elem_of_app, !list_elem_of_fmap. split.
    - intros [([T' v'] & [=] & ?)|(r' & [= ->] & ?)]. eauto.
    - intros (r' & -> & ?). right. eauto. }
  assert (forall x,
    value x obj
    == sum_over (fun k => edge_cost g k * x (eps k)) E
       + cost_penalty * sum_over (fun r => x (chi (r_id r))) requests)%Q
    as Hobj.
  { intros x. unfold obj. rewrite value_app, (value_map x (edge_cost g) eps).
    unfold unserved_penalty_terms.
    rewrite (value_map x (fun _ => cost_penalty) (fun r => chi (r_id r))).
    rewrite sum_over_scale, (sum_over_Permutation _ _ _ HK). lra. }
  assert (forall x,
    feasible (Model vars obj MINIMIZE cons (warm_start g seed)) x <->
    program_point g vehicles requests E x) as Hfeas.
  { intros x. unfold feasible, program_point. simpl. rewrite Hcons. split.
    - intros (Hadm & Hv & Hr). split_and!; [| |done..].
      + intros [T v] Hk. apply (Hadm _ BINARY), Heps. by apply Hin.
      + intros r Hr'. apply (Hadm _ BINARY), Hchi.
        apply list_elem_of_fmap. eauto.
    - intros (Hbe & Hbc & Hv & Hr). split; [|done].
      intros y t [-> [(k & Hk & ->)|(r & Hr' & ->)]]%Hvars; simpl; auto. }
  split_and!; try done.
  - intros y t Hy. by apply Hvars in Hy as [-> _].
  - intros x. unfold optimal, program_minimum, program_objective. simpl.
    rewrite Hfeas. split.
    + intros [Hx Hmin]. split; [done|]. intros x' Hx'.
      rewrite <- !Hobj. by apply Hmin, Hfeas.
    + intros [Hx Hmin]. split; [done|]. intros x' Hx'%Hfeas.
      rewrite !Hobj. by apply Hmin.
  - intros optimize Hpoint Hcover.
    apply Hfeas in Hpoint as (Hbin & _ & Hveh & _).
    unfold assignment_ilp. rewrite build_model_Some by done. simpl.
    eexists. split; [done|]. intros v T. unfold extract.
    fold vars obj cons.
    set (m := Model _ _ _ _ _) in *. set (x := optimize m) in *.
    assert (forall k, k ∈ epsilon_keys g -> binary (x (eps k))) as Hbin'.
    { intros k Hk. apply Hbin. by rewrite <- HK. }
    rewrite (fold_extract_lookup x).
    + rewrite lookup_empty. split.
      * intros [[Hk Hs]|[_ ?]]; [|done].
        split; [by apply (elem_of_epsilon_keys g)|].
        apply (selected_binary x (T, v)); [by apply Hbin'|done].
      * intros [Hk H1]. left.
        apply (elem_of_epsilon_keys g) in Hk; [|done..].
        split; [done|]. apply selected_binary; [by apply Hbin'|done].
    + intros k k' Hk Hk' Heq Hs Hs'.
      assert (k.2 ∈ map v_id vehicles) as Hveh'.
      { destruct k as [T0 v0]. apply (Hcover T0).
        by apply (elem_of_epsilon_keys g). }
      apply list_elem_of_fmap in Hveh' as (w & Hw1 & Hw2).
      specialize (Hveh w Hw2).
      eapply (sum_over_at_most_one (fun k => x (eps k))
                (filter (fun k => k.2 = v_id w) E)).
      * by apply NoDup_filter.
      * intros c [_ Hc]%list_elem_of_filter. by apply Hbin.
      * done.
      * apply list_elem_of_filter. split; [done|by rewrite <- HK].
      * apply list_elem_of_filter. split; [congruence|by rewrite <- HK].
      * apply selected_binary; [by apply Hbin'|done].
      * apply selected_binary; [by apply Hbin'|done].
Qed.

Lemma rtv_scenario_neighbors_NoDup n : NoDup (neighbors RtvScenario.rtv n).
Proof.
  simpl. unfold RtvScenario.neighbors.
  repeat case_bool_decide; apply (bool_decide_unpack _); vm_compute;
    reflexivity.
Qed.

Lemma rtv_scenario_weights T v :
  tv_edge RtvScenario.rtv T v ->
  is_Some (edge_travel_time RtvScenario.rtv T v).
Proof.
  intros H. apply elem_of_epsilon_calls in H. vm_compute in H.
  repeat (apply elem_of_cons in H as [[= -> ->]|H]);
    [..|by apply elem_of_nil in H]; vm_compute; eauto.
Qed.

Example assignment_ilp_example :
  assignment_ilp RtvScenario.rtv RtvScenario.fleet RtvScenario.batch
    {[ "v2" := "tB"; "v1" := "tA" ]} 1000
    (fun _ y =>
       if bool_decide (y = epsilon "tA" "v1" \/ y = epsilon "tB" "v2")
       then 1 else 0)%Q
  = Some {[ "v2" := "tB"; "v1" := "tA" ]}.
Proof. vm_compute. reflexivity. Qed.

Lemma assignment_ilp_formulation_witness :
  exists m,
    build_model RtvScenario.rtv RtvScenario.fleet RtvScenario.batch
      {[ "v2" := "tB"; "v1" := "tA" ]} 1000 = Some m /\
    (forall y t, (y, t) ∈ variables m -> t = BINARY) /\
    (forall T v,
       (epsilon T v, BINARY) ∈ variables m <-> tv_edge RtvScenario.rtv T v) /\
    (forall r,
       (chi r, BINARY) ∈ variables m <-> r ∈ map r_id RtvScenario.batch) /\
    model_sense m = MINIMIZE /\
    (forall x,
       value x (objective m)
       == sum_over (fun k => edge_cost RtvScenario.rtv k * x (eps k))
            (epsilon_keys RtvScenario.rtv)
          + 1000 * sum_over (fun r => x (chi (r_id r))) RtvScenario.batch)%Q /\
    (forall x,
       Forall (holds x) (constraints m) <->
       (forall w, w ∈ RtvScenario.fleet ->
          (sum_over (fun k => x (eps k))
                    (filter (fun k => k.2 = v_id w)
                            (epsilon_keys RtvScenario.rtv))
           <= 1)%Q) /\
       (forall r, r ∈ RtvScenario.batch ->
          (sum_over (fun k => x (eps k))
                    (filter (fun k => r_id r ∈ requests_of RtvScenario.rtv k.1)
                            (epsilon_keys RtvScenario.rtv))
           + x (chi (r_id r)) == 1)%Q)) /\
    (forall x,
       feasible m x <->
       program_point RtvScenario.rtv RtvScenario.fleet RtvScenario.batch
         (epsilon_keys RtvScenario.rtv) x) /\
    (forall x,
       optimal m x <->
       program_minimum RtvScenario.rtv RtvScenario.fleet RtvScenario.batch
         1000 (epsilon_keys RtvScenario.rtv) x) /\
    (forall optimize,
       feasible m (optimize m) ->
       (forall T v, tv_edge RtvScenario.rtv T v ->
          v ∈ map v_id RtvScenario.fleet) ->
       exists a,
         assignment_ilp RtvScenario.rtv RtvScenario.fleet RtvScenario.batch
           {[ "v2" := "tB"; "v1" := "tA" ]} 1000 optimize = Some a /\
         forall v T,
           a !! v = Some T <->
           tv_edge RtvScenario.rtv T v /\ (optimize m (epsilon T v) == 1)%Q).
Proof.
  apply (assignment_ilp_formulation RtvScenario.rtv RtvScenario.fleet
           RtvScenario.batch {[ "v2" := "tB"; "v1" := "tA" ]} 1000
           (epsilon_keys RtvScenario.rtv)).
  - apply (bool_decide_unpack _). vm_compute. reflexivity.
  - apply rtv_scenario_neighbors_NoDup.
  - apply rtv_scenario_weights.
  - apply (bool_decide_unpack _). vm_compute. reflexivity.
  - intros T v. apply elem_of_epsilon_keys.
    + apply (bool_decide_unpack _). vm_compute. reflexivity.
    + apply rtv_scenario_neighbors_NoDup.
Defined.

(** * Further properties of [travel] *)

(** The optimality of [travel] for an empty vehicle, on two requests of the
    triangle. *)

Lemma travel_optimal_for_empty_vehicle_witness :
  (exists seq z,
     travel Scenario.empty_at_A [Scenario.q1; Scenario.q2] Scenario.triangle
            2 300 = (Some (Stops seq), Fin z) /\
     spec_feasible Scenario.empty_at_A [Scenario.q1; Scenario.q2]
       Scenario.triangle 2 300 seq /\
     spec_cost Scenario.empty_at_A Scenario.triangle seq = Some z /\
     forall seq' z',
       spec_feasible Scenario.empty_at_A [Scenario.q1; Scenario.q2]
         Scenario.triangle 2 300 seq' ->
       spec_cost Scenario.empty_at_A Scenario.triangle seq' = Some z' ->
       z <= z')
  \/
  (travel Scenario.empty_at_A [Scenario.q1; Scenario.q2] Scenario.triangle
          2 300 = (None, Inf) /\
   forall seq z,
     spec_feasible Scenario.empty_at_A [Scenario.q1; Scenario.q2]
       Scenario.triangle 2 300 seq ->
     spec_cost Scenario.empty_at_A Scenario.triangle seq <> Some z).
Proof.
  apply (travel_optimal_for_empty_vehicle Scenario.empty_at_A
           [Scenario.q1; Scenario.q2] Scenario.triangle 2 300).
  - reflexivity.
  - discriminate.
  - vm_compute. discriminate.
  - apply (bool_decide_unpack _). vm_compute. reflexivity.
Defined.

(** X2.  A stop sequence that [travel] returns is an ordering of the stops
    it prepared: one drop-off for each passenger of the vehicle, one pickup
    and one drop-off for each new request, nothing else and nothing twice.
    The cost returned with it is finite and is the sum of the shortest travel
    times of its legs, from the position of the vehicle; in particular every
    leg has a path. *)
Theorem travel_returns_ordering_and_cost vehicle new_requests graph
    max_capacity max_delay seq c :
  travel vehicle new_requests graph max_capacity max_delay
    = (Some (Stops seq), c) ->
  seq ≡ₚ map drop_off (trip_set vehicle) ++
         map pick new_requests ++ map drop_off new_requests /\
  exists z, c = Fin z /\
            path_time graph (q_v vehicle) (map s_node seq) = Some z.
Proof.
  intros (z & -> & Hacc & _)%travel_returns_accepted.
  split; [by destruct Hacc as (? & _)|].
  exists z. split; [done|]. by apply (accepted_cost _ _ _ _ _ _ _ Hacc).
Qed.

Lemma travel_returns_ordering_and_cost_witness :
  [pick Scenario.q1; pick Scenario.q2;
   drop_off Scenario.q1; drop_off Scenario.q2]
    ≡ₚ map drop_off (trip_set Scenario.empty_at_A) ++
       map pick [Scenario.q1; Scenario.q2] ++
       map drop_off [Scenario.q1; Scenario.q2] /\
  exists z, Fin 120 = Fin z /\
            path_time Scenario.triangle (q_v Scenario.empty_at_A)
              (map s_node [pick Scenario.q1; pick Scenario.q2;
                           drop_off Scenario.q1; drop_off Scenario.q2])
            = Some z.
Proof.
  apply (travel_returns_ordering_and_cost Scenario.empty_at_A
           [Scenario.q1; Scenario.q2] Scenario.triangle 2 300).
  vm_compute. reflexivity.
Defined.

(** ** Relaxing the capacity or the delay *)

Section Relax.

Variable vehicle : vehicle.
Variable new_requests : list request.
Variable graph : graph.
Variables max_capacity max_capacity' max_delay max_delay' : Z.

Hypothesis capacity_le : max_capacity <= max_capacity'.
Hypothesis delay_le : max_delay <= max_delay'.

Lemma on_time_relax t q p :
  on_time graph max_delay t q p -> on_time graph max_delay' t q p.
Proof.
  intros H i s Hs. destruct (H i s Hs) as (a & Ha & Hle).
  exists a. split; [done|]. unfold deadline in *. destruct (s_type s); lia.
Qed.

Lemma walk_relax p t q acc c :
  walk graph max_delay p t q acc = Some c ->
  walk graph max_delay' p t q acc = Some c.
Proof.
  rewrite !walk_iff. intros [Hon ?]. split; [|done]. by apply on_time_relax.
Qed.

Lemma is_valid_permutation_relax p :
  is_valid_permutation vehicle new_requests max_capacity p = true ->
  is_valid_permutation vehicle new_requests max_capacity' p = true.
Proof.
  unfold is_valid_permutation. destruct (trip_set vehicle) as [|o O] eqn:HO.
  - rewrite !valid_empty_iff. intros H pre s post E.
    specialize (H pre s post E). unfold step_empty in *.
    destruct (s_type s); [lia|done].
  - rewrite !valid_onboard_iff. intros H pre s post E.
    specialize (H pre s post E). unfold step_onboard in *.
    unfold min_dropoffs_before_new_pickups in *.
    destruct (s_type s); [lia|done].
Qed.

Lemma accepted_relax p z :
  accepted vehicle new_requests graph max_capacity max_delay p z ->
  accepted vehicle new_requests graph max_capacity' max_delay' p z.
Proof.
  intros (? & ? & ?). split_and!; [done|..].
  - by apply is_valid_permutation_relax.
  - by apply walk_relax.
Qed.

End Relax.

(** X3.  [travel] is monotone in [max_capacity] and in [max_delay]: if it
    returns a stop sequence, then with a capacity and a delay that are at
    least as large it returns a stop sequence again, at a cost that is not
    higher. *)
Theorem travel_relaxed_parameters vehicle new_requests graph
    max_capacity max_capacity' max_delay max_delay' seq z :
  max_capacity <= max_capacity' ->
  max_delay <= max_delay' ->
  travel vehicle new_requests graph max_capacity max_delay
    = (Some (Stops seq), Fin z) ->
  exists seq' z',
    travel vehicle new_requests graph max_capacity' max_delay'
      = (Some (Stops seq'), Fin z') /\ z' <= z.
Proof.
  intros Hcap Hdel Ht.
  assert (new_requests <> []) as HN.
  { intros ->. unfold travel in Ht. by destruct (trip_set vehicle). }
  apply travel_returns_accepted in Ht as (z0 & [= <-] & Hacc & _).
  eapply accepted_relax in Hacc; [|done..].
  destruct (travel_total vehicle new_requests graph max_capacity' max_delay' HN)
    as [Hnone | (seq' & z' & Hsome)].
  - pose proof (proj1 (travel_infeasible_iff _ _ _ _ _ HN) Hnone) as Hno.
    by destruct (Hno seq z).
  - exists seq', z'. split; [done|].
    apply travel_returns_accepted in Hsome as (z1 & [= <-] & _ & Hmin).
    by apply (Hmin seq).
Qed.

Lemma travel_relaxed_parameters_witness :
  exists seq' z',
    travel Scenario.empty_at_A [Scenario.q1; Scenario.q2] Scenario.triangle
           3 400 = (Some (Stops seq'), Fin z') /\ z' <= 120.
Proof.
  apply (travel_relaxed_parameters Scenario.empty_at_A
           [Scenario.q1; Scenario.q2] Scenario.triangle 2 3 300 400
           [pick Scenario.q1; pick Scenario.q2;
            drop_off Scenario.q1; drop_off Scenario.q2]).
  - lia.
  - lia.
  - vm_compute. reflexivity.
Defined.

(** ** One request offered to an empty vehicle *)

Lemma permutations_two {A} (a b : A) : permutations [a; b] = [[a; b]; [b; a]].
Proof. reflexivity. Qed.

(** X4.  The call that [generate_rv_graph] makes for an empty vehicle, in
    closed form: with one new request, an empty vehicle is given the trip
    "pick up, drop off", at the cost of the two legs, exactly when it has a
    seat, both legs have a path, the origin is reached by the latest pickup
    time and the destination by the earliest drop-off time plus the delay;
    in every other case the answer is INFEASIBLE. *)
Theorem travel_one_request_empty_vehicle vehicle r graph max_capacity
    max_delay :
  trip_set vehicle = [] ->
  travel vehicle [r] graph max_capacity max_delay =
  match graph (q_v vehicle) (o_r r), graph (o_r r) (d_r r) with
  | Some a, Some b =>
      if (1 <=? max_capacity) && (t_v vehicle + a <=? t_r_pl r) &&
         (t_v vehicle + a + b <=? t_r_star r + max_delay)
      then (Some (Stops [pick r; drop_off r]), Fin (a + b))
      else (None, Inf)
  | _, _ => (None, Inf)
  end.
Proof.
  intros HO. unfold travel, search, RoadNetwork.stops. rewrite HO. simpl map.
  simpl app. rewrite permutations_two.
  assert (is_valid_permutation vehicle [r] max_capacity
            [Stop pickup (o_r r) r; Stop dropoff (d_r r) r]
          = (1 <=? max_capacity)) as Hv1.
  { unfold is_valid_permutation. rewrite HO. simpl.
    destruct (Z.gtb_spec (0 + 1) (0 + max_capacity));
      destruct (Z.leb_spec 1 max_capacity); try lia; try done.
    rewrite bool_decide_eq_true_2 by set_solver. done. }
  assert (is_valid_permutation vehicle [r] max_capacity
            [Stop dropoff (d_r r) r; Stop pickup (o_r r) r] = false) as Hv2.
  { unfold is_valid_permutation. rewrite HO. simpl.
    rewrite bool_decide_eq_false_2 by set_solver. done. }
  rewrite filter_cons, Hv1, filter_cons, Hv2, filter_nil.
  destruct (Z.leb_spec 1 max_capacity) as [Hc|Hc].
  2:{ rewrite decide_False by done. rewrite decide_False by done. simpl.
      by destruct (graph (q_v vehicle) (o_r r)), (graph (o_r r) (d_r r)). }
  rewrite decide_True by done. rewrite decide_False by done.
  simpl. unfold consider. simpl.
  destruct (graph (q_v vehicle) (o_r r)) as [a|]; [|done].
  destruct (Z.gtb_spec (t_v vehicle + a) (t_r_pl r));
    destruct (Z.leb_spec (t_v vehicle + a) (t_r_pl r)); try lia; simpl.
  { by destruct (graph (o_r r) (d_r r)). }
  destruct (graph (o_r r) (d_r r)) as [b|]; [|done].
  destruct (Z.gtb_spec (t_v vehicle + a + b) (t_r_star r + max_delay));
    destruct (Z.leb_spec (t_v vehicle + a + b) (t_r_star r + max_delay));
    try lia; simpl; done.
Qed.

Lemma travel_one_request_empty_vehicle_witness :
  travel Scenario.empty_at_A [Scenario.q1] Scenario.line 2 60 =
  match Scenario.line (q_v Scenario.empty_at_A) (o_r Scenario.q1),
        Scenario.line (o_r Scenario.q1) (d_r Scenario.q1) with
  | Some a, Some b =>
      if (1 <=? 2) && (t_v Scenario.empty_at_A + a <=? t_r_pl Scenario.q1) &&
         (t_v Scenario.empty_at_A + a + b <=? t_r_star Scenario.q1 + 60)
      then (Some (Stops [pick Scenario.q1; drop_off Scenario.q1]),
            Fin (a + b))
      else (None, Inf)
  | _, _ => (None, Inf)
  end.
Proof.
  apply (travel_one_request_empty_vehicle Scenario.empty_at_A Scenario.q1
           Scenario.line 2 60).
  reflexivity.
Defined.

(** * Further properties of [generate_rv_graph] *)

(** ** Pairs of [itertools.combinations] *)

Lemma elem_of_combinations2 {A} (l : list A) (a b : A) :
  (a, b) ∈ combinations2 l <->
  exists i j, (i < j)%nat /\ l !! i = Some a /\ l !! j = Some b.
Proof.
  induction l as [|x xs IH]; simpl.
  - split; [by intros ?%elem_of_nil|]. by intros (i & j & _ & [=] & _).
  - rewrite elem_of_app, list_elem_of_fmap, IH. split.
    + intros [(y & [= -> ->] & (k & Hk)%list_elem_of_lookup)
             |(i & j & Hij & Hi & Hj)].
      * exists 0%nat, (S k). split_and!; [lia|done..].
      * exists (S i), (S j). split_and!; [lia|done..].
    + intros (i & j & Hij & Hi & Hj).
      destruct i as [|i]; destruct j as [|j]; try lia; simpl in *.
      * left. exists b. split; [congruence|]. by eapply list_elem_of_lookup_2.
      * right. exists i, j. split_and!; [lia|done..].
Qed.

(** ** Properties of edges that the copy and the pruning keep *)

(** [respects P]: [P] only looks at the two ends of an edge, whatever the
    side they are on, and at its attributes. *)
Definition respects (P : edge -> Prop) : Prop :=
  forall a b, same_ends a b -> e_data a = e_data b -> P a -> P b.

Section Kept.

Variable P : edge -> Prop.

Implicit Types (g : rv_graph) (ns : list string).

Lemma copy_Forall g :
  simple (edges g) -> respects P ->
  Forall P (edges g) -> Forall P (edges (copy g)).
Proof.
  intros Hs HP Hok. destruct (copy_inv g Hs) as (_ & Hag & _).
  rewrite Forall_forall in Hag, Hok |- *.
  intros e He. destruct (Hag e He) as (a & Ha & Hae & Hd).
  apply list_elem_of_In, in_flat_map in Ha as (u & _ & Ha).
  apply list_elem_of_In, elem_of_edges_at in Ha as (e1 & He1 & Ht1 & ->).
  rewrite seen_from_data in Hd.
  pose proof (seen_from_same_ends _ _ Ht1) as H1.
  assert (same_ends e1 e) as Hee by eauto using same_ends_trans.
  apply (HP e1 e); [done|done|]. by apply Hok.
Qed.

Lemma prune_fold_Forall top_k ns g :
  Forall P (edges g) -> Forall P (edges (fold_left (prune_node top_k) ns g)).
Proof.
  revert g. induction ns as [|n ns IH]; intros g Hg; simpl; [done|].
  apply IH. rewrite prune_node_edges. rewrite Forall_forall in Hg |- *.
  intros e [_ He]%list_elem_of_filter. by apply Hg.
Qed.

Lemma generate_Forall graph vehicles requests current_time max_capacity
    max_delay flag top_k :
  simple (edges (build graph vehicles requests current_time max_capacity
                   max_delay)) ->
  respects P ->
  Forall P (edges (build graph vehicles requests current_time max_capacity
                     max_delay)) ->
  Forall P (edges (generate_rv_graph graph vehicles requests current_time
                     max_capacity max_delay flag top_k)).
Proof.
  intros Hs HP Hb. unfold generate_rv_graph. simpl. unfold prune_edges.
  apply prune_fold_Forall. by apply copy_Forall.
Qed.

End Kept.

(** ** Where an edge comes from *)

Section Justified.

Variable graph : graph.
Variable vehicles : list vehicle.
Variable requests : list request.
Variable current_time : Z.
Variable max_capacity : Z.
Variable max_delay : Z.

Hypothesis request_ids :
  forall r, r ∈ requests -> startswith_r (r_id r) = true.
Hypothesis vehicle_ids :
  forall v, v ∈ vehicles -> startswith_r (v_id v) = false.

Local Abbreviation build :=
  (build graph vehicles requests current_time max_capacity max_delay).

(** The edge joins a vehicle with a free seat to a request, and carries what
    [travel] answered for the two. *)
Definition vr_justified (e : edge) : Prop :=
  exists v r,
    v ∈ vehicles /\ r ∈ requests /\ passengers v < max_capacity /\
    joins (v_id v) (r_id r) e = true /\
    travel v [r] graph max_capacity max_delay
      = (RvGraph.stops (e_data e), travel_time (e_data e)) /\
    truthy (RvGraph.stops (e_data e)) = true.

(** The edge joins two requests, the first of which comes first in the list,
    for which the test of lines 111-113 holds. *)
Definition rr_justified (e : edge) : Prop :=
  exists r1 r2 w,
    (r1, r2) ∈ combinations2 requests /\
    joins (r_id r1) (r_id r2) e = true /\
    rr_weight graph current_time max_delay r1 r2 = Some w /\
    travel_time (e_data e) = Fin w /\ RvGraph.stops (e_data e) = None.

Definition justified (e : edge) : Prop :=
  match edge_type (e_data e) with
  | rv => vr_justified e
  | rr => rr_justified e
  end.

Lemma justified_respects : respects justified.
Proof.
  intros a b Hab Hd. unfold justified, vr_justified, rr_justified.
  rewrite <- Hd. destruct (edge_type (e_data a)).
  - intros (v & r & ? & ? & ? & Hj & ? & ?). exists v, r.
    split_and!; try done. by rewrite <- (joins_same_ends _ _ a b).
  - intros (r1 & r2 & w & ? & Hj & ? & ? & ?). exists r1, r2, w.
    split_and!; try done. by rewrite <- (joins_same_ends _ _ a b).
Qed.

Lemma joins_rename u v e d :
  joins u v (Edge (e_u e) (e_v e) d) = joins u v e.
Proof. done. Qed.

Lemma vr_request_justified vehicle g r :
  vehicle ∈ vehicles -> r ∈ requests -> passengers vehicle < max_capacity ->
  Forall vr_justified (edges g) ->
  Forall (fun e => edge_type (e_data e) = rv) (edges g) ->
  Forall vr_justified
    (edges (vr_request graph max_capacity max_delay vehicle g r)) /\
  Forall (fun e => edge_type (e_data e) = rv)
    (edges (vr_request graph max_capacity max_delay vehicle g r)).
Proof.
  intros Hv Hr Hp Hj Hk. unfold vr_request.
  destruct (travel vehicle [r] graph max_capacity max_delay)
    as [valid_trip trip_cost] eqn:Ht.
  destruct (truthy valid_trip) eqn:Htruthy; [|done].
  assert (vr_justified (Edge (v_id vehicle) (r_id r)
                          (Attrs trip_cost valid_trip rv))) as Hnew.
  { exists vehicle, r. split_and!; try done. simpl.
    apply joins_iff. by left. }
  assert (forall old, RvGraph.update old (Attrs trip_cost valid_trip rv)
                      = Attrs trip_cost valid_trip rv) as Hup.
  { intros old. unfold update. simpl. by destruct valid_trip. }
  split; simpl.
  - apply put_edge_Forall; [done|done|].
    intros e He Hjoin. rewrite Hup.
    exists vehicle, r. split_and!; try done.
  - apply put_edge_Forall; [done|done|].
    intros e He Hjoin. by rewrite Hup.
Qed.

Lemma vr_phase_justified g0 :
  edges g0 = [] ->
  Forall vr_justified
    (edges (fold_left (vr_vehicle graph requests max_capacity max_delay)
              vehicles g0)) /\
  Forall (fun e => edge_type (e_data e) = rv)
    (edges (fold_left (vr_vehicle graph requests max_capacity max_delay)
              vehicles g0)).
Proof.
  intros H0.
  apply (fold_left_preserves
           (fun g => Forall vr_justified (edges g) /\
                     Forall (fun e => edge_type (e_data e) = rv) (edges g))).
  - intros g v Hv Hg. unfold vr_vehicle.
    destruct (Z.geb_spec (passengers v) max_capacity) as [|Hlt]; [done|].
    apply (fold_left_preserves
             (fun g => Forall vr_justified (edges g) /\
                       Forall (fun e => edge_type (e_data e) = rv) (edges g)));
      [|done].
    intros h r Hr [Hh1 Hh2]. by apply vr_request_justified.
  - rewrite H0. split; constructor.
Qed.

Lemma rr_pair_justified g p :
  p ∈ combinations2 requests ->
  Forall justified (edges g) ->
  Forall justified (edges (rr_pair graph current_time max_delay g p)).
Proof.
  intros Hp Hg. unfold rr_pair.
  destruct (rr_weight graph current_time max_delay p.1 p.2) as [w|] eqn:Hw;
    [|done].
  destruct p as [r1 r2]. simpl in *.
  pose proof Hp as (i & j & _ & Hi & Hj)%elem_of_combinations2.
  apply list_elem_of_lookup_2 in Hi, Hj.
  apply put_edge_Forall; [done|..].
  - exists r1, r2, w. split_and!; try done. apply joins_iff. by left.
  - intros e He Hjoin. rewrite Forall_forall in Hg. specialize (Hg e He).
    unfold justified in *. simpl.
    destruct (edge_type (e_data e)) eqn:Hk.
    + destruct Hg as (v & r & Hv & Hr & _ & Hjv & _).
      apply request_ids in Hi, Hj, Hr. apply vehicle_ids in Hv.
      apply joins_iff in Hjoin, Hjv. naive_solver congruence.
    + destruct Hg as (r1' & r2' & w' & _ & _ & _ & _ & Hs).
      exists r1, r2, w. split_and!; try done; simpl; by rewrite Hs.
Qed.

Lemma build_justified : Forall justified (edges build).
Proof.
  unfold RvGraph.build.
  apply (fold_left_preserves (fun g => Forall justified (edges g))).
  - intros g p Hp Hg. by apply rr_pair_justified.
  - match goal with
    | |- context [fold_left _ vehicles ?g0] =>
        destruct (vr_phase_justified g0 eq_refl) as [H1 H2]
    end.
    rewrite Forall_forall in H1, H2 |- *. intros e He.
    unfold justified. rewrite (H2 e He). by apply H1.
Qed.

End Justified.

(** ** The graph before pruning is a simple graph on the given names *)

Section BuildShape.

Variable graph : graph.
Variable vehicles : list vehicle.
Variable requests : list request.
Variable current_time : Z.
Variable max_capacity : Z.
Variable max_delay : Z.

Local Abbreviation build :=
  (build graph vehicles requests current_time max_capacity max_delay).

Definition names : list string := map r_id requests ++ map v_id vehicles.

Definition shape (g : rv_graph) : Prop :=
  well_formed g /\ NoDup (nodes g) /\
  forall n, n ∈ nodes g <-> n ∈ names.

Lemma add_edge_shape u v d g :
  u ∈ names -> v ∈ names -> shape g -> shape (add_edge u v d g).
Proof.
  intros Hu Hv (Hwf & Hnd & Hn). split_and!.
  - by apply add_edge_well_formed.
  - by apply add_edge_NoDup.
  - intros n. rewrite elem_of_nodes_add_edge, Hn. naive_solver.
Qed.

Lemma build_shape : shape build.
Proof.
  unfold RvGraph.build.
  apply fold_left_preserves.
  { intros g [r1 r2] Hp Hg. unfold rr_pair. simpl.
    destruct (rr_weight _ _ _ _ _); [|done].
    apply elem_of_combinations2 in Hp as (i & j & _ & Hi & Hj).
    apply list_elem_of_lookup_2 in Hi, Hj.
    apply add_edge_shape; [..|done]; unfold names; rewrite elem_of_app;
      left; apply list_elem_of_fmap; eauto. }
  apply fold_left_preserves.
  { intros g v Hv Hg. unfold vr_vehicle.
    destruct (_ >=? _); [done|].
    apply fold_left_preserves; [|done].
    intros h r Hr Hh. unfold vr_request.
    destruct (travel _ _ _ _ _) as [valid_trip trip_cost].
    destruct (truthy valid_trip); [|done].
    apply add_edge_shape; [..|done]; unfold names; rewrite elem_of_app;
      [right|left]; apply list_elem_of_fmap; eauto. }
  split_and!; simpl.
  - split; [done|]. by intros e ?%elem_of_nil.
  - apply (fold_left_preserves (fun ns => NoDup ns)).
    { intros ns v _. apply add_node_NoDup. }
    apply (fold_left_preserves (fun ns => NoDup ns)).
    { intros ns r _. apply add_node_NoDup. }
    constructor.
  - intros n. rewrite !elem_of_fold_add_node. unfold names.
    rewrite elem_of_app. rewrite elem_of_nil. tauto.
Qed.

Lemma copy_shape g : shape g -> shape (copy g).
Proof.
  intros ([Hs Hends] & Hnd & Hn). split_and!.
  - split; [by apply copy_inv|].
    intros e He. destruct (copy_inv g Hs) as (_ & Hag & _).
    rewrite Forall_forall in Hag. destruct (Hag e He) as (a & Ha & Hae & _).
    apply list_elem_of_In, in_flat_map in Ha as (u & _ & Ha).
    apply list_elem_of_In, elem_of_edges_at in Ha as (e1 & He1 & Ht1 & ->).
    pose proof (seen_from_same_ends _ _ Ht1) as H1.
    assert (same_ends e1 e) as Hee by eauto using same_ends_trans.
    destruct (Hends e1 He1) as [Hu Hv].
    apply same_ends_iff in Hee as [[-> ->]|[-> ->]];
      split; by apply copy_nodes.
  - by apply copy_NoDup.
  - intros n. rewrite <- Hn. split; [|apply copy_nodes].
    unfold copy.
    apply (fold_left_preserves (fun h => n ∈ nodes h -> n ∈ nodes g));
      [|done].
    intros h a Ha Hh. rewrite elem_of_nodes_add_edge.
    apply list_elem_of_In, in_flat_map in Ha as (u & Hu & Ha).
    apply list_elem_of_In in Hu.
    apply list_elem_of_In, elem_of_edges_at in Ha as (e1 & He1 & Ht1 & ->).
    destruct (Hends e1 He1) as [H1 H2].
    rewrite seen_from_u. unfold seen_from. simpl.
    case_bool_decide; simpl; naive_solver.
Qed.

Lemma generate_nodes flag top_k :
  nodes (generate_rv_graph graph vehicles requests current_time max_capacity
           max_delay flag top_k)
  = nodes (copy build).
Proof.
  unfold generate_rv_graph. simpl. unfold prune_edges.
  by rewrite prune_fold_nodes.
Qed.

End BuildShape.

(** ** The degree of a node of a simple graph *)

Section Degree.

Implicit Types (g : rv_graph) (es : list edge) (n : string) (e a b : edge).

Lemma seen_from_other n a b :
  touches n a = true -> touches n b = true ->
  e_v (seen_from n a) = e_v (seen_from n b) -> same_ends a b.
Proof.
  intros Ha Hb Heq.
  pose proof (seen_from_same_ends _ _ Ha) as H1.
  pose proof (seen_from_same_ends _ _ Hb) as H2.
  assert (same_ends (seen_from n a) (seen_from n b)) as H3.
  { apply same_ends_iff. left. by rewrite !seen_from_u. }
  eauto using same_ends_trans, same_ends_sym.
Qed.

Lemma edges_at_others_NoDup g n :
  simple (edges g) -> NoDup (map e_v (edges_at g n)).
Proof.
  unfold edges_at. induction (edges g) as [|e es IH]; simpl.
  { constructor. }
  intros [Hnot Hs]. rewrite filter_cons. case_decide as Ht; [|by apply IH].
  simpl. constructor; [|by apply IH].
  intros (x & Hx & (b & -> & [Hb Hin]%list_elem_of_filter)%list_elem_of_fmap)
    %list_elem_of_fmap.
  rewrite Forall_forall in Hnot. apply (Hnot b Hin).
  by apply (seen_from_other n).
Qed.

Lemma edges_at_others g n x :
  well_formed g -> x ∈ map e_v (edges_at g n) -> x ∈ nodes g.
Proof.
  intros [_ Hends] (y & -> & (e & He & Ht & ->)%elem_of_edges_at)
    %list_elem_of_fmap.
  destruct (Hends e He). unfold seen_from. by case_bool_decide.
Qed.

Lemma degree_le g n :
  well_formed g -> (length (edges_at g n) <= length (nodes g))%nat.
Proof.
  intros Hwf. rewrite <- (length_map e_v).
  apply submseteq_length, NoDup_submseteq.
  - apply edges_at_others_NoDup, Hwf.
  - intros x. by apply edges_at_others.
Qed.

Lemma prune_fold_id top_k ns g :
  (forall n, len (own_edges g n) <= top_k) ->
  fold_left (prune_node top_k) ns g = g.
Proof.
  intros Hle. induction ns as [|n ns IH]; simpl; [done|].
  unfold prune_node at 2.
  destruct (Z.gtb_spec (len (own_edges g n)) top_k) as [Hgt|_]; [|done].
  specialize (Hle n). lia.
Qed.

End Degree.

(** ** The statements *)

(** X5.  The nodes of the returned graph are the ids of the requests and of
    the vehicles that were given, each once, whether or not an edge was
    found for them: pruning removes edges, never nodes. *)
Theorem rv_graph_nodes graph vehicles requests current_time max_capacity
    max_delay flag top_k :
  let G := generate_rv_graph graph vehicles requests current_time
             max_capacity max_delay flag top_k in
  NoDup (nodes G) /\
  forall n, n ∈ nodes G <->
            n ∈ map r_id requests \/ n ∈ map v_id vehicles.
Proof.
  intros G. unfold G. rewrite generate_nodes.
  destruct (copy_shape vehicles requests _
              (build_shape graph vehicles requests current_time max_capacity
                 max_delay)) as (_ & Hnd & Hn).
  split; [done|]. intros n. rewrite Hn. unfold names. by rewrite elem_of_app.
Qed.

(** X6.  Every vehicle-request edge of the returned graph joins a vehicle
    that has a free seat ([passengers < max_capacity]) to a request for
    which [travel], called with that one request, returned a stop sequence;
    the attributes ["stops"] and ["travel_time"] of the edge are that
    sequence and its cost.  (Names of requests start with "r", names of
    vehicles do not.) *)
Theorem rv_graph_vr_edge_is_a_trip graph vehicles requests current_time
    max_capacity max_delay flag top_k e :
  (forall r, r ∈ requests -> startswith_r (r_id r) = true) ->
  (forall v, v ∈ vehicles -> startswith_r (v_id v) = false) ->
  e ∈ edges (generate_rv_graph graph vehicles requests current_time
               max_capacity max_delay flag top_k) ->
  edge_type (e_data e) = rv ->
  exists v r seq z,
    v ∈ vehicles /\ r ∈ requests /\ passengers v < max_capacity /\
    joins (v_id v) (r_id r) e = true /\
    travel v [r] graph max_capacity max_delay = (Some (Stops seq), Fin z) /\
    RvGraph.stops (e_data e) = Some (Stops seq) /\
    travel_time (e_data e) = Fin z.
Proof.
  intros Hr Hv He Hk.
  pose proof (generate_Forall _ graph vehicles requests current_time
                max_capacity max_delay flag top_k
                (proj1 (proj1 (build_shape graph vehicles requests
                                 current_time max_capacity max_delay)))
                (justified_respects graph vehicles requests current_time
                   max_capacity max_delay)
                (build_justified graph vehicles requests current_time
                   max_capacity max_delay Hr Hv)) as HG.
  rewrite Forall_forall in HG. specialize (HG e He).
  unfold justified in HG. rewrite Hk in HG.
  destruct HG as (v & r & Hv' & Hr' & Hp & Hj & Ht & Htruthy).
  destruct (travel_total v [r] graph max_capacity max_delay)
    as [Hnone | (seq & z & Hsome)]; [done|..].
  - rewrite Hnone in Ht. injection Ht as H1 H2.
    rewrite <- H1 in Htruthy. by simpl in Htruthy.
  - rewrite Hsome in Ht. injection Ht as H1 H2.
    exists v, r, seq, z. by split_and!.
Qed.

Lemma rv_graph_vr_edge_is_a_trip_witness :
  exists v r seq z,
    v ∈ [Scenario.empty_at_A] /\ r ∈ [Scenario.q1; Scenario.q2] /\
    passengers v < 2 /\
    joins (v_id v) (r_id r)
      (Edge "r1" "v1"
         (Attrs (Fin 60)
            (Some (Stops [pick Scenario.q1; drop_off Scenario.q1])) rv))
      = true /\
    travel v [r] Scenario.triangle 2 300 = (Some (Stops seq), Fin z) /\
    RvGraph.stops
      (e_data (Edge "r1" "v1"
                 (Attrs (Fin 60)
                    (Some (Stops [pick Scenario.q1; drop_off Scenario.q1]))
                    rv)))
      = Some (Stops seq) /\
    travel_time
      (e_data (Edge "r1" "v1"
                 (Attrs (Fin 60)
                    (Some (Stops [pick Scenario.q1; drop_off Scenario.q1]))
                    rv)))
      = Fin z.
Proof.
  apply (rv_graph_vr_edge_is_a_trip Scenario.triangle [Scenario.empty_at_A]
           [Scenario.q1; Scenario.q2] 0 2 300 true 1).
  - intros r Hr. repeat (apply elem_of_cons in Hr as [->|Hr]);
      [..|by apply elem_of_nil in Hr]; reflexivity.
  - intros v Hv. repeat (apply elem_of_cons in Hv as [->|Hv]);
      [..|by apply elem_of_nil in Hv]; reflexivity.
  - apply (bool_decide_unpack _). vm_compute. reflexivity.
  - reflexivity.
Defined.

(** X7.  Every request-request edge of the returned graph joins two of the
    given requests, [r1] before [r2] in the list, for which all five
    shortest-path queries of lines 105-109 succeeded (a missing path for any
    of them, even one that the satisfied test does not use, leaves the pair
    without an edge) and the test of lines 111-113 holds; its
    ["travel_time"] is the travel time between the two origins, and it
    carries no ["stops"]. *)
Theorem rv_graph_rr_edge_passed_the_test graph vehicles requests current_time
    max_capacity max_delay flag top_k e :
  (forall r, r ∈ requests -> startswith_r (r_id r) = true) ->
  (forall v, v ∈ vehicles -> startswith_r (v_id v) = false) ->
  e ∈ edges (generate_rv_graph graph vehicles requests current_time
               max_capacity max_delay flag top_k) ->
  edge_type (e_data e) = rr ->
  exists i j r1 r2 o1o2 d1o2 o2d2 d1d2,
    (i < j)%nat /\ requests !! i = Some r1 /\ requests !! j = Some r2 /\
    joins (r_id r1) (r_id r2) e = true /\
    graph (o_r r1) (o_r r2) = Some o1o2 /\
    graph (d_r r1) (o_r r2) = Some d1o2 /\
    graph (o_r r2) (d_r r2) = Some o2d2 /\
    graph (d_r r1) (d_r r2) = Some d1d2 /\
    rr_test current_time max_delay r1 r2 o1o2 d1o2 o2d2 o1o2 d1d2 = true /\
    travel_time (e_data e) = Fin o1o2 /\
    RvGraph.stops (e_data e) = None.
Proof.
  intros Hr Hv He Hk.
  pose proof (generate_Forall _ graph vehicles requests current_time
                max_capacity max_delay flag top_k
                (proj1 (proj1 (build_shape graph vehicles requests
                                 current_time max_capacity max_delay)))
                (justified_respects graph vehicles requests current_time
                   max_capacity max_delay)
                (build_justified graph vehicles requests current_time
                   max_capacity max_delay Hr Hv)) as HG.
  rewrite Forall_forall in HG. specialize (HG e He).
  unfold justified in HG. rewrite Hk in HG.
  destruct HG as (r1 & r2 & w & Hp & Hj & Hw & Ht & Hs).
  apply elem_of_combinations2 in Hp as (i & j & Hij & Hi & Hj').
  unfold rr_weight in Hw.
  destruct (graph (o_r r1) (o_r r2)) as [o1o2|] eqn:H1; simpl in Hw; [|done].
  destruct (graph (d_r r1) (o_r r2)) as [d1o2|] eqn:H2; simpl in Hw; [|done].
  destruct (graph (o_r r2) (d_r r2)) as [o2d2|] eqn:H3; simpl in Hw; [|done].
  destruct (graph (d_r r1) (d_r r2)) as [d1d2|] eqn:H4; simpl in Hw; [|done].
  destruct (rr_test _ _ _ _ _ _ _ _ _) eqn:Htest; [|done].
  injection Hw as <-.
  exists i, j, r1, r2, o1o2, d1o2, o2d2, d1d2. by split_and!.
Qed.

Lemma rv_graph_rr_edge_passed_the_test_witness :
  exists i j r1 r2 o1o2 d1o2 o2d2 d1d2,
    (i < j)%nat /\ RvScenario.four !! i = Some r1 /\
    RvScenario.four !! j = Some r2 /\
    joins (r_id r1) (r_id r2) (Edge "r1" "r4" (Attrs (Fin 2) None rr))
      = true /\
    RvScenario.line (o_r r1) (o_r r2) = Some o1o2 /\
    RvScenario.line (d_r r1) (o_r r2) = Some d1o2 /\
    RvScenario.line (o_r r2) (d_r r2) = Some o2d2 /\
    RvScenario.line (d_r r1) (d_r r2) = Some d1d2 /\
    rr_test 0 1000 r1 r2 o1o2 d1o2 o2d2 o1o2 d1d2 = true /\
    travel_time (e_data (Edge "r1" "r4" (Attrs (Fin 2) None rr)))
      = Fin o1o2 /\
    RvGraph.stops (e_data (Edge "r1" "r4" (Attrs (Fin 2) None rr))) = None.
Proof.
  apply (rv_graph_rr_edge_passed_the_test RvScenario.line [] RvScenario.four
           0 2 1000 true 1).
  - intros r Hr. unfold RvScenario.four in Hr.
    repeat (apply elem_of_cons in Hr as [->|Hr]);
      [..|by apply elem_of_nil in Hr]; reflexivity.
  - intros v Hv. by apply elem_of_nil in Hv.
  - apply (bool_decide_unpack _). vm_compute. reflexivity.
  - reflexivity.
Defined.

(** X8.  A vehicle without a free seat ([passengers >= max_capacity], for
    every vehicle of that id) is a node of the returned graph with no edge
    at all. *)
Theorem rv_graph_full_vehicle_isolated graph vehicles requests current_time
    max_capacity max_delay flag top_k v0 :
  (forall r, r ∈ requests -> startswith_r (r_id r) = true) ->
  (forall v, v ∈ vehicles -> startswith_r (v_id v) = false) ->
  v0 ∈ vehicles ->
  (forall v, v ∈ vehicles -> v_id v = v_id v0 ->
             max_capacity <= passengers v) ->
  let G := generate_rv_graph graph vehicles requests current_time
             max_capacity max_delay flag top_k in
  v_id v0 ∈ nodes G /\ edges_at G (v_id v0) = [].
Proof.
  intros Hr Hv Hv0 Hfull G. split.
  { unfold G. rewrite generate_nodes. apply copy_nodes.
    apply (build_shape graph vehicles requests current_time max_capacity
             max_delay).
    unfold names. rewrite elem_of_app. right. apply list_elem_of_fmap.
    eauto. }
  pose proof (generate_Forall _ graph vehicles requests current_time
                max_capacity max_delay flag top_k
                (proj1 (proj1 (build_shape graph vehicles requests
                                 current_time max_capacity max_delay)))
                (justified_respects graph vehicles requests current_time
                   max_capacity max_delay)
                (build_justified graph vehicles requests current_time
                   max_capacity max_delay Hr Hv)) as HG.
  fold G in HG. rewrite Forall_forall in HG.
  apply elem_of_nil_inv. intros x (e & He & Ht & ->)%elem_of_edges_at.
  specialize (HG e He). unfold justified in HG.
  apply touches_iff in Ht. pose proof (Hv v0 Hv0) as Hname.
  destruct (edge_type (e_data e)).
  - destruct HG as (v & r & Hv' & Hr' & Hp & Hj & _).
    apply joins_iff in Hj. pose proof (Hr r Hr') as Hrn.
    assert (v_id v = v_id v0) as Heq by naive_solver congruence.
    specialize (Hfull v Hv' Heq). lia.
  - destruct HG as (r1 & r2 & w & Hp & Hj & _).
    apply elem_of_combinations2 in Hp as (i & j & _ & Hi & Hj').
    apply list_elem_of_lookup_2 in Hi, Hj'. apply Hr in Hi, Hj'.
    apply joins_iff in Hj. naive_solver congruence.
Qed.

Lemma rv_graph_full_vehicle_isolated_witness :
  let G := generate_rv_graph Scenario.triangle [Scenario.one_seat_left]
             [Scenario.n1; Scenario.n2] 0 1 300 true 30 in
  v_id Scenario.one_seat_left ∈ nodes G /\
  edges_at G (v_id Scenario.one_seat_left) = [].
Proof.
  apply (rv_graph_full_vehicle_isolated Scenario.triangle
           [Scenario.one_seat_left] [Scenario.n1; Scenario.n2] 0 1 300
           true 30 Scenario.one_seat_left).
  - intros r Hr. repeat (apply elem_of_cons in Hr as [->|Hr]);
      [..|by apply elem_of_nil in Hr]; reflexivity.
  - intros v Hv. repeat (apply elem_of_cons in Hv as [->|Hv]);
      [..|by apply elem_of_nil in Hv]; reflexivity.
  - constructor.
  - intros v Hv. repeat (apply elem_of_cons in Hv as [->|Hv]);
      [..|by apply elem_of_nil in Hv]. intros _. vm_compute. discriminate.
Defined.

(** X9.  If [top_k] is at least the number of requests plus the number of
    vehicles, the pruning step removes nothing: the returned graph is the
    copy of the graph that was built, and has, at every node, the edges that
    were constructed. *)
Theorem rv_graph_large_top_k_keeps_all graph vehicles requests current_time
    max_capacity max_delay flag top_k :
  len requests + len vehicles <= top_k ->
  let G0 := build graph vehicles requests current_time max_capacity
              max_delay in
  let G := generate_rv_graph graph vehicles requests current_time
             max_capacity max_delay flag top_k in
  G = copy G0 /\
  forall kind n e, e ∈ incident G kind n <-> e ∈ incident G0 kind n.
Proof.
  intros Hk G0 G.
  pose proof (build_shape graph vehicles requests current_time max_capacity
                max_delay) as Hshape. fold G0 in Hshape.
  pose proof (copy_shape vehicles requests _ Hshape) as (Hwf & Hnd & Hn).
  assert (G = copy G0) as HG.
  { unfold G, generate_rv_graph. simpl. unfold prune_edges. fold G0.
    apply prune_fold_id. intros n.
    assert (length (nodes (copy G0)) <= length (names vehicles requests))%nat
      as Hnodes.
    { apply submseteq_length, NoDup_submseteq; [done|]. intros x. apply Hn. }
    pose proof (degree_le (copy G0) n Hwf) as Hdeg.
    pose proof (length_filter
                  (fun e => edge_type (e_data e) = own_kind n)
                  (edges_at (copy G0) n)) as Hf.
    unfold names in Hnodes. rewrite length_app, !length_map in Hnodes.
    unfold own_edges, len in *. lia. }
  split; [done|]. intros kind n e. rewrite HG.
  apply copy_incident, Hshape.
Qed.

Lemma rv_graph_large_top_k_keeps_all_witness :
  let G0 := build RvScenario.line [] RvScenario.four 0 2 1000 in
  let G := generate_rv_graph RvScenario.line [] RvScenario.four 0 2 1000
             false 4 in
  G = copy G0 /\
  forall kind n e, e ∈ incident G kind n <-> e ∈ incident G0 kind n.
Proof.
  apply (rv_graph_large_top_k_keeps_all RvScenario.line [] RvScenario.four
           0 2 1000 false 4).
  vm_compute. discriminate.
Defined.

(** * Further properties of [greedy_assignment] *)

Section Absorbing.

Context {X Y : Type} (F : Y -> X -> Y) (raised : Y -> Prop).

Hypothesis absorbs : forall b x, raised b -> raised (F b x).

Lemma fold_left_raised (l : list X) (b : Y) :
  raised b -> raised (fold_left F l b).
Proof.
  revert b. induction l as [|x l IH]; intros b Hb; simpl; [done|].
  by apply IH, absorbs.
Qed.

Lemma fold_left_absorbing (l : list X) (x0 : X) (b : Y) :
  x0 ∈ l -> (forall b', raised (F b' x0)) -> raised (fold_left F l b).
Proof.
  intros Hin Hx0. revert b.
  induction l as [|x l IH]; intros b; [by apply elem_of_nil in Hin|].
  simpl. apply elem_of_cons in Hin as [<-|Hin].
  - by apply fold_left_raised.
  - by apply IH.
Qed.

End Absorbing.

(** An exception of the division. *)
Definition raised {A} (b : result A) : Prop :=
  match b with Ok _ => False | _ => True end.

Lemma try_trip_raised g asg v (b : result best) t :
  raised b -> raised (try_trip g asg v b t).
Proof. by destruct b. Qed.

(** X10.  A trip node without requests makes [greedy_assignment] raise: if
    some vehicle of the list has, among its neighbours, a node of type
    "trip" whose set ["requests"] is empty, the first search divides a cost
    by zero (line 44) and the call ends with an exception of that division,
    whatever else the graph holds: with [ZeroDivisionError] when the costs
    are in the range of the doubles, and otherwise with it or with the
    [OverflowError] of a pair that the search met before. *)
Theorem greedy_assignment_empty_trip_raises g vehicles set_order v t :
  (forall s, set_order s ≡ₚ elements s) ->
  v ∈ vehicles ->
  t ∈ neighbors g (v_id v) ->
  type_of g t = trip_t ->
  requests_of g t = ∅ ->
  (greedy_assignment g vehicles set_order = Some ZeroDivisionError \/
   greedy_assignment g vehicles set_order = Some OverflowError) /\
  (in_double_range g ->
   greedy_assignment g vehicles set_order = Some ZeroDivisionError).
Proof.
  intros Hord Hv Ht Htype Hempty. unfold greedy_assignment.
  assert (v_id v ∈ unassigned_vehicles (initial g vehicles)) as Hin.
  { simpl. apply elem_of_list_to_set, list_elem_of_fmap. exists v.
    split; [done|]. apply list_elem_of_filter. split; [|done].
    destruct (neighbors g (v_id v)); [by apply elem_of_nil in Ht|].
    simpl. lia. }
  revert Hin. generalize (initial g vehicles). intros st Hin.
  destruct (size (unassigned_vehicles st)) as [|n] eqn:Hsz.
  { apply size_empty_iff in Hsz. set_solver. }
  simpl. rewrite bool_decide_eq_false_2 by set_solver.
  assert (raised (find_best g set_order (unassigned_vehicles st)
                    (assigned_requests st))) as Hraised.
  { unfold find_best.
    apply (fold_left_absorbing _ raised) with (x0 := v_id v).
    - intros b x Hb. apply fold_left_raised; [|done].
      intros. by apply try_trip_raised.
    - rewrite Hord. by apply elem_of_elements.
    - intros b. apply (fold_left_absorbing _ raised) with (x0 := t);
        [by intros; apply try_trip_raised|done|].
      intros [[chosen min_cost]| |]; [|done..]. unfold try_trip.
      rewrite bool_decide_eq_true_2 by done. rewrite Hempty.
      rewrite bool_decide_eq_false_2 by set_solver.
      rewrite size_empty. by destruct (edge_travel_time g (v_id v) t). }
  pose proof (find_best_in_range g set_order (unassigned_vehicles st)
                (assigned_requests st)) as Hrange.
  destruct (find_best _ _ _ _) as [?| |]; [done|auto|].
  split; [auto|]. intros Hr. by destruct (Hrange Hr).
Qed.

Lemma greedy_assignment_empty_trip_raises_witness :
  greedy_assignment
    (RTV ["v1"; "t1"]
         (fun n => if bool_decide (n = "t1") then trip_t else vehicle_t)
         (fun _ => ∅)
         (fun n => if bool_decide (n = "v1") then ["t1"] else ["v1"])
         (fun _ _ => Some 10))
    [Scenario.empty_at_A] elements
  = Some ZeroDivisionError.
Proof.
  eapply (greedy_assignment_empty_trip_raises _ _ _
            Scenario.empty_at_A "t1").
  - reflexivity.
  - constructor.
  - constructor.
  - reflexivity.
  - reflexivity.
  - intros v t c [= <-]. vm_compute. reflexivity.
Defined.

(** ** The seeder on any graph *)

Section GreedyAny.

Variable g : rtv_graph.
Variable vehicles : list vehicle.
Variable set_order : gset string -> list string.

Hypothesis set_order_elements : forall s, set_order s ≡ₚ elements s.

Implicit Types (st : state) (a : gmap string string) (v t : string)
  (b : result best).

(** A pair that the seeder may assign. *)
Definition sound_pair v t : Prop :=
  t ∈ neighbors g v /\ type_of g t = trip_t /\
  is_Some (edge_travel_time g v t) /\ requests_of g t <> ∅.

Definition chosen_ok (L : list string) b : Prop :=
  match b with
  | Ok (Some (v, t), _) => v ∈ L /\ sound_pair v t
  | _ => True
  end.

Lemma try_trip_chosen_ok asg L v b t :
  v ∈ L -> t ∈ neighbors g v ->
  chosen_ok L b -> chosen_ok L (try_trip g asg v b t).
Proof.
  intros Hv Ht. unfold try_trip.
  destruct b as [[chosen min_cost]| |]; [|done..].
  intros Hb. case_bool_decide as Htype; [|done].
  case_bool_decide as Hfree; [done|].
  destruct (size (requests_of g t)) as [|n] eqn:Hsz.
  { by destruct (edge_travel_time g v t). }
  destruct (edge_travel_time g v t) as [c|] eqn:Hc.
  - destruct (relative_cost (Some c) (S n)) as [rc| |]; [|done..].
    destruct (qcost_ltb _ _); [|done]. simpl. split; [done|].
    split_and!; [done|done|by rewrite Hc|].
    intros He. rewrite He, size_empty in Hsz. done.
  - simpl. by destruct min_cost.
Qed.

Lemma find_best_chosen_ok un asg :
  chosen_ok (set_order un) (find_best g set_order un asg).
Proof.
  unfold find_best.
  apply (fold_left_preserves (chosen_ok (set_order un))); [|done].
  intros b v Hv Hb.
  apply (fold_left_preserves (chosen_ok (set_order un))); [|done].
  intros b' t Ht Hb'. by apply try_trip_chosen_ok.
Qed.

Definition settled a : Prop :=
  forall v t, a !! v = Some t -> v ∈ map v_id vehicles /\ sound_pair v t.

Lemma loop_returns fuel st :
  (size (unassigned_vehicles st) <= fuel)%nat ->
  (forall v, v ∈ unassigned_vehicles st -> v ∈ map v_id vehicles) ->
  settled (assignment st) ->
  exists res, loop g set_order fuel st = Some res /\
              forall a, res = Ok a -> settled a.
Proof.
  revert st. induction fuel as [|fuel IH]; intros st Hsize Hun Hset.
  - assert (unassigned_vehicles st = ∅) as He.
    { apply leibniz_equiv, size_empty_iff. lia. }
    exists (Ok (assignment st)). simpl.
    rewrite bool_decide_eq_true_2 by done. split; [done|].
    by intros a [= <-].
  - simpl. case_bool_decide as He.
    { exists (Ok (assignment st)). split; [done|]. by intros a [= <-]. }
    pose proof (find_best_chosen_ok (unassigned_vehicles st)
                  (assigned_requests st)) as Hb.
    destruct (find_best _ _ _ _) as [[[[v t]|] q]| |]; simpl in Hb.
    + destruct Hb as [Hv Hpair].
      rewrite set_order_elements in Hv. apply elem_of_elements in Hv.
      destruct (nonempty_string v && nonempty_string t).
      2:{ exists (Ok (assignment st)). split; [done|]. by intros a [= <-]. }
      apply IH; simpl.
      * assert (size (unassigned_vehicles st ∖ {[v]})
                = (size (unassigned_vehicles st) - 1)%nat) as Hs.
        { rewrite size_difference by set_solver.
          by rewrite size_singleton. }
        assert (size (unassigned_vehicles st) <> 0%nat) as Hpos.
        { intros H0%size_empty_iff. set_solver. }
        lia.
      * intros v' Hv'. apply Hun. set_solver.
      * intros v' t'. rewrite lookup_insert. case_decide as Hd.
        -- intros [= <-]. subst v'. split; [by apply Hun|done].
        -- apply Hset.
    + exists (Ok (assignment st)). split; [done|]. by intros a [= <-].
    + exists ZeroDivisionError. split; [done|]. by intros a [=].
    + exists OverflowError. split; [done|]. by intros a [=].
Qed.

End GreedyAny.

(** X11.  On any RTV graph, well formed or not, [greedy_assignment] comes to
    an end (whatever the order in which the set of unassigned vehicles is
    iterated): it returns an assignment or raises an exception of the
    division of line 44.  In a returned assignment every vehicle is a
    vehicle of the list and is given one of its neighbours of type "trip",
    with at least one request, over an edge that has a ["travel_time"]: an
    edge without that attribute costs [inf], which is never below the
    running minimum, so it is never chosen. *)
Theorem greedy_assignment_returns g vehicles set_order :
  (forall s, set_order s ≡ₚ elements s) ->
  exists res,
    greedy_assignment g vehicles set_order = Some res /\
    forall a, res = Ok a ->
      forall v t, a !! v = Some t ->
        v ∈ map v_id vehicles /\ t ∈ neighbors g v /\
        type_of g t = trip_t /\ is_Some (edge_travel_time g v t) /\
        requests_of g t <> ∅.
Proof.
  intros Hord.
  destruct (loop_returns g vehicles set_order Hord
              (size (unassigned_vehicles (initial g vehicles)))
              (initial g vehicles)) as (res & Hres & Hok).
  - lia.
  - intros v. simpl. rewrite elem_of_list_to_set, !list_elem_of_fmap.
    intros (w & -> & [_ Hw]%list_elem_of_filter). eauto.
  - intros v t. simpl. by rewrite lookup_empty.
  - exists res. split; [done|]. intros a Ha v t Hvt.
    destruct (Hok a Ha v t Hvt) as (? & ? & ? & ? & ?). done.
Qed.

Lemma greedy_assignment_returns_witness :
  exists res,
    greedy_assignment RtvScenario.rtv RtvScenario.fleet elements = Some res /\
    forall a, res = Ok a ->
      forall v t, a !! v = Some t ->
        v ∈ map v_id RtvScenario.fleet /\
        t ∈ neighbors RtvScenario.rtv v /\
        type_of RtvScenario.rtv t = trip_t /\
        is_Some (edge_travel_time RtvScenario.rtv v t) /\
        requests_of RtvScenario.rtv t <> ∅.
Proof.
  apply (greedy_assignment_returns RtvScenario.rtv RtvScenario.fleet
           elements).
  reflexivity.
Defined.

(** * Further properties of [assignment_ilp] *)

Section DictKeys.

Context {K : Type} `{EqDecision K}.

Implicit Types (l acc : list K) (x : K).

Lemma elem_of_dict_add x y acc : x ∈ dict_add y acc <-> x ∈ acc \/ x = y.
Proof.
  unfold dict_add. case_bool_decide.
  - naive_solver.
  - rewrite elem_of_app, list_elem_of_singleton. tauto.
Qed.

Lemma dict_add_NoDup y acc : NoDup acc -> NoDup (dict_add y acc).
Proof.
  intros Hnd. unfold dict_add. case_bool_decide; [done|].
  apply NoDup_app. split_and!; [done| |apply NoDup_singleton].
  intros x Hx ->%list_elem_of_singleton. done.
Qed.

Lemma elem_of_fold_dict_add l acc x :
  x ∈ fold_left (fun ks y => dict_add y ks) l acc <-> x ∈ acc \/ x ∈ l.
Proof.
  revert acc. induction l as [|y l IH]; intros acc; simpl.
  - rewrite elem_of_nil. tauto.
  - rewrite IH, elem_of_dict_add, elem_of_cons. tauto.
Qed.

Lemma fold_dict_add_NoDup l acc :
  NoDup acc -> NoDup (fold_left (fun ks y => dict_add y ks) l acc).
Proof.
  revert acc. induction l as [|y l IH]; intros acc Hnd; simpl; [done|].
  by apply IH, dict_add_NoDup.
Qed.

End DictKeys.

(** The keys of [epsilon] are the T-V edges, each once, on any graph. *)
Lemma elem_of_epsilon_keys_any g T v :
  (T, v) ∈ epsilon_keys g <-> tv_edge g T v.
Proof.
  unfold epsilon_keys. rewrite elem_of_fold_dict_add, elem_of_nil.
  rewrite elem_of_epsilon_calls. tauto.
Qed.

Lemma epsilon_keys_NoDup_any g : NoDup (epsilon_keys g).
Proof. apply fold_dict_add_NoDup. constructor. Qed.

Lemma mapM_None_iff {A B} (f : A -> option B) (l : list A) :
  mapM f l = None <-> exists x, x ∈ l /\ f x = None.
Proof.
  induction l as [|a l IH]; simpl.
  - split; [done|]. by intros (x & ?%elem_of_nil & _).
  - destruct (f a) as [y|] eqn:Hy; simpl.
    + destruct (mapM f l) as [k|]; simpl.
      * split; [done|]. intros (x & [->|Hx]%elem_of_cons & Hnone).
        -- congruence.
        -- destruct IH as [_ IH]. discriminate IH. eauto.
      * split; [|done]. intros _. destruct IH as [IH _].
        destruct (IH eq_refl) as (x & Hx & Hnone). exists x.
        split; [by right|done].
    + split; [|done]. intros _. exists a. split; [left|done].
Qed.

(** X12.  [assignment_ilp] raises the [KeyError] of line 111 exactly when
    some trip-vehicle edge of the RTV graph has no ["travel_time"]; in every
    other case the model is built and an assignment is returned. *)
Theorem assignment_ilp_key_error g vehicles requests seed cost_penalty
    optimize :
  assignment_ilp g vehicles requests seed cost_penalty optimize = None <->
  exists T v, tv_edge g T v /\ edge_travel_time g T v = None.
Proof.
  unfold assignment_ilp, build_model.
  assert (trip_cost_terms g = None <->
          exists T v, tv_edge g T v /\ edge_travel_time g T v = None) as <-.
  { unfold trip_cost_terms. etrans; [apply mapM_None_iff|]. split.
    - intros ([T v] & Hk%elem_of_epsilon_keys_any & Hnone). exists T, v.
      split; [done|]. simpl in Hnone.
      by destruct (edge_travel_time g T v).
    - intros (T & v & Hk & Hnone). exists (T, v).
      split; [by apply elem_of_epsilon_keys_any|]. simpl. by rewrite Hnone. }
  destruct (trip_cost_terms g); simpl; split; done.
Qed.

(** ** The seed as a feasible start *)

Section Indicator.

Context {A : Type} (P : A -> Prop) `{!forall a, Decision (P a)}.

Definition indicator (a : A) : Q := if bool_decide (P a) then 1%Q else 0%Q.

Lemma indicator_binary a : binary (indicator a).
Proof. unfold indicator, binary. case_bool_decide; [right|left]; lra. Qed.

Lemma sum_indicator_none (l : list A) :
  (forall a, a ∈ l -> ~ P a) -> (sum_over indicator l == 0)%Q.
Proof.
  induction l as [|a l IH]; simpl; intros Hno; [lra|].
  rewrite IH by (intros; apply Hno; by right).
  unfold indicator. rewrite bool_decide_eq_false_2; [lra|]. apply Hno. left.
Qed.

(** A sum of indicators of a property that at most one element of the list
    has is 0 or 1. *)
Lemma sum_indicator_binary (l : list A) :
  NoDup l ->
  (forall a b, a ∈ l -> b ∈ l -> P a -> P b -> a = b) ->
  binary (sum_over indicator l).
Proof.
  induction 1 as [|a l Ha Hnd IH]; simpl; intros Huniq.
  { left. lra. }
  unfold indicator at 1. case_bool_decide as HPa.
  - right. rewrite sum_indicator_none; [lra|].
    intros b Hb HPb. assert (a = b) as ->; [|done].
    apply Huniq; [left|by right|done..].
  - destruct IH as [Hz|Ho].
    + intros b c Hb Hc. apply Huniq; by right.
    + left. rewrite Hz. lra.
    + right. rewrite Ho. lra.
Qed.

End Indicator.

Section SeedStart.

Variable g : rtv_graph.
Variable seed : gmap string string.

Hypothesis nodes_NoDup : NoDup (rtv_nodes g).
Hypothesis neighbors_NoDup : forall n, NoDup (neighbors g n).
Hypothesis seed_disjoint :
  forall v1 v2 t1 t2,
    v1 <> v2 -> seed !! v1 = Some t1 -> seed !! v2 = Some t2 ->
    requests_of g t1 ## requests_of g t2.

(** The pair is an item of the seed. *)
Definition seeded_key (k : string * string) : Prop := seed !! k.2 = Some k.1.

(** Values for the variables: the start values of lines 159-161 for the
    [epsilon], and for each [chi] what its constraint asks for. *)
Definition start_values (y : var) : Q :=
  match y with
  | epsilon T v =>
      if bool_decide (epsilon T v ∈ warm_start g seed) then 1%Q else 0%Q
  | chi r =>
      (1 - sum_over (indicator seeded_key)
             (filter (fun k => r ∈ requests_of g k.1) (epsilon_keys g)))%Q
  end.

Lemma elem_of_warm_start k :
  eps k ∈ warm_start g seed <-> k ∈ epsilon_keys g /\ seeded_key k.
Proof.
  unfold warm_start. rewrite list_elem_of_fmap. split.
  - intros ([T v] & Heq & Hin%list_elem_of_filter). destruct k as [T' v'].
    injection Heq as -> ->. by destruct Hin.
  - intros [??]. exists k. split; [done|]. by apply list_elem_of_filter.
Qed.

Lemma start_values_eps k :
  k ∈ epsilon_keys g -> start_values (eps k) = indicator seeded_key k.
Proof.
  intros Hk. destruct k as [T v]. unfold eps, start_values, indicator. simpl.
  rewrite (bool_decide_ext (epsilon T v ∈ warm_start g seed)
             (seeded_key (T, v))); [done|].
  change (epsilon T v) with (eps (T, v)). rewrite elem_of_warm_start. tauto.
Qed.

Lemma sum_start_values (K : list (string * string)) :
  (forall k, k ∈ K -> k ∈ epsilon_keys g) ->
  (sum_over (fun k => start_values (eps k)) K
   == sum_over (indicator seeded_key) K)%Q.
Proof.
  intros HK. apply sum_over_ext. intros k Hk.
  rewrite start_values_eps by (by apply HK). lra.
Qed.

Lemma start_values_binary y : binary (start_values y).
Proof.
  destruct y as [T v|r]; simpl.
  - case_bool_decide; [right|left]; lra.
  - destruct (sum_indicator_binary seeded_key
                (filter (fun k => r ∈ requests_of g k.1) (epsilon_keys g)))
      as [Hz|Ho].
    + apply NoDup_filter, epsilon_keys_NoDup_any.
    + intros [T1 v1] [T2 v2] [Hr1 _]%list_elem_of_filter
        [Hr2 _]%list_elem_of_filter H1 H2.
      unfold seeded_key in *. simpl in *.
      destruct (decide (v1 = v2)) as [->|Hne]; [congruence|].
      pose proof (seed_disjoint v1 v2 T1 T2 Hne H1 H2). set_solver.
    + right. rewrite Hz. lra.
    + left. rewrite Ho. lra.
Qed.

Lemma start_values_vehicle w : holds start_values (vehicle_constraint g w).
Proof.
  apply (holds_vehicle_constraint g _ _ (epsilon_keys g)); [done|].
  rewrite sum_start_values by (by intros k [_ ?]%list_elem_of_filter).
  destruct (sum_indicator_binary seeded_key
              (filter (fun k => k.2 = v_id w) (epsilon_keys g)))
    as [Hz|Ho].
  - apply NoDup_filter, epsilon_keys_NoDup_any.
  - intros [T1 v1] [T2 v2] [Hv1 _]%list_elem_of_filter
      [Hv2 _]%list_elem_of_filter H1 H2.
    unfold seeded_key in *. simpl in *. subst. congruence.
  - rewrite Hz. lra.
  - rewrite Ho. lra.
Qed.

Lemma start_values_request r : holds start_values (request_constraint g r).
Proof.
  apply (holds_request_constraint g nodes_NoDup neighbors_NoDup _ _
           (epsilon_keys g)); [done|].
  rewrite sum_start_values by (by intros k [_ ?]%list_elem_of_filter).
  simpl. lra.
Qed.

End SeedStart.

(** The trips that the seeder assigns to two vehicles share no request. *)
Lemma greedy_assignment_disjoint g vehicles set_order a :
  (forall s, set_order s ≡ₚ elements s) ->
  rtv_wf g vehicles ->
  greedy_assignment g vehicles set_order = Some (Ok a) ->
  forall v1 v2 t1 t2,
    v1 <> v2 -> a !! v1 = Some t1 -> a !! v2 = Some t2 ->
    requests_of g t1 ## requests_of g t2.
Proof.
  intros Horder Hwf Ha.
  assert (forall v, v ∈ unassigned_vehicles (initial g vehicles) ->
            exists w, w ∈ vehicles /\ v = v_id w) as Hun.
  { intros v. simpl. rewrite elem_of_list_to_set, list_elem_of_fmap.
    intros (w & -> & [_ Hw]%list_elem_of_filter). eauto. }
  destruct (loop_greedy_run g vehicles set_order Horder Hwf
              (size (unassigned_vehicles (initial g vehicles)))
              (initial g vehicles) Hun) as [Hovf|(a' & Ha' & Hrun)]; [lia|..].
  { unfold greedy_assignment in Ha. congruence. }
  unfold greedy_assignment in Ha. rewrite Ha' in Ha. injection Ha as ->.
  apply (greedy_run_seeded g _ vehicles _ _ Hrun). split_and!; simpl.
  - intros v t. by rewrite lookup_empty.
  - intros v Hv. destruct (Hun v Hv) as (w & ? & ->).
    apply list_elem_of_fmap. eauto.
  - intros v1 v2 t1 t2 _. by rewrite lookup_empty.
Qed.

(** X13.  The two functions fit together: on a well-formed RTV graph, the
    assignment that [greedy_assignment] returns, passed as the seed of
    [assignment_ilp], sets start values that extend to a feasible point of
    the program.  There are binary values for all the variables that are 1
    on every variable whose [start] was set, and that satisfy every
    constraint of the model: no vehicle has two trips, and every request is
    either in exactly one started trip or marked unserved. *)
Theorem greedy_seed_is_feasible g vehicles requests cost_penalty set_order
    a m :
  (forall s, set_order s ≡ₚ elements s) ->
  rtv_wf g vehicles ->
  NoDup (rtv_nodes g) ->
  (forall n, NoDup (neighbors g n)) ->
  greedy_assignment g vehicles set_order = Some (Ok a) ->
  build_model g vehicles requests a cost_penalty = Some m ->
  exists x : var -> Q,
    (forall y, y ∈ start m -> (x y == 1)%Q) /\
    (forall y, binary (x y)) /\
    Forall (holds x) (constraints m).
Proof.
  intros Hord Hwf Hnodes Hnb Ha Hm.
  pose proof (greedy_assignment_disjoint g vehicles set_order a Hord Hwf Ha)
    as Hdisj.
  unfold build_model in Hm.
  destruct (trip_cost_terms g) as [terms|]; simpl in Hm; [|done].
  injection Hm as <-. simpl.
  exists (start_values g a). split_and!.
  - intros y (k & -> & Hk)%list_elem_of_fmap. destruct k as [T v].
    unfold eps. simpl. rewrite bool_decide_eq_true_2; [lra|].
    apply list_elem_of_fmap. by exists (T, v).
  - intros y. by apply start_values_binary.
  - rewrite Forall_app, !Forall_fmap, !Forall_forall. split.
    + intros w _. by apply start_values_vehicle.
    + intros r _. by apply start_values_request.
Qed.

Lemma greedy_seed_is_feasible_witness :
  exists x : var -> Q,
    (forall y,
       y ∈ [epsilon "tA" "v1"; epsilon "tB" "v2"] -> (x y == 1)%Q) /\
    (forall y, binary (x y)) /\
    Forall (holds x)
      (map (vehicle_constraint RtvScenario.rtv) RtvScenario.fleet ++
       map (request_constraint RtvScenario.rtv) RtvScenario.batch).
Proof.
  apply (greedy_seed_is_feasible RtvScenario.rtv RtvScenario.fleet
           RtvScenario.batch 1000 elements
           {[ "v2" := "tB"; "v1" := "tA" ]}
           (Model
              (map (fun k => (eps k, BINARY))
                 (epsilon_calls RtvScenario.rtv) ++
               map (fun r => (chi (r_id r), BINARY)) RtvScenario.batch)
              (map (fun k => (edge_cost RtvScenario.rtv k, eps k))
                 (epsilon_keys RtvScenario.rtv) ++
               unserved_penalty_terms RtvScenario.batch 1000)
              MINIMIZE
              (map (vehicle_constraint RtvScenario.rtv) RtvScenario.fleet ++
               map (request_constraint RtvScenario.rtv) RtvScenario.batch)
              [epsilon "tA" "v1"; epsilon "tB" "v2"])).
  - reflexivity.
  - apply rtv_scenario_well_formed.
  - apply (bool_decide_unpack _). vm_compute. reflexivity.
  - apply rtv_scenario_neighbors_NoDup.
  - vm_compute. reflexivity.
  - vm_compute. reflexivity.
Defined.

(** * [optimizer/network/network_generator.py] *)

(** ** [clean_adjacency_list] *)

Section CleanProperties.

Context {K E V : Type} `{Countable K} `{Countable E}.

Implicit Types (adj_list : gmap K (gmap K (gmap E (gmap string V))))
  (edges : gmap E (gmap string V)) (attributes : gmap string V)
  (keys : list string) (key : string).

(** The attribute [key] of the edge [e] between [n] and [m]; [None] when the
    node, the neighbour, the edge or the attribute is missing. *)
Definition edge_attributes adj_list (n m : K) (e : E)
    : option (gmap string V) :=
  neighbors ← adj_list !! n; edges ← neighbors !! m; edges !! e.

Definition attribute adj_list (n m : K) (e : E) key : option V :=
  attributes ← edge_attributes adj_list n m e; attributes !! key.

Lemma fold_clean_lookup attributes keys (acc : gmap string V) key :
  fold_left
    (fun cleaned_attributes k =>
       match attributes !! k with
       | Some a => <[k := a]> cleaned_attributes
       | None => cleaned_attributes
       end)
    keys acc !! key
  = match (if decide (key ∈ keys) then attributes !! key else None) with
    | Some a => Some a
    | None => acc !! key
    end.
Proof.
  revert acc. induction keys as [|k keys IH]; intros acc; simpl.
  { done. }
  rewrite IH. clear IH.
  destruct (decide (key ∈ keys)) as [Hin|Hin].
  - rewrite decide_True by (by right).
    destruct (attributes !! key) as [a|] eqn:Ha; [done|].
    destruct (decide (k = key)) as [->|Hne]; [by rewrite Ha|].
    destruct (attributes !! k); [|done]. by rewrite lookup_insert_ne.
  - destruct (decide (k = key)) as [->|Hne].
    + rewrite decide_True by left.
      destruct (attributes !! key) as [a|]; [|done].
      by rewrite lookup_insert_eq.
    + rewrite decide_False by (by intros [?|?]%elem_of_cons).
      destruct (attributes !! k); [|done]. by rewrite lookup_insert_ne.
Qed.

Lemma clean_attributes_lookup keys attributes key :
  NetworkGenerator.clean_attributes keys attributes !! key
  = if decide (key ∈ keys) then attributes !! key else None.
Proof.
  unfold NetworkGenerator.clean_attributes. rewrite fold_clean_lookup.
  rewrite lookup_empty. by destruct (decide _), (attributes !! key).
Qed.

Lemma clean_edges_lookup keys edges e :
  NetworkGenerator.clean_edges keys edges !! e
  = attributes ← edges !! e;
    if bool_decide (dom (NetworkGenerator.clean_attributes keys attributes)
                    = (∅ : gset string))
    then None
    else Some (NetworkGenerator.clean_attributes keys attributes).
Proof. unfold NetworkGenerator.clean_edges. by rewrite lookup_omap. Qed.

Lemma clean_attributes_twice keys1 keys2 attributes :
  NetworkGenerator.clean_attributes keys2
    (NetworkGenerator.clean_attributes keys1 attributes)
  = NetworkGenerator.clean_attributes
      (filter (fun k => k ∈ keys2) keys1) attributes.
Proof.
  apply map_eq. intros key. rewrite !clean_attributes_lookup.
  destruct (decide (key ∈ keys2)), (decide (key ∈ keys1)).
  - rewrite decide_True; [done|]. by apply list_elem_of_filter.
  - rewrite decide_False; [done|]. by intros [_ ?]%list_elem_of_filter.
  - rewrite decide_False; [done|]. by intros [? _]%list_elem_of_filter.
  - rewrite decide_False; [done|]. by intros [_ ?]%list_elem_of_filter.
Qed.

Lemma clean_attributes_empty keys1 keys2 attributes :
  dom (NetworkGenerator.clean_attributes keys1 attributes)
    = (∅ : gset string) ->
  dom (NetworkGenerator.clean_attributes
         (filter (fun k => k ∈ keys2) keys1) attributes)
    = (∅ : gset string).
Proof.
  rewrite !dom_empty_iff_L. intros He. apply map_eq. intros key.
  apply (f_equal (fun m => m !! key)) in He.
  rewrite clean_attributes_lookup in He |- *. rewrite lookup_empty in He |- *.
  destruct (decide (key ∈ filter (fun k => k ∈ keys2) keys1)) as [Hin|];
    [|done].
  apply list_elem_of_filter in Hin as [_ Hin].
  by rewrite decide_True in He.
Qed.

Lemma clean_edges_twice keys1 keys2 edges :
  NetworkGenerator.clean_edges keys2
    (NetworkGenerator.clean_edges keys1 edges)
  = NetworkGenerator.clean_edges (filter (fun k => k ∈ keys2) keys1) edges.
Proof.
  apply map_eq. intros e. rewrite !clean_edges_lookup.
  destruct (edges !! e) as [attributes|]; simpl; [|done].
  case_bool_decide as H1; simpl.
  - rewrite bool_decide_eq_true_2; [done|]. by apply clean_attributes_empty.
  - by rewrite clean_attributes_twice.
Qed.

End CleanProperties.

(** X21.  What [clean_adjacency_list] keeps.  Every node and, under each
    node, every neighbour is still there, even when all its edges are gone.
    An attribute is found in the result, with the value it had, exactly when
    its key is one of [keys_to_keep]; an edge is found in the result exactly
    when it had one of these keys. *)
Theorem clean_adjacency_list_keeps {K E V : Type} `{Countable K}
    `{Countable E}
    (adj_list : gmap K (gmap K (gmap E (gmap string V))))
    (keys_to_keep : list string) :
  let cleaned := NetworkGenerator.clean_adjacency_list adj_list keys_to_keep in
  dom cleaned = dom adj_list /\
  (forall n, dom <$> cleaned !! n = dom <$> adj_list !! n) /\
  (forall n m e key,
     attribute cleaned n m e key
     = if decide (key ∈ keys_to_keep) then attribute adj_list n m e key
       else None) /\
  (forall n m e,
     is_Some (edge_attributes cleaned n m e) <->
     exists key, key ∈ keys_to_keep /\
                 is_Some (attribute adj_list n m e key)).
Proof.
  intros cleaned. unfold cleaned, NetworkGenerator.clean_adjacency_list.
  split_and!.
  - by rewrite dom_fmap_L.
  - intros n. rewrite lookup_fmap.
    destruct (adj_list !! n) as [nb|]; simpl; [|done]. by rewrite dom_fmap_L.
  - intros n m e key. unfold attribute, edge_attributes. rewrite lookup_fmap.
    destruct (adj_list !! n) as [nb|]; simpl; [|by destruct (decide _)].
    rewrite lookup_fmap.
    destruct (nb !! m) as [es|]; simpl; [|by destruct (decide _)].
    rewrite clean_edges_lookup.
    destruct (es !! e) as [a|]; simpl; [|by destruct (decide _)].
    case_bool_decide as He; simpl.
    + apply dom_empty_iff_L in He.
      apply (f_equal (fun c => c !! key)) in He.
      by rewrite clean_attributes_lookup, lookup_empty in He.
    + apply clean_attributes_lookup.
  - intros n m e. unfold attribute, edge_attributes. rewrite lookup_fmap.
    destruct (adj_list !! n) as [nb|]; simpl.
    2:{ split; [by intros [? ?]|by intros (? & _ & [? ?])]. }
    rewrite lookup_fmap.
    destruct (nb !! m) as [es|]; simpl.
    2:{ split; [by intros [? ?]|by intros (? & _ & [? ?])]. }
    rewrite clean_edges_lookup.
    destruct (es !! e) as [a|]; simpl.
    2:{ split; [by intros [? ?]|by intros (? & _ & [? ?])]. }
    case_bool_decide as He; simpl.
    + split; [by intros [? ?]|]. intros (key & Hkey & Ha).
      apply dom_empty_iff_L in He.
      apply (f_equal (fun c => c !! key)) in He.
      rewrite clean_attributes_lookup, lookup_empty in He.
      rewrite decide_True in He by done. rewrite He in Ha. by destruct Ha.
    + split; [intros _|by eexists].
      rewrite dom_empty_iff_L in He.
      apply map_choose in He as (key & a' & Hk).
      rewrite clean_attributes_lookup in Hk.
      destruct (decide (key ∈ keys_to_keep)); [|done].
      exists key. split; [done|]. by eexists.
Qed.

(** X22.  Cleaning twice is cleaning once with the keys common to both
    lists; in particular, cleaning a cleaned adjacency list again with the
    same keys changes nothing. *)
Theorem clean_adjacency_list_twice {K E V : Type} `{Countable K}
    `{Countable E}
    (adj_list : gmap K (gmap K (gmap E (gmap string V))))
    (keys1 keys2 : list string) :
  NetworkGenerator.clean_adjacency_list
    (NetworkGenerator.clean_adjacency_list adj_list keys1) keys2
  = NetworkGenerator.clean_adjacency_list adj_list
      (filter (fun k => k ∈ keys2) keys1)
  /\
  NetworkGenerator.clean_adjacency_list
    (NetworkGenerator.clean_adjacency_list adj_list keys1) keys1
  = NetworkGenerator.clean_adjacency_list adj_list keys1.
Proof.
  assert (forall ks1 ks2,
    NetworkGenerator.clean_adjacency_list
      (NetworkGenerator.clean_adjacency_list adj_list ks1) ks2
    = NetworkGenerator.clean_adjacency_list adj_list
        (filter (fun k => k ∈ ks2) ks1)) as Htwice.
  { intros ks1 ks2. unfold NetworkGenerator.clean_adjacency_list.
    rewrite <- map_fmap_compose. apply map_fmap_ext. intros n nb _. simpl.
    rewrite <- map_fmap_compose. apply map_fmap_ext. intros m es _. simpl.
    apply clean_edges_twice. }
  split; [apply Htwice|]. rewrite Htwice. f_equal.
  apply filter_all. by intros k Hk.
Qed.

(** ** Text *)

Section Text.

Import NetworkGenerator.

Implicit Types (s w rest : string) (c : ascii) (x : N).




(** A word: characters none of which is whitespace. *)
Fixpoint word s : Prop :=
  match s with
  | EmptyString => True
  | String c s' => isspace c = false /\ word s'
  end.








(** The decimal numeral of a natural number, as [str] writes it. *)
Definition starts_with_digit s : Prop :=
  match s with
  | EmptyString => False
  | String c _ => digit c <> None
  end.

Lemma pretty_N_char_digit x : (x < 10)%N -> digit (pretty_N_char x) <> None.
Proof.
  intros Hx.
  assert (x = 0 \/ x = 1 \/ x = 2 \/ x = 3 \/ x = 4 \/ x = 5 \/ x = 6 \/
          x = 7 \/ x = 8 \/ x = 9)%N as Hc by lia.
  by repeat destruct Hc as [->|Hc]; [..|subst].
Qed.

Lemma pretty_N_go_digit x rest :
  (0 < x)%N -> starts_with_digit (pretty_N_go x rest).
Proof.
  revert rest. induction (N.lt_wf_0 x) as [x _ IH]; intros rest Hx.
  rewrite pretty_N_go_step by done.
  destruct (decide (x `div` 10 = 0)%N) as [Hz|Hnz].
  - rewrite Hz, pretty_N_go_0. simpl. apply pretty_N_char_digit.
    by apply N.mod_lt.
  - apply IH; [by apply N.div_lt|by apply N.neq_0_lt_0].
Qed.











(** ** [extract_maxspeed] *)

Lemma speeds_omap (l : list string) (acc : list Z) :
  fold_left (fun speeds speed =>
               match leading_int speed with
               | Some n => speeds ++ [n]
               | None => speeds
               end) l acc
  = acc ++ omap leading_int l.
Proof.
  revert acc. induction l as [|s l IH]; intros acc; simpl.
  - by rewrite app_nil_r.
  - rewrite IH. destruct (leading_int s); [|done].
    by rewrite <- (assoc_L (++)).
Qed.

Lemma max_of_le (z : Z) (l : list Z) : z <= max_of z l.
Proof.
  unfold max_of. revert z. induction l as [|y l IH]; intros z; simpl; [lia|].
  etrans; [|apply IH]. lia.
Qed.

Lemma max_of_upper (z : Z) (l : list Z) n : n ∈ z :: l -> n <= max_of z l.
Proof.
  revert z. induction l as [|y l IH]; intros z.
  - intros ->%list_elem_of_singleton. unfold max_of. simpl. lia.
  - intros [->|Hn]%elem_of_cons.
    + apply max_of_le.
    + change (max_of z (y :: l)) with (max_of (Z.max z y) l).
      apply elem_of_cons in Hn as [->|Hn].
      * etrans; [|apply max_of_le]. lia.
      * apply IH. by right.
Qed.

Lemma max_of_elem (z : Z) (l : list Z) : max_of z l ∈ z :: l.
Proof.
  revert z. induction l as [|y l IH]; intros z.
  - unfold max_of. simpl. left.
  - change (max_of z (y :: l)) with (max_of (Z.max z y) l).
    pose proof (IH (Z.max z y)) as [Heq|Hin]%elem_of_cons.
    + rewrite Heq. destruct (Z.max_spec z y) as [[_ ->]|[_ ->]].
      * right. left.
      * left.
    + right. by right.
Qed.

End Text.

(** X23.  [extract_maxspeed] returns 50 when no entry of the list starts
    with an integer (an empty entry, an entry of spaces and an entry whose
    first word is not a number are all skipped), and otherwise the largest
    of the integers that start an entry: one of them, and at least each of
    them. *)
Theorem extract_maxspeed_is_the_largest (maxspeed_list : list string) :
  let speeds := omap NetworkGenerator.leading_int maxspeed_list in
  (speeds = [] -> NetworkGenerator.extract_maxspeed maxspeed_list = 50) /\
  (speeds <> [] ->
   NetworkGenerator.extract_maxspeed maxspeed_list ∈ speeds /\
   forall n, n ∈ speeds ->
             n <= NetworkGenerator.extract_maxspeed maxspeed_list).
Proof.
  intros speeds. unfold NetworkGenerator.extract_maxspeed.
  rewrite speeds_omap. simpl. fold speeds.
  destruct speeds as [|x rest]; split; try done.
  intros _. split; [apply max_of_elem|]. intros n. apply max_of_upper.
Qed.




(** * The generators of [optimizer/agents/generator.py] *)

Import Generator.

(** ** Runs *)

Lemma bind_Return {A B} (m : M A) (k : A -> M B) s b rest :
  bind m k s = Return b rest <->
  exists a s', m s = Return a s' /\ k a s' = Return b rest.
Proof. unfold bind. destruct (m s); naive_solver. Qed.

Lemma bind_OutOfFuel {A B} (m : M A) (k : A -> M B) s :
  bind m k s = OutOfFuel <->
  m s = OutOfFuel \/ exists a s', m s = Return a s' /\ k a s' = OutOfFuel.
Proof. unfold bind. destruct (m s); naive_solver. Qed.

Section Runs.

Context {A B : Type}.

Implicit Types (s rest : supply).

Lemma choice_Return (seq : list A) s a rest :
  choice seq s = Return a rest -> a ∈ seq /\ length s = S (length rest).
Proof.
  unfold choice. destruct seq as [|x seq'] eqn:E; [done|]. rewrite <- E.
  assert (length seq <> 0%nat) as Hlen by (by rewrite E).
  clear E. destruct s as [|n s']; [done|]. intros Hr.
  injection Hr as <- <-. split; [|done].
  apply list_elem_of_In, nth_In. by apply Nat.mod_upper_bound.
Qed.

Lemma choice_OutOfFuel (seq : list A) s : choice seq s <> OutOfFuel.
Proof. unfold choice. by destruct seq, s. Qed.

Lemma choice_cases (seq : list A) s :
  seq <> [] ->
  (exists a rest, choice seq s = Return a rest) \/ choice seq s = Starved.
Proof.
  unfold choice. destruct seq as [|x seq']; [done|]. intros _.
  destruct s; eauto.
Qed.

(** A loop keeps what every turn keeps.  [done] is the part of the list
    that the loop has been through. *)
Lemma for_each_inv (I : list A -> B -> Prop) (body : B -> A -> M B)
    (l : list A) (acc0 : B) s r rest :
  I [] acc0 ->
  (forall done x todo acc s1 acc' s2,
     l = done ++ x :: todo -> I done acc ->
     body acc x s1 = Return acc' s2 -> I (done ++ [x]) acc') ->
  for_each body l acc0 s = Return r rest -> I l r.
Proof.
  intros H0 Hstep.
  assert (forall todo done acc s,
            l = done ++ todo -> I done acc ->
            for_each body todo acc s = Return r rest -> I l r) as H.
  { induction todo as [|x todo IH]; intros done acc s1 Hl Hacc; simpl.
    - intros [= <- <-]. rewrite app_nil_r in Hl. by subst.
    - intros (acc' & s2 & Hb & Hrest)%bind_Return.
      apply (IH (done ++ [x]) acc' s2); [|by eapply Hstep|done].
      by rewrite <- (assoc_L (++)). }
  by apply (H l [] acc0 s).
Qed.

Lemma for_each_OutOfFuel (body : B -> A -> M B) (l : list A) acc s :
  (forall acc x s, body acc x s <> OutOfFuel) ->
  for_each body l acc s <> OutOfFuel.
Proof.
  intros Hb. revert acc s. induction l as [|x l IH]; intros acc s; simpl.
  - done.
  - intros [?|(acc' & s' & _ & ?)]%bind_OutOfFuel; [by eapply Hb|].
    by eapply IH.
Qed.

End Runs.

Lemma randint_Return a b s z rest :
  randint a b s = Return z rest -> a <= z <= b /\ length s = S (length rest).
Proof.
  unfold randint. destruct (Z.ltb_spec b a); [done|].
  destruct s as [|n s']; [done|]. intros [= <- <-]. split; [|done].
  pose proof (Z.mod_pos_bound (Z.of_nat n) (b - a + 1)). lia.
Qed.

Lemma randint_OutOfFuel a b s : randint a b s <> OutOfFuel.
Proof. unfold randint. destruct (b <? a); [done|]. by destruct s. Qed.

(** ** Runs without an exception, and draws that make a run return *)

Definition no_exception {A} (o : outcome A) : Prop :=
  match o with
  | IndexError | ValueError => False
  | _ => True
  end.

Lemma bind_no_exception {A B} (m : M A) (k : A -> M B) s :
  no_exception (m s) ->
  (forall a s', m s = Return a s' -> no_exception (k a s')) ->
  no_exception (bind m k s).
Proof. unfold bind. destruct (m s); naive_solver. Qed.

Lemma choice_no_exception {A} (seq : list A) s :
  seq <> [] -> no_exception (choice seq s).
Proof. unfold choice. by destruct seq, s. Qed.

Lemma randint_no_exception a b s : a <= b -> no_exception (randint a b s).
Proof.
  intros. unfold randint. destruct (Z.ltb_spec b a); [lia|]. by destruct s.
Qed.

Lemma for_each_no_exception {A B} (body : B -> A -> M B) (l : list A) acc s :
  (forall acc x s, no_exception (body acc x s)) ->
  no_exception (for_each body l acc s).
Proof.
  intros Hb. revert acc s. induction l as [|x l IH]; intros acc s; simpl.
  - done.
  - apply bind_no_exception; [apply Hb|]. intros. apply IH.
Qed.

(** A run that neither raises nor runs out of fuel returns, or is still
    drawing when the supply ends. *)
Lemma returns_or_starves {A} (o : outcome A) :
  no_exception o -> o <> OutOfFuel ->
  (exists a rest, o = Return a rest) \/ o = Starved.
Proof. destruct o; naive_solver. Qed.

(** The draw [k] picks the element of index [k]. *)
Lemma choice_at {A} (seq : list A) (k : nat) s x :
  seq !! k = Some x -> choice seq (k :: s) = Return x s.
Proof.
  intros Hk. unfold choice. destruct seq as [|x0 seq'] eqn:E; [done|].
  rewrite <- E in *. f_equal.
  pose proof (lookup_lt_Some _ _ _ Hk).
  rewrite Nat.mod_small by done. by apply nth_lookup_Some.
Qed.

Lemma for_each_app {A B} (body : B -> A -> M B) (l : list A)
    (draws : A -> supply) (f : B -> A -> B) :
  (forall acc x rest, body acc x (draws x ++ rest) = Return (f acc x) rest) ->
  forall acc rest,
    for_each body l acc (flat_map draws l ++ rest)
    = Return (fold_left f l acc) rest.
Proof.
  intros Hb. induction l as [|x l IH]; intros acc rest; simpl; [done|].
  unfold bind. by rewrite <- (assoc_L (++)), Hb, IH.
Qed.

(** ** [range] *)

Lemma range_lookup n (i : nat) x :
  range n !! i = Some x -> x = Z.of_nat i /\ (i < Z.to_nat n)%nat.
Proof.
  unfold range. rewrite list_lookup_fmap.
  destruct (seq 0 (Z.to_nat n) !! i) as [j|] eqn:Hj; [|done].
  apply lookup_seq in Hj as [-> ?]. intros [= <-]. done.
Qed.

Lemma range_middle n done x todo :
  range n = done ++ x :: todo -> x = Z.of_nat (length done).
Proof.
  intros Hl.
  assert (range n !! length done = Some x) as Hx.
  { rewrite Hl. by apply list_lookup_middle. }
  by apply range_lookup in Hx as [-> _].
Qed.

Lemma range_length n : length (range n) = Z.to_nat n.
Proof. unfold range. by rewrite length_map, length_seq. Qed.

Lemma range_NoDup n : NoDup (range n).
Proof.
  unfold range. apply NoDup_fmap_2; [|apply NoDup_seq].
  intros x y. apply Nat2Z.inj.
Qed.

(** ** Names *)

(** The decimal numeral of a positive number starts with a digit, so a
    name "r<number>" is never a name "r_p<number>". *)
Lemma pretty_positive_digit (z : Z) : 0 < z -> starts_with_digit (pretty z).
Proof.
  destruct z as [|p|p]; [lia| |lia]. intros _.
  unfold pretty, pretty_Z, pretty, pretty_positive, pretty, pretty_N.
  rewrite decide_False by done. by apply pretty_N_go_digit.
Qed.

Definition request_name (i : Z) : string := "r" +:+ pretty (i + 1).
Definition passenger_name (i : Z) : string := "r_p" +:+ pretty (i + 1).
Definition vehicle_name (i : Z) : string := "v" +:+ pretty (i + 1).

#[global] Instance request_name_inj : Inj (=) (=) request_name.
Proof.
  intros i j [= H]. apply pretty_Z_inj in H. lia.
Qed.

#[global] Instance passenger_name_inj : Inj (=) (=) passenger_name.
Proof.
  intros i j [= H]. apply pretty_Z_inj in H. lia.
Qed.

#[global] Instance vehicle_name_inj : Inj (=) (=) vehicle_name.
Proof.
  intros i j [= H]. apply pretty_Z_inj in H. lia.
Qed.

Lemma startswith_r_request_name i : startswith_r (request_name i) = true.
Proof.
  unfold startswith_r, request_name. cbv [String.append]. simpl.
  by destruct (pretty (i + 1)).
Qed.

Lemma startswith_r_vehicle_name i : startswith_r (vehicle_name i) = false.
Proof. reflexivity. Qed.

Lemma request_name_not_passenger i j :
  0 <= i -> request_name i <> passenger_name j.
Proof.
  intros Hi [= H]. cbv [String.append] in H.
  pose proof (pretty_positive_digit (i + 1)) as Hd.
  rewrite H in Hd. apply Hd; [lia|]. done.
Qed.

(** ** [generate_requests] *)

Section GenerateRequests.

Variable graph : graph.
Variable nodes : list node.
Variable omega : Z.

(** What line 131-141 write, for the pair of nodes and the travel time
    found. *)
Definition fresh_request (r : request_dict) : Prop :=
  o_r (view r) ∈ nodes /\ d_r (view r) ∈ nodes /\
  o_r (view r) <> d_r (view r) /\
  (exists travel_time,
     graph (o_r (view r)) (d_r (view r)) = Some travel_time /\
     0 < travel_time /\ t_r_star (view r) = travel_time) /\
  t_r_pl (view r) = omega /\
  t_r_r r = 0 /\ t_r_p r = -1 /\ t_r_d r = -1.

Lemma pair_of_nodes_Return fuel s o d t rest :
  pair_of_nodes graph nodes fuel s = Return (o, d, t) rest ->
  o ∈ nodes /\ d ∈ nodes /\ o <> d /\ graph o d = Some t.
Proof.
  revert s. induction fuel as [|fuel IH]; intros s; simpl; [done|].
  intros (origin & s1 & [Ho _]%choice_Return &
          (destination & s2 & [Hd _]%choice_Return & Hrest)%bind_Return)
    %bind_Return.
  case_bool_decide as Hne; [|by eapply IH].
  destruct (graph origin destination) as [travel_time|] eqn:Hg;
    [|by eapply IH].
  injection Hrest as <- <- <- <-. done.
Qed.

Lemma pair_of_nodes_fuel fuel s :
  (length s < fuel)%nat -> pair_of_nodes graph nodes fuel s <> OutOfFuel.
Proof.
  revert s. induction fuel as [|fuel IH]; intros s Hlen; [lia|]. simpl.
  intros [?%choice_OutOfFuel|(o & s1 & [_ H1]%choice_Return & Hk)]
    %bind_OutOfFuel; [done|].
  apply bind_OutOfFuel in Hk
    as [?%choice_OutOfFuel|(d & s2 & [_ H2]%choice_Return & Hk)]; [done|].
  assert (length s2 < fuel)%nat as Hlen' by lia.
  case_bool_decide; [|by eapply IH].
  destruct (graph o d); [done|by eapply IH].
Qed.

(** Without two different nodes joined by a path, the search for a pair
    goes on for as long as there are draws. *)
Lemma pair_of_nodes_Starved fuel s :
  nodes <> [] ->
  (forall o d, o ∈ nodes -> d ∈ nodes -> o <> d -> graph o d = None) ->
  (length s < fuel)%nat ->
  pair_of_nodes graph nodes fuel s = Starved.
Proof.
  intros Hnodes Hnone. revert s.
  induction fuel as [|fuel IH]; intros s Hlen; [lia|]. simpl.
  unfold bind at 1.
  destruct (choice_cases nodes s Hnodes) as [(o & s1 & Ho)| ->]; [|done].
  rewrite Ho. apply choice_Return in Ho as [Ho H1].
  unfold bind at 1.
  destruct (choice_cases nodes s1 Hnodes) as [(d & s2 & Hd)| ->]; [|done].
  rewrite Hd. apply choice_Return in Hd as [Hd H2].
  case_bool_decide as Hne; [|apply IH; lia].
  rewrite (Hnone o d) by done. apply IH. lia.
Qed.

End GenerateRequests.

Definition ids (rs : list request_dict) : list string :=
  map (fun r => r_id (view r)) rs.

Section GenerateRequestsLoop.

Variable graph : graph.
Variable nodes : list node.
Variable omega : Z.

(** Every pair of different nodes joined by a path is a positive travel time
    apart. *)
Definition positive_times : Prop :=
  forall o d t, graph o d = Some t -> o <> d -> 0 < t.

Lemma generate_requests_inv num_requests s rs rest :
  generate_requests graph nodes num_requests omega s = Return rs rest ->
  Forall (fresh_request graph nodes omega) rs /\
  exists js,
    js `sublist_of` range num_requests /\
    ids rs = map request_name js /\
    (positive_times -> js = range num_requests).
Proof.
  unfold generate_requests.
  apply (for_each_inv
           (fun done acc =>
              Forall (fresh_request graph nodes omega) acc /\
              exists js, js `sublist_of` done /\
                         ids acc = map request_name js /\
                         (positive_times -> js = done))).
  - split; [constructor|]. by exists [].
  - intros done x todo acc s1 acc' s2 Hl (Hf & js & Hsub & Hids & Hall).
    intros ([[o d] t] & s3 & Hp & Hrest)%bind_Return.
    apply pair_of_nodes_Return in Hp as (Ho & Hd & Hne & Hg).
    destruct (Z.gtb_spec t 0) as [Hpos|Hnot].
    + injection Hrest as <- <-. split.
      * apply Forall_app. split; [done|]. constructor; [|constructor].
        unfold fresh_request. simpl. split_and!; try done.
        exists t. split_and!; [done|lia|lia].
      * exists (js ++ [x]). split_and!.
        -- by apply sublist_app.
        -- unfold ids in *. rewrite !map_app, Hids. done.
        -- intros Hp. by rewrite Hall.
    + injection Hrest as <- <-. split; [done|]. exists js. split_and!.
      * by apply sublist_inserts_r.
      * done.
      * intros Hp. specialize (Hp o d t Hg Hne). lia.
Qed.

Lemma generate_requests_names num_requests s rs rest :
  generate_requests graph nodes num_requests omega s = Return rs rest ->
  NoDup (ids rs) /\
  Forall (fun r => startswith_r (r_id (view r)) = true) rs.
Proof.
  intros (_ & js & Hsub & Hids & _)%generate_requests_inv. split.
  - rewrite Hids. apply NoDup_fmap_2; [apply _|].
    apply (sublist_NoDup _ _ (range_NoDup num_requests) Hsub).
  - apply Forall_forall. intros r Hr.
    assert (r_id (view r) ∈ ids rs) as Hin.
    { unfold ids. apply list_elem_of_fmap. by exists r. }
    rewrite Hids in Hin. apply list_elem_of_fmap in Hin as (j & -> & _).
    apply startswith_r_request_name.
Qed.

Lemma generate_requests_fuel num_requests s :
  generate_requests graph nodes num_requests omega s <> OutOfFuel.
Proof.
  apply for_each_OutOfFuel. intros acc x s'.
  intros [Hp|([[o d] t] & s2 & _ & Hk)]%bind_OutOfFuel.
  - apply pair_of_nodes_fuel in Hp; [done|]. unfold turns. lia.
  - by destruct (t >? 0).
Qed.

End GenerateRequestsLoop.

(** X14.  The requests that [generate_requests] returns.  Each goes from a
    node of the graph to a different node that a path reaches, asks for a
    pickup by [omega], and has for earliest drop-off time the travel time
    between the two, which is positive.  They are at most [num_requests];
    their ids are "r<k>" with [1 <= k <= num_requests], increasing, hence
    different from each other and all starting with "r".  A pair of nodes
    that is a zero travel time apart uses up its number [k] without giving a
    request; when no two different nodes are that close, the ids are exactly
    "r1", ..., "r<num_requests>". *)
Theorem generate_requests_returns graph nodes num_requests omega s rs rest :
  generate_requests graph nodes num_requests omega s = Return rs rest ->
  Forall (fresh_request graph nodes omega) rs /\
  (length rs <= Z.to_nat num_requests)%nat /\
  (exists js, js `sublist_of` range num_requests /\
              ids rs = map request_name js) /\
  NoDup (ids rs) /\
  Forall (fun r => startswith_r (r_id (view r)) = true) rs /\
  (positive_times graph -> ids rs = map request_name (range num_requests)).
Proof.
  intros Hrun.
  destruct (generate_requests_names _ _ _ _ _ _ _ Hrun) as [Hnd Hr].
  apply generate_requests_inv in Hrun as (Hf & js & Hsub & Hids & Hall).
  split_and!; try done.
  - rewrite <- range_length. apply sublist_length in Hsub.
    apply (f_equal length) in Hids. unfold ids in Hids.
    rewrite !length_map in Hids. lia.
  - by exists js.
  - intros Hp. by rewrite Hids, Hall.
Qed.

Lemma generate_requests_returns_witness :
  let rs :=
    [RequestDict (Request "r1" 0 1 200 60) 0 (-1) (-1);
     RequestDict (Request "r2" 1 2 200 60) 0 (-1) (-1);
     RequestDict (Request "r3" 2 1 200 60) 0 (-1) (-1)] in
  Forall (fresh_request Scenario.triangle [0; 1; 2] 200) rs /\
  (length rs <= Z.to_nat 3)%nat /\
  (exists js, js `sublist_of` range 3 /\ ids rs = map request_name js) /\
  NoDup (ids rs) /\
  Forall (fun r => startswith_r (r_id (view r)) = true) rs /\
  (positive_times Scenario.triangle ->
   ids rs = map request_name (range 3)).
Proof.
  apply (generate_requests_returns Scenario.triangle [0; 1; 2] 3 200
           [0; 0; 0; 1; 2; 2; 1; 2; 5; 7; 9]%nat _ [9%nat]).
  vm_compute. reflexivity.
Defined.

(** X15.  [generate_requests] needs two different nodes joined by a path.
    Asked for at least one request on a graph without nodes, it raises
    [IndexError]; on a graph with nodes none of which reaches another, the
    loop of lines 113-124 never ends: however many draws are supplied, the
    run is still asking for more. *)
Theorem generate_requests_needs_a_pair graph nodes num_requests omega :
  0 < num_requests ->
  (forall o d, o ∈ nodes -> d ∈ nodes -> o <> d -> graph o d = None) ->
  forall s,
    generate_requests graph nodes num_requests omega s
    = match nodes with [] => IndexError | _ :: _ => Starved end.
Proof.
  intros Hn Hnone s. unfold generate_requests, range.
  destruct (Z.to_nat num_requests) as [|k] eqn:Hk; [lia|].
  cbn [seq map for_each]. unfold bind at 1. unfold bind at 1.
  destruct nodes as [|x nodes'] eqn:E.
  - done.
  - rewrite <- E in *. rewrite pair_of_nodes_Starved; try done.
    + by rewrite E.
    + unfold turns. lia.
Qed.

Lemma generate_requests_needs_a_pair_witness :
  generate_requests (fun _ _ => None) [0; 1] 1 200 [3; 1; 4; 1; 5]%nat
  = Starved.
Proof.
  apply (generate_requests_needs_a_pair (fun _ _ => None) [0; 1] 1 200).
  - lia.
  - done.
Defined.

(** ** [generate_requests_for_vehicle] and [initialize_vehicles] *)

Section ForVehicle.

Variable graph : graph.
Variable nodes : list node.

Lemma redraw_Return fuel o d s d' rest :
  redraw nodes fuel o d s = Return d' rest ->
  d' <> o /\ (d' = d \/ d' ∈ nodes) /\ (length rest <= length s)%nat.
Proof.
  revert d s. induction fuel as [|fuel IH]; intros d s.
  - simpl. case_bool_decide; [done|]. intros [= <- <-]. auto.
  - simpl. case_bool_decide; [|intros [= <- <-]; auto].
    intros (d1 & s1 & [Hd1 Hlen]%choice_Return & Hrest)%bind_Return.
    apply IH in Hrest as (? & [->|?] & ?). all: split_and!; auto; lia.
Qed.

Lemma redraw_fuel fuel o d s :
  (length s < fuel)%nat -> redraw nodes fuel o d s <> OutOfFuel.
Proof.
  revert d s. induction fuel as [|fuel IH]; intros d s Hlen; [lia|].
  simpl. case_bool_decide; [|done].
  intros [?%choice_OutOfFuel|(d1 & s1 & [_ H1]%choice_Return & Hk)]
    %bind_OutOfFuel; [done|].
  destruct fuel as [|fuel'].
  - destruct s; simpl in *; lia.
  - apply IH in Hk; [done|lia].
Qed.

Lemma passenger_Return fuel vehicle_node i max_delay s o d pt eat rest :
  passenger graph nodes fuel vehicle_node i max_delay s
    = Return (o, d, pt, eat) rest ->
  (i = 0 -> o = vehicle_node) /\ d ∈ nodes /\ o <> d /\
  pt = -80 * (i + 1) /\
  exists travel_time,
    graph o d = Some travel_time /\ travel_time <= max_delay /\
    eat = pt + travel_time.
Proof.
  revert s. induction fuel as [|fuel IH]; intros s; simpl; [done|].
  intros (origin & s1 & Ho & Hk)%bind_Return.
  apply bind_Return in Hk as (d0 & s2 & [Hd0 _]%choice_Return & Hk).
  apply bind_Return in Hk as (d1 & s3 & (Hne & Hd1 & _)%redraw_Return & Hk).
  destruct (graph origin d1) as [travel_time|] eqn:Hg; [|by eapply IH].
  destruct (Z.leb_spec ((i + 1) * -80 + travel_time)
              ((i + 1) * -80 + max_delay)) as [Hle|Hgt].
  2:{ simpl in Hk.
      destruct (Z.leb_spec (0 + (i + 1) * -80 + travel_time)
                  (0 + (i + 1) * -80 + max_delay)); [lia|].
      by eapply IH. }
  simpl in Hk.
  destruct (Z.leb_spec (0 + (i + 1) * -80 + travel_time)
              (0 + (i + 1) * -80 + max_delay)); [|lia].
  injection Hk as <- <- <- <- <-. split_and!.
  - intros ->. simpl in Ho. by injection Ho as <- <-.
  - by destruct Hd1 as [->|?].
  - done.
  - lia.
  - exists travel_time. split_and!; [done|lia|lia].
Qed.

Lemma passenger_fuel fuel vehicle_node i max_delay s :
  (length s < fuel)%nat ->
  passenger graph nodes fuel vehicle_node i max_delay s <> OutOfFuel.
Proof.
  revert s. induction fuel as [|fuel IH]; intros s Hlen; [lia|]. simpl.
  intros [Ho|(origin & s1 & Ho & Hk)]%bind_OutOfFuel.
  { destruct (i =? 0); [done|by apply choice_OutOfFuel in Ho]. }
  assert (length s1 <= length s)%nat as H1.
  { destruct (i =? 0); [by injection Ho as <- <-|].
    apply choice_Return in Ho as [_ ?]. lia. }
  apply bind_OutOfFuel in Hk
    as [?%choice_OutOfFuel|(d0 & s2 & [_ H2]%choice_Return & Hk)]; [done|].
  apply bind_OutOfFuel in Hk as [Hr|(d1 & s3 & Hr & Hk)].
  { apply redraw_fuel in Hr; [done|lia]. }
  apply redraw_Return in Hr as (_ & _ & H3).
  assert (length s3 < fuel)%nat by lia.
  destruct (graph origin d1); [|by eapply IH].
  destruct (_ <=? _); [done|by eapply IH].
Qed.

(** What lines 49-58 write for the passenger of index [i]. *)
Definition onboard_request (vehicle_node omega max_delay : Z) (i : Z)
    (r : request_dict) : Prop :=
  r_id (view r) = passenger_name i /\
  (i = 0 -> o_r (view r) = vehicle_node) /\
  d_r (view r) ∈ nodes /\
  o_r (view r) <> d_r (view r) /\
  exists travel_time,
    graph (o_r (view r)) (d_r (view r)) = Some travel_time /\
    travel_time <= max_delay /\
    t_r_p r = -80 * (i + 1) /\
    t_r_d r = t_r_p r + travel_time /\
    t_r_star (view r) = t_r_d r - 30 /\
    t_r_r r = t_r_p r - 30 /\
    t_r_pl (view r) = t_r_r r + omega.

Lemma generate_requests_for_vehicle_inv vehicle_node num_passengers omega
    max_delay s rs rest :
  generate_requests_for_vehicle graph nodes vehicle_node num_passengers
    omega max_delay s = Return rs rest ->
  length rs = Z.to_nat num_passengers /\
  forall (i : nat) r,
    rs !! i = Some r ->
    onboard_request vehicle_node omega max_delay (Z.of_nat i) r.
Proof.
  unfold generate_requests_for_vehicle. intros Hrun.
  rewrite <- range_length. revert Hrun.
  apply (for_each_inv
           (fun done acc =>
              length acc = length done /\
              forall (i : nat) r,
                acc !! i = Some r ->
                onboard_request vehicle_node omega max_delay (Z.of_nat i) r)).
  - split; [done|]. by intros i r ?.
  - intros done x todo acc s1 acc' s2 Hl [Hlen Hacc].
    intros ([[[o d] pt] eat] & s3 & Hp & Hrest)%bind_Return.
    apply range_middle in Hl as ->.
    apply passenger_Return in Hp as (Ho & Hd & Hne & -> & t & Hg & Hle & ->).
    injection Hrest as <- <-. split.
    { rewrite !length_app. simpl. lia. }
    intros i r. rewrite lookup_app. destruct (acc !! i) as [r'|] eqn:Hi.
    { intros [= <-]. by apply Hacc. }
    intros Hr. apply list_lookup_singleton_Some in Hr as [Hi' <-].
    apply lookup_ge_None in Hi.
    assert (i = length done) as -> by lia.
    unfold onboard_request. simpl. split_and!; try done.
    exists t. split_and!; try done; lia.
Qed.

Lemma generate_requests_for_vehicle_fuel vehicle_node num_passengers omega
    max_delay s :
  generate_requests_for_vehicle graph nodes vehicle_node num_passengers
    omega max_delay s <> OutOfFuel.
Proof.
  apply for_each_OutOfFuel. intros acc x s'.
  intros [Hp|([[[o d] pt] eat] & s2 & _ & Hk)]%bind_OutOfFuel; [|done].
  apply passenger_fuel in Hp; [done|]. unfold turns. lia.
Qed.

(** What lines 86-92 write for the vehicle of index [i]. *)
Definition fresh_vehicle (max_capacity omega max_delay : Z) (i : Z)
    (v : vehicle_dict) : Prop :=
  vd_id v = vehicle_name i /\
  vd_q_v v ∈ nodes /\
  vd_t_v v = 0 /\
  0 <= vd_passengers v <= max_capacity /\
  len (vd_trip_set v) = vd_passengers v /\
  forall (j : nat) r,
    vd_trip_set v !! j = Some r ->
    onboard_request (vd_q_v v) omega max_delay (Z.of_nat j) r.

Lemma redraw_no_exception fuel o d s :
  nodes <> [] -> no_exception (redraw nodes fuel o d s).
Proof.
  intros Hn. revert d s. induction fuel as [|fuel IH]; intros d s; simpl.
  - by case_bool_decide.
  - case_bool_decide; [|done].
    apply bind_no_exception; [by apply choice_no_exception|]. intros.
    apply IH.
Qed.

Lemma passenger_no_exception fuel vehicle_node i max_delay s :
  nodes <> [] ->
  no_exception (passenger graph nodes fuel vehicle_node i max_delay s).
Proof.
  intros Hn. revert s. induction fuel as [|fuel IH]; intros s; simpl; [done|].
  apply bind_no_exception.
  { destruct (i =? 0); [done|by apply choice_no_exception]. }
  intros origin s1 _.
  apply bind_no_exception; [by apply choice_no_exception|].
  intros d0 s2 _.
  apply bind_no_exception; [by apply redraw_no_exception|].
  intros d1 s3 _.
  destruct (graph origin d1); [|apply IH].
  destruct (_ <=? _); [done|apply IH].
Qed.

Lemma generate_requests_for_vehicle_no_exception vehicle_node
    num_passengers omega max_delay s :
  nodes <> [] ->
  no_exception
    (generate_requests_for_vehicle graph nodes vehicle_node num_passengers
       omega max_delay s).
Proof.
  intros Hn. apply for_each_no_exception. intros acc x s'.
  apply bind_no_exception; [by apply passenger_no_exception|].
  by intros [[[o d] pt] eat] s2 _.
Qed.

(** The draws that send the passenger of index [i] from [o] (the node of
    the vehicle when [i] is 0) to [d]. *)
Definition trip_draws (ko kd : nat) (i : Z) : supply :=
  if i =? 0 then [kd] else [ko; kd].

Lemma passenger_draws fuel i max_delay (ko kd : nat) o d t rest :
  nodes !! ko = Some o -> nodes !! kd = Some d -> d <> o ->
  graph o d = Some t -> t <= max_delay ->
  passenger graph nodes (S fuel) o i max_delay (trip_draws ko kd i ++ rest)
  = Return (o, d, 0 + (i + 1) * -80, 0 + (i + 1) * -80 + t) rest.
Proof.
  intros Ho Hd Hne Hg Ht. unfold trip_draws. cbn [passenger].
  assert (forall s,
            bind (choice nodes)
              (fun destination =>
                 bind (redraw nodes fuel o destination)
                   (fun destination =>
                      match graph o destination with
                      | Some travel_time =>
                          if 0 + (i + 1) * -80 + travel_time
                             <=? 0 + (i + 1) * -80 + max_delay
                          then ret (o, destination, 0 + (i + 1) * -80,
                                    0 + (i + 1) * -80 + travel_time)
                          else passenger graph nodes fuel o i max_delay
                      | None => passenger graph nodes fuel o i max_delay
                      end)) (kd :: s)
            = Return (o, d, 0 + (i + 1) * -80, 0 + (i + 1) * -80 + t) s)
    as Hrest.
  { intros s. unfold bind at 1. rewrite (choice_at _ _ _ _ Hd).
    unfold bind.
    assert (redraw nodes fuel o d s = Return d s) as ->.
    { destruct fuel; simpl; by rewrite bool_decide_eq_false_2. }
    rewrite Hg. destruct (Z.leb_spec (0 + (i + 1) * -80 + t)
                            (0 + (i + 1) * -80 + max_delay)); [done|lia]. }
  destruct (i =? 0); simpl.
  - unfold bind at 1. unfold ret at 1. apply Hrest.
  - unfold bind at 1. rewrite (choice_at _ _ _ _ Ho). apply Hrest.
Qed.

Lemma generate_requests_for_vehicle_draws vehicle_node num_passengers omega
    max_delay (kv kd : nat) d t :
  nodes !! kv = Some vehicle_node -> nodes !! kd = Some d ->
  d <> vehicle_node -> graph vehicle_node d = Some t -> t <= max_delay ->
  exists rs,
    generate_requests_for_vehicle graph nodes vehicle_node num_passengers
      omega max_delay (flat_map (trip_draws kv kd) (range num_passengers))
    = Return rs [].
Proof.
  intros Hv Hd Hne Hg Ht. unfold generate_requests_for_vehicle.
  eexists.
  rewrite <- (app_nil_r (flat_map _ _)).
  apply (for_each_app _ _ (trip_draws kv kd)
           (fun trip_set i =>
              trip_set ++
              [RequestDict
                 (Request ("r_p" +:+ pretty (i + 1)) vehicle_node d
                          (0 + (i + 1) * -80 - 30 + omega)
                          (0 + (i + 1) * -80 + t - 30))
                 (0 + (i + 1) * -80 - 30) (0 + (i + 1) * -80)
                 (0 + (i + 1) * -80 + t)])).
  intros acc i rest. unfold bind, turns.
  by rewrite (passenger_draws _ i max_delay kv kd vehicle_node d t rest).
Qed.

(** With no node other than that of the vehicle, the loop of lines 30-31
    has no way out. *)
Lemma generate_requests_for_vehicle_alone vehicle_node num_passengers omega
    max_delay s :
  0 < num_passengers ->
  (forall d, d ∈ nodes -> d = vehicle_node) ->
  generate_requests_for_vehicle graph nodes vehicle_node num_passengers
    omega max_delay s
  = match nodes with [] => IndexError | _ :: _ => Starved end.
Proof.
  intros Hn Hall. destruct nodes as [|x nodes'] eqn:E.
  - unfold generate_requests_for_vehicle, range.
    destruct (Z.to_nat num_passengers) as [|k] eqn:Hk; [lia|].
    cbn [seq map for_each]. unfold bind at 1. unfold bind at 1.
    unfold turns. reflexivity.
  - rewrite <- E in *.
    assert (nodes <> []) as Hne by (by rewrite E).
    destruct (returns_or_starves
                (generate_requests_for_vehicle graph nodes vehicle_node
                   num_passengers omega max_delay s))
      as [(rs & rest & Hrun)|Hst]; [..|done].
    + by apply generate_requests_for_vehicle_no_exception.
    + apply generate_requests_for_vehicle_fuel.
    + exfalso.
      apply generate_requests_for_vehicle_inv in Hrun as [Hlen Hrs].
      destruct rs as [|r rs']; [simpl in Hlen; lia|].
      destruct (Hrs 0%nat r eq_refl) as (_ & Ho & Hd & Hod & _).
      rewrite Ho in Hod by done. by rewrite (Hall _ Hd) in Hod.
Qed.

End ForVehicle.

(** X16.  The passengers that [generate_requests_for_vehicle] gives a
    vehicle, and when it gives them.  A list that is returned has exactly
    [num_passengers] requests, with the ids "r_p1", "r_p2", ... in that
    order; the first one was picked up where the vehicle stands; each goes
    to a node of the graph other than its origin, that a path reaches in at
    most [max_delay]; the passenger of index [i] was picked up at time
    [-80 (i + 1)], is expected at that time plus the travel time, and has
    the request time, the latest pickup time and the earliest drop-off time
    that lines 53-57 derive from these.  On a graph with a node, a run
    raises nothing: it returns, or is still drawing when the supply of
    draws ends.  If the node of the vehicle is a node of the graph from
    which a path reaches another node in at most [max_delay], there are
    draws on which the call returns.  If there is no node other than that
    of the vehicle, a call for at least one passenger never returns: the
    loop of lines 30-31 draws for ever (with no node at all, the first draw
    raises [IndexError]). *)
Theorem generate_requests_for_vehicle_returns graph nodes vehicle_node
    num_passengers omega max_delay :
  (forall s rs rest,
     generate_requests_for_vehicle graph nodes vehicle_node num_passengers
       omega max_delay s = Return rs rest ->
     length rs = Z.to_nat num_passengers /\
     ids rs = map passenger_name (range num_passengers) /\
     forall (i : nat) r,
       rs !! i = Some r ->
       onboard_request graph nodes vehicle_node omega max_delay
         (Z.of_nat i) r) /\
  (nodes <> [] ->
   forall s,
     (exists rs rest,
        generate_requests_for_vehicle graph nodes vehicle_node
          num_passengers omega max_delay s = Return rs rest) \/
     generate_requests_for_vehicle graph nodes vehicle_node num_passengers
       omega max_delay s = Starved) /\
  (forall d t,
     vehicle_node ∈ nodes -> d ∈ nodes -> d <> vehicle_node ->
     graph vehicle_node d = Some t -> t <= max_delay ->
     exists s rs,
       generate_requests_for_vehicle graph nodes vehicle_node
         num_passengers omega max_delay s = Return rs []) /\
  (0 < num_passengers ->
   (forall d, d ∈ nodes -> d = vehicle_node) ->
   forall s,
     generate_requests_for_vehicle graph nodes vehicle_node num_passengers
       omega max_delay s
     = match nodes with [] => IndexError | _ :: _ => Starved end).
Proof.
  split_and!.
  - intros s rs rest [Hlen Hrs]%generate_requests_for_vehicle_inv.
    split_and!; [done| |done].
    apply list_eq. intros i. unfold ids, range.
    rewrite !list_lookup_fmap.
    destruct (rs !! i) as [r|] eqn:Hi; simpl.
    + destruct (Hrs i r Hi) as [-> _].
      rewrite lookup_seq_lt; [done|].
      apply lookup_lt_Some in Hi. lia.
    + apply lookup_ge_None in Hi. rewrite lookup_seq_ge; [done|]. lia.
  - intros Hne s. apply returns_or_starves.
    + by apply generate_requests_for_vehicle_no_exception.
    + apply generate_requests_for_vehicle_fuel.
  - intros d t (kv & Hkv)%list_elem_of_lookup (kd & Hkd)%list_elem_of_lookup
      Hne Hg Ht.
    eexists. by eapply generate_requests_for_vehicle_draws.
  - intros. by apply generate_requests_for_vehicle_alone.
Qed.

Lemma generate_requests_for_vehicle_returns_witness :
  let rs := [RequestDict (Request "r_p1" 0 1 90 (-50)) (-110) (-80) (-20)] in
  length rs = Z.to_nat 1 /\
  ids rs = map passenger_name (range 1) /\
  forall (i : nat) r,
    rs !! i = Some r ->
    onboard_request Scenario.triangle [0; 1; 2] 0 200 300 (Z.of_nat i) r.
Proof.
  apply (proj1 (generate_requests_for_vehicle_returns Scenario.triangle
                  [0; 1; 2] 0 1 200 300) [1; 5]%nat _ [5%nat]).
  vm_compute. reflexivity.
Defined.

Lemma initialize_vehicles_inv graph nodes num_vehicles max_capacity
    omega max_delay s vs rest :
  initialize_vehicles graph nodes num_vehicles max_capacity omega max_delay s
    = Return vs rest ->
  length vs = Z.to_nat num_vehicles /\
  forall (i : nat) v,
    vs !! i = Some v ->
    fresh_vehicle graph nodes max_capacity omega max_delay (Z.of_nat i) v.
Proof.
  unfold initialize_vehicles. intros Hrun.
  rewrite <- range_length. revert Hrun.
  apply (for_each_inv
           (fun done acc =>
              length acc = length done /\
              forall (i : nat) v,
                acc !! i = Some v ->
                fresh_vehicle graph nodes max_capacity omega max_delay
                  (Z.of_nat i) v)).
  - split; [done|]. by intros i v ?.
  - intros done x todo acc s1 acc' s2 Hl [Hlen Hacc].
    intros (p & s3 & [Hp _]%randint_Return & Hk)%bind_Return.
    apply bind_Return in Hk as (q & s4 & [Hq _]%choice_Return & Hk).
    apply bind_Return in Hk
      as (ts & s5 & [Hts1 Hts2]%generate_requests_for_vehicle_inv & Hk).
    apply range_middle in Hl as ->.
    injection Hk as <- <-. split.
    { rewrite !length_app. simpl. lia. }
    intros i v. rewrite lookup_app. destruct (acc !! i) as [v'|] eqn:Hi.
    { intros [= <-]. by apply Hacc. }
    intros Hv. apply list_lookup_singleton_Some in Hv as [Hi' <-].
    apply lookup_ge_None in Hi.
    assert (i = length done) as -> by lia.
    unfold fresh_vehicle. simpl. split_and!; try done; try lia.
    unfold len. rewrite Hts1. lia.
Qed.

Lemma initialize_vehicles_fuel graph nodes num_vehicles max_capacity omega
    max_delay s :
  initialize_vehicles graph nodes num_vehicles max_capacity omega max_delay s
  <> OutOfFuel.
Proof.
  apply for_each_OutOfFuel. intros acc x s'.
  intros [?%randint_OutOfFuel|(p & s1 & _ & Hk)]%bind_OutOfFuel; [done|].
  apply bind_OutOfFuel in Hk as [?%choice_OutOfFuel|(q & s2 & _ & Hk)];
    [done|].
  apply bind_OutOfFuel in Hk as [Hk|(ts & s3 & _ & Hk)]; [|done].
  by apply generate_requests_for_vehicle_fuel in Hk.
Qed.

Lemma initialize_vehicles_no_exception graph nodes num_vehicles max_capacity
    omega max_delay s :
  nodes <> [] -> 0 <= max_capacity ->
  no_exception
    (initialize_vehicles graph nodes num_vehicles max_capacity omega
       max_delay s).
Proof.
  intros Hn Hc. apply for_each_no_exception. intros acc x s'.
  apply bind_no_exception; [by apply randint_no_exception|]. intros p s1 _.
  apply bind_no_exception; [by apply choice_no_exception|]. intros q s2 _.
  apply bind_no_exception;
    [by apply generate_requests_for_vehicle_no_exception|].
  by intros ts s3 _.
Qed.

(** The draws 0, 0 make a vehicle without passengers at the first node. *)
Lemma initialize_vehicles_draws graph nodes num_vehicles max_capacity omega
    max_delay :
  nodes <> [] -> 0 <= max_capacity ->
  exists vs,
    initialize_vehicles graph nodes num_vehicles max_capacity omega max_delay
      (flat_map (fun _ => [0; 0]%nat) (range num_vehicles))
    = Return vs [].
Proof.
  intros Hn Hc. destruct nodes as [|x0 nodes'] eqn:E; [done|].
  rewrite <- E. unfold initialize_vehicles. eexists.
  rewrite <- (app_nil_r (flat_map _ _)).
  apply (for_each_app _ _ (fun _ => [0; 0]%nat)
           (fun vehicles i =>
              vehicles ++ [VehicleDict ("v" +:+ pretty (i + 1)) x0 0 0 []])).
  intros acc i rest. simpl. unfold bind at 1. unfold randint.
  destruct (Z.ltb_spec max_capacity 0); [lia|].
  rewrite Zmod_0_l, Z.add_0_r.
  unfold bind at 1. rewrite (choice_at nodes 0 rest x0) by (by rewrite E).
  reflexivity.
Qed.

Lemma initialize_vehicles_negative graph nodes num_vehicles max_capacity
    omega max_delay s :
  0 < num_vehicles -> max_capacity < 0 ->
  initialize_vehicles graph nodes num_vehicles max_capacity omega max_delay s
  = ValueError.
Proof.
  intros Hn Hc. unfold initialize_vehicles, range.
  destruct (Z.to_nat num_vehicles) as [|k] eqn:Hk; [lia|].
  cbn [seq map for_each]. unfold bind at 1. unfold bind at 1.
  unfold randint. by destruct (Z.ltb_spec max_capacity 0); [|lia].
Qed.

(** X17.  The fleet that [initialize_vehicles] returns, and when it returns
    one.  A fleet that is returned has exactly [num_vehicles] vehicles, with
    the ids "v1", "v2", ... in that order; each stands at a node of the
    graph, at time 0; its ["passengers"] is between 0 and [max_capacity] and
    is the length of its ["trip_set"], whose requests are those of
    [generate_requests_for_vehicle] for the node where the vehicle stands.
    There are draws on which the call returns exactly when no vehicle is
    asked for, or the graph has a node and [max_capacity] is not negative;
    in that case a run raises nothing: it returns, or is still drawing when
    the supply of draws ends.  With a negative [max_capacity], a call for at
    least one vehicle raises the [ValueError] of [random.randint]. *)
Theorem initialize_vehicles_returns graph nodes num_vehicles max_capacity
    omega max_delay :
  (forall s vs rest,
     initialize_vehicles graph nodes num_vehicles max_capacity omega
       max_delay s = Return vs rest ->
     length vs = Z.to_nat num_vehicles /\
     map vd_id vs = map vehicle_name (range num_vehicles) /\
     forall (i : nat) v,
       vs !! i = Some v ->
       fresh_vehicle graph nodes max_capacity omega max_delay
         (Z.of_nat i) v) /\
  ((exists s vs rest,
      initialize_vehicles graph nodes num_vehicles max_capacity omega
        max_delay s = Return vs rest) <->
   num_vehicles <= 0 \/ (nodes <> [] /\ 0 <= max_capacity)) /\
  (nodes <> [] -> 0 <= max_capacity ->
   forall s,
     (exists vs rest,
        initialize_vehicles graph nodes num_vehicles max_capacity omega
          max_delay s = Return vs rest) \/
     initialize_vehicles graph nodes num_vehicles max_capacity omega
       max_delay s = Starved) /\
  (0 < num_vehicles -> max_capacity < 0 ->
   forall s,
     initialize_vehicles graph nodes num_vehicles max_capacity omega
       max_delay s = ValueError).
Proof.
  split_and!.
  - intros s vs rest [Hlen Hvs]%initialize_vehicles_inv.
    split_and!; [done| |done].
    apply list_eq. intros i. unfold range.
    rewrite !list_lookup_fmap.
    destruct (vs !! i) as [v|] eqn:Hi; simpl.
    + destruct (Hvs i v Hi) as [-> _].
      rewrite lookup_seq_lt; [done|].
      apply lookup_lt_Some in Hi. lia.
    + apply lookup_ge_None in Hi. rewrite lookup_seq_ge; [done|]. lia.
  - split.
    + intros (s & vs & rest & [Hlen Hvs]%initialize_vehicles_inv).
      destruct (Z.le_gt_cases num_vehicles 0) as [?|Hpos]; [by left|].
      right. destruct vs as [|v vs']; [simpl in Hlen; lia|].
      destruct (Hvs 0%nat v eq_refl) as (_ & Hq & _ & Hp & _).
      split; [|lia]. intros Hnil. rewrite Hnil in Hq.
      by apply elem_of_nil in Hq.
    + intros [Hn|[Hn Hc]].
      * exists [], [], []. unfold initialize_vehicles, range.
        by replace (Z.to_nat num_vehicles) with 0%nat by lia.
      * destruct (initialize_vehicles_draws graph nodes num_vehicles
                    max_capacity omega max_delay Hn Hc) as (vs & Hvs).
        eauto.
  - intros Hn Hc s. apply returns_or_starves.
    + by apply initialize_vehicles_no_exception.
    + apply initialize_vehicles_fuel.
  - intros. by apply initialize_vehicles_negative.
Qed.

Lemma initialize_vehicles_returns_witness :
  let vs :=
    [VehicleDict "v1" 0 0 1
       [RequestDict (Request "r_p1" 0 1 90 (-50)) (-110) (-80) (-20)];
     VehicleDict "v2" 2 0 1
       [RequestDict (Request "r_p1" 2 0 90 (-20)) (-110) (-80) 10]] in
  length vs = Z.to_nat 2 /\
  map vd_id vs = map vehicle_name (range 2) /\
  forall (i : nat) v,
    vs !! i = Some v ->
    fresh_vehicle Scenario.triangle [0; 1; 2] 2 200 300 (Z.of_nat i) v.
Proof.
  apply (proj1 (initialize_vehicles_returns Scenario.triangle [0; 1; 2] 2 2
                  200 300)
           [1; 0; 1; 1; 2; 2; 2; 0; 0; 1; 1; 1; 0]%nat _
           [0; 1; 1; 1; 0]%nat).
  vm_compute. reflexivity.
Defined.

(** ** Generated data and the other modules *)

Lemma lookup_names_NoDup {X} (f : Z -> string) `{!Inj (=) (=) f}
    (name : X -> string) (l : list X) :
  (forall (i : nat) x, l !! i = Some x -> name x = f (Z.of_nat i)) ->
  NoDup (map name l).
Proof.
  intros Hl. apply NoDup_alt. intros i j y.
  rewrite !list_lookup_fmap.
  destruct (l !! i) as [a|] eqn:Ha; [|done].
  destruct (l !! j) as [b|] eqn:Hb; [|done]. simpl.
  rewrite (Hl i a Ha), (Hl j b Hb). intros [= <-] [= H].
  apply (inj f) in H. lia.
Qed.

(** X18.  Data made by the two generators meet what the other modules
    assume of their input.  The ids of the requests start with "r" and those
    of the vehicles do not (the test by which the pruning of the RV graph
    tells the two kinds of node apart); the ids of the vehicles are different
    from each other; every vehicle has as many ["passengers"] as requests in
    its ["trip_set"] (the first is what [generate_rv_graph] tests, the second
    what [travel] counts); and the ids of a vehicle's passengers and of the
    new requests are all different, as the precedence test of [travel]
    needs. *)
Theorem generated_data_meet_assumptions graph nodes num_vehicles
    num_requests max_capacity omega max_delay s1 s2 vs rs rest1 rest2 :
  initialize_vehicles graph nodes num_vehicles max_capacity omega max_delay
    s1 = Return vs rest1 ->
  generate_requests graph nodes num_requests omega s2 = Return rs rest2 ->
  let vehicles := map as_vehicle vs in
  let requests := map view rs in
  (forall r, r ∈ requests -> startswith_r (r_id r) = true) /\
  (forall v, v ∈ vehicles -> startswith_r (v_id v) = false) /\
  NoDup (map v_id vehicles) /\
  (forall v, v ∈ vehicles ->
     passengers v = len (trip_set v) /\
     0 <= passengers v <= max_capacity /\
     NoDup (map r_id (trip_set v ++ requests))).
Proof.
  intros [Hlen Hvs]%initialize_vehicles_inv Hrun.
  destruct (generate_requests_names _ _ _ _ _ _ _ Hrun) as [Hnd Hr].
  apply generate_requests_inv in Hrun as (Hf & js & Hsub & Hids & _).
  intros vehicles requests. split_and!.
  - intros r (r' & -> & Hr')%list_elem_of_fmap.
    rewrite Forall_forall in Hr. by apply Hr.
  - intros v (v' & -> & (i & Hi)%list_elem_of_lookup)%list_elem_of_fmap.
    destruct (Hvs i v' Hi) as (Hid & _). simpl. rewrite Hid.
    apply startswith_r_vehicle_name.
  - unfold vehicles. rewrite map_map. simpl.
    apply (lookup_names_NoDup vehicle_name).
    intros i v Hi. by destruct (Hvs i v Hi) as (Hid & _).
  - intros v (v' & -> & (i & Hi)%list_elem_of_lookup)%list_elem_of_fmap.
    destruct (Hvs i v' Hi) as (_ & _ & _ & Hp & Hl & Hts). simpl.
    split_and!; [by rewrite <- Hl; unfold len; rewrite length_map|lia..|].
    rewrite map_app. apply NoDup_app. split_and!.
    + rewrite map_map. apply (lookup_names_NoDup passenger_name).
      intros j r Hj. by destruct (Hts j r Hj) as (Hid & _).
    + intros x Hx Hx'. unfold requests in Hx'. rewrite map_map in Hx, Hx'.
      fold (ids rs) in Hx'. rewrite Hids in Hx'.
      apply list_elem_of_fmap in Hx' as (j & -> & Hj).
      apply list_elem_of_fmap in Hx as (r & Hx & (k & Hk)%list_elem_of_lookup).
      destruct (Hts k r Hk) as (Hid & _). rewrite Hid in Hx.
      apply (request_name_not_passenger j (Z.of_nat k)); [|done].
      apply (elem_of_sublist _ _ _ Hj) in Hsub as Hj'.
      apply list_elem_of_lookup in Hj' as (m & Hm).
      apply range_lookup in Hm as [-> _]. lia.
    + unfold requests. rewrite map_map. exact Hnd.
Qed.

Lemma generated_data_meet_assumptions_witness :
  let vehicles :=
    map as_vehicle
      [VehicleDict "v1" 0 0 1
         [RequestDict (Request "r_p1" 0 1 90 (-50)) (-110) (-80) (-20)];
       VehicleDict "v2" 2 0 1
         [RequestDict (Request "r_p1" 2 0 90 (-20)) (-110) (-80) 10]] in
  let requests :=
    map view
      [RequestDict (Request "r1" 0 1 200 60) 0 (-1) (-1);
       RequestDict (Request "r2" 1 2 200 60) 0 (-1) (-1);
       RequestDict (Request "r3" 2 1 200 60) 0 (-1) (-1)] in
  (forall r, r ∈ requests -> startswith_r (r_id r) = true) /\
  (forall v, v ∈ vehicles -> startswith_r (v_id v) = false) /\
  NoDup (map v_id vehicles) /\
  (forall v, v ∈ vehicles ->
     passengers v = len (trip_set v) /\
     0 <= passengers v <= 2 /\
     NoDup (map r_id (trip_set v ++ requests))).
Proof.
  apply (generated_data_meet_assumptions Scenario.triangle [0; 1; 2] 2 3 2
           200 300
           [1; 0; 1; 1; 2; 2; 2; 0; 0; 1; 1; 1; 0]%nat
           [0; 0; 0; 1; 2; 2; 1; 2; 5; 7; 9]%nat
           _ _ [0; 1; 1; 1; 0]%nat [9%nat]).
  - vm_compute. reflexivity.
  - vm_compute. reflexivity.
Defined.

(** ** [validate_request_reachability] *)

Section Reachability.

Variable graph : graph.

(** Some vehicle of the list stands at a node from which a path leads to the
    origin of the request. *)
Definition reachable_by (vehicles : list vehicle) (r : request) : Prop :=
  Exists (fun v => is_Some (graph (q_v v) (o_r r))) vehicles.

#[global] Instance reachable_by_dec vehicles r :
  Decision (reachable_by vehicles r).
Proof. unfold reachable_by. apply _. Defined.

Lemma is_reachable_iff o vehicles :
  is_reachable graph o vehicles = true <->
  Exists (fun v => is_Some (graph (q_v v) o)) vehicles.
Proof.
  induction vehicles as [|v vs IH]; simpl.
  - split; [done|]. by intros ?%Exists_nil.
  - rewrite Exists_cons. unfold has_path.
    destruct (graph (q_v v) o) as [t|] eqn:Hg.
    + split; [|done]. intros _. left. by eexists.
    + rewrite IH. split; [by right|]. intros [[? [=]]|?]. done.
Qed.

Lemma validate_fold requests vehicles R U :
  fold_left
    (fun lists request =>
       let '(reachable_requests, unreachable_requests) := lists in
       if is_reachable graph (o_r request) vehicles
       then (reachable_requests ++ [request], unreachable_requests)
       else (reachable_requests, unreachable_requests ++ [request]))
    requests (R, U)
  = (R ++ filter (reachable_by vehicles) requests,
     U ++ filter (fun r => ~ reachable_by vehicles r) requests).
Proof.
  revert R U. induction requests as [|r rs IH]; intros R U; simpl.
  - by rewrite !app_nil_r.
  - rewrite !filter_cons.
    destruct (is_reachable graph (o_r r) vehicles) eqn:Hr.
    + apply is_reachable_iff in Hr. rewrite IH.
      rewrite decide_True by done. rewrite decide_False by tauto.
      by rewrite <- (assoc_L (++)).
    + assert (~ reachable_by vehicles r) as Hn.
      { intros H%is_reachable_iff. congruence. }
      rewrite IH. rewrite decide_False by done. rewrite decide_True by done.
      by rewrite <- (assoc_L (++)).
Qed.

Lemma validate_request_reachability_eq requests vehicles :
  validate_request_reachability graph requests vehicles
  = (filter (reachable_by vehicles) requests,
     filter (fun r => ~ reachable_by vehicles r) requests).
Proof. unfold validate_request_reachability. by rewrite validate_fold. Qed.

End Reachability.

(** X19.  [validate_request_reachability] splits the requests in two, and
    keeps their order in both parts: the first part is the requests whose
    origin some vehicle can reach from where it stands, the second part is
    the others.  Every request is in exactly one of the two; with no
    vehicle at all, every request is in the second. *)
Theorem validate_request_reachability_partition graph requests vehicles :
  validate_request_reachability graph requests vehicles
  = (filter (reachable_by graph vehicles) requests,
     filter (fun r => ~ reachable_by graph vehicles r) requests) /\
  (validate_request_reachability graph requests vehicles).1 ++
  (validate_request_reachability graph requests vehicles).2 ≡ₚ requests /\
  validate_request_reachability graph requests [] = ([], requests).
Proof.
  pose proof (validate_request_reachability_eq graph requests) as H.
  split_and!.
  - apply H.
  - rewrite H. simpl. apply filter_app_complement.
  - rewrite H. f_equal.
    + apply filter_none. intros r _ Hr. by apply Exists_nil in Hr.
    + apply filter_all. intros r _ Hr. by apply Exists_nil in Hr.
Qed.

(** ** Requests that are filtered out have no trip *)

(** Travel times that come from paths compose: where a path leads from [a]
    to [b] and one from [b] to [c], one leads from [a] to [c]. *)
Definition paths_compose (graph : graph) : Prop :=
  forall a b c x y,
    graph a b = Some x -> graph b c = Some y -> is_Some (graph a c).

Lemma path_time_reaches graph q route z n :
  paths_compose graph ->
  path_time graph q route = Some z -> n ∈ route -> is_Some (graph q n).
Proof.
  intros Hc. revert q z. induction route as [|m route IH]; intros q z; simpl.
  { by intros _ ?%elem_of_nil. }
  destruct (graph q m) as [d|] eqn:Hd; simpl; [|done].
  destruct (path_time graph m route) as [t|] eqn:Ht; simpl; [|done].
  intros _ [->|Hn]%elem_of_cons; [by eexists|].
  destruct (IH m t Ht Hn) as [y Hy]. by eapply Hc.
Qed.

(** X20.  Passing only the reachable requests on to [generate_rv_graph], as
    the driver does, loses no vehicle-request edge: for a request that
    [validate_request_reachability] puts in its second list, [travel]
    answers INFEASIBLE for every vehicle of the list, at any capacity and
    delay (on a graph whose paths compose). *)
Theorem unreachable_request_has_no_trip graph requests vehicles r v
    max_capacity max_delay :
  paths_compose graph ->
  r ∈ (validate_request_reachability graph requests vehicles).2 ->
  v ∈ vehicles ->
  travel v [r] graph max_capacity max_delay = (None, Inf).
Proof.
  intros Hc Hr Hv.
  assert (~ reachable_by graph vehicles r) as Hn.
  { rewrite validate_request_reachability_eq in Hr. simpl in Hr.
    by apply list_elem_of_filter in Hr as [? _]. }
  destruct (travel_total v [r] graph max_capacity max_delay)
    as [Hnone | (seq & z & Hsome)]; [done..|].
  exfalso. apply Hn. apply Exists_exists. exists v. split; [done|].
  apply travel_returns_accepted in Hsome as (z0 & _ & (Hperm & _ & Hw) & _).
  apply walk_iff in Hw as (_ & total & Hp & _).
  apply (path_time_reaches graph (q_v v) (map s_node seq) total); [done..|].
  apply list_elem_of_fmap. exists (pick r). split; [done|].
  rewrite Hperm. apply pick_in_stops. by left.
Qed.

Lemma line_paths_compose : paths_compose Scenario.line.
Proof.
  intros a b c x y. unfold Scenario.line, Scenario.link.
  repeat case_bool_decide; try done; intros _ _; try (by eexists);
    exfalso; unfold Scenario.A, Scenario.B in *; naive_solver lia.
Qed.

Lemma unreachable_request_has_no_trip_witness :
  travel Scenario.empty_at_A [Request "r1" Scenario.C Scenario.A 100 60]
         Scenario.line 2 300 = (None, Inf).
Proof.
  apply (unreachable_request_has_no_trip Scenario.line
           [Request "r1" Scenario.C Scenario.A 100 60]
           [Scenario.empty_at_A]).
  - apply line_paths_compose.
  - vm_compute. constructor.
  - constructor.
Defined.
